(** * pycsg: constructive solid geometry on polygon meshes

    A shallow embedding of [csg/core.py] (class [CSG]) together with the
    geometry layer it calls ([csg.geom]: Vector, Vertex, Plane, Polygon,
    BSPNode).

    Python objects live in a store.  A Vertex, a Polygon, a list of
    polygons and a CSG solid are objects with an identity (a location);
    methods that assign to a field or reverse a list update the store in
    place, and two references to one object see each other's updates.
    Vectors and planes are never updated in place by the code under study
    and are kept as values inside the object that holds them.

    Python floats are IEEE-754 binary64 numbers: the primitive floats. *)

From Stdlib Require Import Floats ZArith String Ascii DecimalString Lia.
From stdpp Require Import base list.

Set Default Proof Using "Type".

(** ** Vectors (values) *)

Module Vector.

Record t : Type := mk { x : float; y : float; z : float }.

Definition plus (a b : t) : t :=
  mk (x a + x b)%float (y a + y b)%float (z a + z b)%float.

Definition minus (a b : t) : t :=
  mk (x a - x b)%float (y a - y b)%float (z a - z b)%float.

Definition times (a : t) (s : float) : t :=
  mk (x a * s)%float (y a * s)%float (z a * s)%float.

Definition dividedBy (a : t) (s : float) : t :=
  mk (x a / s)%float (y a / s)%float (z a / s)%float.

Definition negated (a : t) : t :=
  mk (- x a)%float (- y a)%float (- z a)%float.

Definition dot (a b : t) : float :=
  (x a * x b + y a * y b + z a * z b)%float.

Definition cross (a b : t) : t :=
  mk (y a * z b - z a * y b)%float
     (z a * x b - x a * z b)%float
     (x a * y b - y a * x b)%float.

Definition length (a : t) : float := PrimFloat.sqrt (dot a a).

(** Modelled from the spec: [unit] at length zero, which the spec leaves to
    the implementation and says the source answers with not-a-number
    components; the IEEE quotient 0/0 is that. *)
Definition unit (a : t) : t := dividedBy a (length a).

(** [a + t (b - a)] *)
Definition lerp (a b : t) (s : float) : t := plus a (times (minus b a) s).

End Vector.

(** ** Planes (values) *)

Module Plane.

Record t : Type := mk { normal : Vector.t; w : float }.

(** Python's [1e-5]: the binary64 number nearest to it. *)
Definition EPSILON : float := 0x1.4f8b588e368f1p-17%float.

(** Modelled from the spec: the plane through three points,
    [n = unit((b-a) x (c-a))], [w = n . a]. *)
Definition fromPoints (a b c : Vector.t) : t :=
  let n := Vector.unit (Vector.cross (Vector.minus b a) (Vector.minus c a)) in
  mk n (Vector.dot n a).

(** Modelled from the spec: [flip] negates both the normal and the offset. *)
Definition flip (p : t) : t := mk (Vector.negated (normal p)) (- w p)%float.

(** Tags of the classifier; a polygon's tag is the bitwise or of its
    vertices' tags. *)
Definition COPLANAR : nat := 0.
Definition FRONT : nat := 1.
Definition BACK : nat := 2.
Definition SPANNING : nat := 3.

(** Modelled from the spec: the tag of a point, from its signed distance
    [t = n . p - w]: COPLANAR if [|t| < EPS], FRONT if [t > 0], BACK if
    [t < 0].  A distance that is not a number satisfies none of the three
    and sets no bit. *)
Definition classify (pl : t) (p : Vector.t) : nat :=
  let d := (Vector.dot (normal pl) p - w pl)%float in
  if (PrimFloat.abs d <? EPSILON)%float then COPLANAR
  else if (0 <? d)%float then FRONT
  else if (d <? 0)%float then BACK
  else COPLANAR.

End Plane.

(** ** The store *)

(** A location: the index of an object in the table of its class. *)
Abbreviation loc := nat (only parsing).

(** A Vertex object: its two fields. *)
Record vertex : Type := Vertex_obj { pos : Vector.t; normal : Vector.t }.

(** A Polygon object: the references to its Vertex objects, in order, and
    its plane. *)
Record polygon : Type := Polygon_obj { vertices : list loc; plane : Plane.t }.

(** The store: one table per class, a location is an index into the table of
    its class.  [list_objs] holds the Python lists of Polygon references,
    [csg_objs] the CSG objects, each the reference held in its
    [self.polygons]. *)
Record heap : Type := Heap {
  vertex_objs : list vertex;
  polygon_objs : list polygon;
  list_objs : list (list loc);
  csg_objs : list loc
}.

Definition set_vertex_objs (h : heap) (v : list vertex) : heap :=
  Heap v (polygon_objs h) (list_objs h) (csg_objs h).
Definition set_polygon_objs (h : heap) (p : list polygon) : heap :=
  Heap (vertex_objs h) p (list_objs h) (csg_objs h).
Definition set_list_objs (h : heap) (l : list (list loc)) : heap :=
  Heap (vertex_objs h) (polygon_objs h) l (csg_objs h).
Definition set_csg_objs (h : heap) (c : list loc) : heap :=
  Heap (vertex_objs h) (polygon_objs h) (list_objs h) c.

(** ** Computations: store passing, [None] for a raised exception (or, in
    [BSPNode.build], for recursion deeper than the fuel given). *)

Definition M (A : Type) : Type := heap -> option (A * heap).

Definition ret {A} (a : A) : M A := fun h => Some (a, h).

Definition bind {A B} (m : M A) (k : A -> M B) : M B :=
  fun h => match m h with
           | Some (a, h') => k a h'
           | None => None
           end.

Definition raise {A} : M A := fun _ => None.

Notation "x <- m ;; k" := (bind m (fun x => k))
  (at level 20, m at level 99, k at level 200, only parsing).
Notation "' pat <- m ;; k" := (bind m (fun x => match x with pat => k end))
  (at level 20, pat pattern, m at level 99, k at level 200, only parsing).

Definition lift_option {A} (o : option A) : M A :=
  fun h => match o with Some a => Some (a, h) | None => None end.

Fixpoint map_M {A B} (f : A -> M B) (l : list A) : M (list B) :=
  match l with
  | [] => ret []
  | a :: l' => b <- f a ;; bs <- map_M f l' ;; ret (b :: bs)
  end.

(** [for a in l: f(a)] *)
Fixpoint forM_ {A} (l : list A) (f : A -> M unit) : M unit :=
  match l with
  | [] => ret tt
  | a :: l' => _ <- f a ;; forM_ l' f
  end.

(** A loop that carries local variables [s]. *)
Fixpoint foldM {A S} (f : S -> A -> M S) (s : S) (l : list A) : M S :=
  match l with
  | [] => ret s
  | a :: l' => s' <- f s a ;; foldM f s' l'
  end.

(** Object creation returns the new object's location. *)
Definition alloc_vertex (v : vertex) : M loc :=
  fun h => Some (length (vertex_objs h), set_vertex_objs h (vertex_objs h ++ [v])).
Definition alloc_polygon (p : polygon) : M loc :=
  fun h => Some (length (polygon_objs h), set_polygon_objs h (polygon_objs h ++ [p])).
Definition alloc_list (l : list loc) : M loc :=
  fun h => Some (length (list_objs h), set_list_objs h (list_objs h ++ [l])).
Definition alloc_csg (l : loc) : M loc :=
  fun h => Some (length (csg_objs h), set_csg_objs h (csg_objs h ++ [l])).

Definition get_vertex (l : loc) : M vertex := fun h => lift_option (vertex_objs h !! l) h.
Definition get_polygon (l : loc) : M polygon := fun h => lift_option (polygon_objs h !! l) h.
Definition get_list (l : loc) : M (list loc) := fun h => lift_option (list_objs h !! l) h.
Definition get_csg (l : loc) : M loc := fun h => lift_option (csg_objs h !! l) h.

(** Field assignment on an existing object. *)
Definition put_vertex (l : loc) (v : vertex) : M unit :=
  fun h => if decide (l < length (vertex_objs h))
           then Some (tt, set_vertex_objs h (<[l := v]> (vertex_objs h)))
           else None.
Definition put_polygon (l : loc) (p : polygon) : M unit :=
  fun h => if decide (l < length (polygon_objs h))
           then Some (tt, set_polygon_objs h (<[l := p]> (polygon_objs h)))
           else None.
Definition put_csg (l : loc) (p : loc) : M unit :=
  fun h => if decide (l < length (csg_objs h))
           then Some (tt, set_csg_objs h (<[l := p]> (csg_objs h)))
           else None.

(** ** Vertex objects *)

Module Vertex.

(** [Vertex(pos, normal)] *)
Definition new (p n : Vector.t) : M loc := alloc_vertex (Vertex_obj p n).

(** Modelled from the spec: [clone] returns an independent copy. *)
Definition clone (v : loc) : M loc :=
  o <- get_vertex v ;;
  alloc_vertex (Vertex_obj (pos o) (normal o)).

(** Modelled from the spec: [flip] negates the normal (of this object). *)
Definition flip (v : loc) : M unit :=
  o <- get_vertex v ;;
  put_vertex v (Vertex_obj (pos o) (Vector.negated (normal o))).

(** Modelled from the spec: [interpolate(a, b, t)] is a new vertex whose
    position and normal are [a + t (b - a)], the normal not renormalized. *)
Definition interpolate (a b : loc) (s : float) : M loc :=
  oa <- get_vertex a ;;
  ob <- get_vertex b ;;
  alloc_vertex (Vertex_obj (Vector.lerp (pos oa) (pos ob) s)
                           (Vector.lerp (normal oa) (normal ob) s)).

End Vertex.

(** ** Polygon objects *)

Module Polygon.

(** Modelled from the spec: a polygon is a sequence of vertices plus the
    plane derived from the first three vertex positions.  With fewer than
    three vertices there is no such plane and the construction raises. *)
Definition new (vs : list loc) : M loc :=
  match vs with
  | a :: b :: c :: _ =>
      oa <- get_vertex a ;;
      ob <- get_vertex b ;;
      oc <- get_vertex c ;;
      alloc_polygon (Polygon_obj vs (Plane.fromPoints (pos oa) (pos ob) (pos oc)))
  | _ => raise
  end.

(** Modelled from the spec: [clone] deep-copies all vertices and the
    plane. *)
Definition clone (p : loc) : M loc :=
  o <- get_polygon p ;;
  vs <- map_M Vertex.clone (vertices o) ;;
  alloc_polygon (Polygon_obj vs (plane o)).

(** Modelled from the spec: [flip] reverses the vertex order in place and
    calls flip on each vertex and on the plane. *)
Definition flip (p : loc) : M unit :=
  o <- get_polygon p ;;
  let vs := rev (vertices o) in
  _ <- put_polygon p (Polygon_obj vs (plane o)) ;;
  _ <- forM_ vs Vertex.flip ;;
  put_polygon p (Polygon_obj vs (Plane.flip (plane o))).

End Polygon.

(** ** Polygon splitting *)

(** The four output lists of the splitting routine. *)
Module Buckets.
Record t : Type := mk {
  coplanarFront : list loc;
  coplanarBack : list loc;
  front : list loc;
  back : list loc
}.
Definition empty : t := mk [] [] [] [].
Definition append (a b : t) : t :=
  mk (coplanarFront a ++ coplanarFront b) (coplanarBack a ++ coplanarBack b)
     (front a ++ front b) (back a ++ back b).
End Buckets.

(** The consecutive pairs [(v_i, v_j)], [j = (i + 1) mod n], of a ring. *)
Definition ring {A} (l : list A) : list (A * A) := zip l (drop 1 l ++ take 1 l).

(** Modelled from the spec: one step of the split procedure, for the pair
    of vertices [vi], [vj] with tags [ti], [tj]; [f] and [b] are the front
    and back vertex accumulators. *)
Definition split_step (pl : Plane.t) (acc : list loc * list loc)
    (e : (loc * nat) * (loc * nat)) : M (list loc * list loc) :=
  let '((vi, ti), (vj, tj)) := e in
  let '(f, b) := acc in
  let f := if negb (ti =? Plane.BACK) then f ++ [vi] else f in
  b <- (if negb (ti =? Plane.FRONT)
        then if negb (ti =? Plane.BACK)
             then c <- Vertex.clone vi ;; ret (b ++ [c])
             else ret (b ++ [vi])
        else ret b) ;;
  if Nat.lor ti tj =? Plane.SPANNING then
    oi <- get_vertex vi ;;
    oj <- get_vertex vj ;;
    let s := ((Plane.w pl - Vector.dot (Plane.normal pl) (pos oi))
              / Vector.dot (Plane.normal pl) (Vector.minus (pos oj) (pos oi)))%float in
    v <- Vertex.interpolate vi vj s ;;
    c <- Vertex.clone v ;;
    ret (f ++ [v], b ++ [c])
  else ret (f, b).

(** Modelled from the spec: the splitting routine of Plane.  Classifies the
    polygon [p] against [pl] and returns what it appends to each of the four
    output lists. *)
Definition Plane_splitPolygon (pl : Plane.t) (p : loc) : M Buckets.t :=
  o <- get_polygon p ;;
  objs <- map_M get_vertex (vertices o) ;;
  let tags := map (fun v => Plane.classify pl (pos v)) objs in
  let polygonType := foldl Nat.lor 0 tags in
  if polygonType =? Plane.COPLANAR then
    if (0 <? Vector.dot (Plane.normal pl) (Plane.normal (plane o)))%float
    then ret (Buckets.mk [p] [] [] [])
    else ret (Buckets.mk [] [p] [] [])
  else if polygonType =? Plane.FRONT then ret (Buckets.mk [] [] [p] [])
  else if polygonType =? Plane.BACK then ret (Buckets.mk [] [] [] [p])
  else
    '(f, b) <- foldM (split_step pl) ([], []) (ring (zip (vertices o) tags)) ;;
    fr <- (if 3 <=? length f then q <- Polygon.new f ;; ret [q] else ret []) ;;
    bk <- (if 3 <=? length b then q <- Polygon.new b ;; ret [q] else ret []) ;;
    ret (Buckets.mk [] [] fr bk).

(** ** BSP trees

    A tree is built, clipped and inverted inside one Boolean operation and is
    referenced from nowhere else: its nodes are kept as a value, updated
    functionally.  The polygons a node lists are objects of the store. *)

Module BSPNode.

#[warnings="-register-all"]
Inductive t : Type :=
  Node (plane : option Plane.t) (polygons : list loc) (front back : option t).

(** [BSPNode()]: no plane, no polygons, no children. *)
Definition empty : t := Node None [] None None.

Definition polygons (n : t) : list loc := let '(Node _ ps _ _) := n in ps.

(** Modelled from the spec: [invert] flips every polygon of the node,
    flips the splitting plane, swaps the front and back subtrees, then
    recurses into both subtrees. *)
Fixpoint invert (n : t) : M t :=
  let '(Node pl ps f b) := n in
  _ <- forM_ ps Polygon.flip ;;
  let pl' := option_map Plane.flip pl in
  f' <- match b with
        | Some c => c' <- invert c ;; ret (Some c')
        | None => ret None
        end ;;
  b' <- match f with
        | Some c => c' <- invert c ;; ret (Some c')
        | None => ret None
        end ;;
  ret (Node pl' ps f' b').

(** The body of the loop of [clipPolygons]: the polygon [p] is split against
    the plane, its front-going parts are appended to the front bucket, its
    back-going parts to the back bucket ([acc] is the pair of buckets). *)
Definition clip_step (pl : Plane.t) (acc : list loc * list loc) (p : loc)
    : M (list loc * list loc) :=
  r <- Plane_splitPolygon pl p ;;
  ret (fst acc ++ Buckets.coplanarFront r ++ Buckets.front r,
       snd acc ++ Buckets.coplanarBack r ++ Buckets.back r).

(** The body of the loop of [build]: the polygon [p] is split against the
    plane into the four lists [acc]. *)
Definition build_step (pl : Plane.t) (acc : Buckets.t) (p : loc) : M Buckets.t :=
  s <- Plane_splitPolygon pl p ;;
  ret (Buckets.append acc s).

(** Modelled from the spec: [clip_polygons].  Without a plane the list
    is returned unchanged.  Otherwise each polygon is split against the
    node's plane, front-going parts (coplanar same-facing included) into
    a front bucket, back-going parts (coplanar opposite-facing included)
    into a back bucket; the front bucket is clipped by the front child if
    there is one, the back bucket by the back child if there is one and
    dropped otherwise. *)
Fixpoint clipPolygons (n : t) (polys : list loc) : M (list loc) :=
  match n with
  | Node None _ _ _ => ret polys
  | Node (Some pl) _ f b =>
      '(fr, bk) <- foldM (clip_step pl) ([], []) polys ;;
      fr' <- match f with
             | Some c => clipPolygons c fr
             | None => ret fr
             end ;;
      bk' <- match b with
             | Some c => clipPolygons c bk
             | None => ret []
             end ;;
      ret (fr' ++ bk')
  end.

(** Modelled from the spec: [clip_to(other)] replaces this node's
    polygons by [other.clip_polygons] of them, then recurses into the
    front and the back child. *)
Fixpoint clipTo (n other : t) : M t :=
  let '(Node pl ps f b) := n in
  ps' <- clipPolygons other ps ;;
  f' <- match f with
        | Some c => c' <- clipTo c other ;; ret (Some c')
        | None => ret None
        end ;;
  b' <- match b with
        | Some c => c' <- clipTo c other ;; ret (Some c')
        | None => ret None
        end ;;
  ret (Node pl ps' f' b').

(** Modelled from the spec: [all_polygons] is
    [polygons ++ front.all_polygons() ++ back.all_polygons()]. *)
Fixpoint allPolygons (n : t) : list loc :=
  let '(Node _ ps f b) := n in
  ps ++ match f with Some c => allPolygons c | None => [] end
     ++ match b with Some c => allPolygons c | None => [] end.

(** Modelled from the spec: [build(polys)].  A node without a plane
    adopts the plane of [polys[0]]; every polygon is split against the
    splitting plane; the coplanar ones are appended to the node's
    polygons; a non-empty front (back) list goes to the front (back)
    child, created if absent.  With no polygon at all there is no
    [polys[0]] and nothing to insert: the node is left as it is (the spec
    has the Boolean operations total on empty solids).  The recursion is
    not structural; [fuel] bounds its depth, and running out of it is a
    failure. *)
Fixpoint build (fuel : nat) (n : t) (polys : list loc) : M t :=
  match polys with
  | [] => ret n
  | p0 :: _ =>
      match fuel with
      | O => raise
      | S fuel' =>
          let '(Node pl ps f b) := n in
          pl' <- match pl with
                 | Some q => ret q
                 | None => o <- get_polygon p0 ;; ret (plane o)
                 end ;;
          r <- foldM (build_step pl') Buckets.empty polys ;;
          let ps' := ps ++ Buckets.coplanarFront r ++ Buckets.coplanarBack r in
          f' <- match Buckets.front r with
                | [] => ret f
                | _ :: _ =>
                    c <- build fuel' (default empty f) (Buckets.front r) ;;
                    ret (Some c)
                end ;;
          b' <- match Buckets.back r with
                | [] => ret b
                | _ :: _ =>
                    c <- build fuel' (default empty b) (Buckets.back r) ;;
                    ret (Some c)
                end ;;
          ret (Node (Some pl') ps' f' b')
      end
  end.

(** Modelled from the spec: [BSPNode(polys)] is an empty node followed by
    [build(polys)] when [polys] is non-empty, else a node with no
    plane. *)
Definition new (fuel : nat) (polys : list loc) : M t :=
  match polys with
  | [] => ret empty
  | _ :: _ => build fuel empty polys
  end.

End BSPNode.

(** ** Python numbers and text used by [csg/core.py] *)

(** [float(n)] for a non-negative int (exact below 2^53). *)
Definition float_of_nat (n : nat) : float :=
  PrimFloat.of_uint63 (Uint63.of_Z (Z.of_nat n)).

(** [math.pi] *)
Definition math_pi : float := 0x1.921fb54442d18p+1%float.

(** [a / b] on floats: Python raises ZeroDivisionError on a zero divisor. *)
Definition py_div (a b : float) : M float :=
  if (b =? 0)%float then raise else ret (a / b)%float.

(** The line feed written as backslash-n in the source. *)
Definition nl : string := String (ascii_of_nat 10) EmptyString.

(** ['{}'.format(n)] for a non-negative int. *)
Definition str_of_nat (n : nat) : string := NilZero.string_of_uint (Nat.to_uint n).

(** Python 3's [map(f, l)] only builds an iterator: [f] is called when the
    iterator is consumed.  As a statement of its own, whose value is
    dropped, it calls [f] on no element. *)
Definition py3_map_dropped {A} (f : A -> M unit) (l : loc) : M unit := ret tt.

(** A key of [vertexIndexMap]: the tuple [(p[0], p[1], p[2])]. *)
Definition vkey : Type := float * float * float.

(** Equality of two such tuples as a dict tests it: [==] on each component
    (so [0.0] and [-0.0] are one key). *)
Definition vkey_eqb (a b : vkey) : bool :=
  let '(a0, a1, a2) := a in
  let '(b0, b1, b2) := b in
  (a0 =? b0)%float && (a1 =? b1)%float && (a2 =? b2)%float.

(** A dict from keys to ints, in insertion order. *)
Definition vdict : Type := list (vkey * nat).

Fixpoint vdict_get (m : vdict) (k : vkey) : option nat :=
  match m with
  | [] => None
  | (k', i) :: m' => if vkey_eqb k' k then Some i else vdict_get m' k
  end.

(** [sorted(items, key=operator.itemgetter(1))]: a stable sort on the
    second component, here by insertion. *)
Fixpoint insert_by_index (e : vkey * nat) (l : list (vkey * nat)) : list (vkey * nat) :=
  match l with
  | [] => [e]
  | e' :: l' => if snd e <? snd e' then e :: l else e' :: insert_by_index e l'
  end.

Definition sorted_by_index (l : list (vkey * nat)) : list (vkey * nat) :=
  foldl (fun acc e => insert_by_index e acc) [] l.

(** ** CSG solids: [csg/core.py] *)

Module CSG.

(** [CSG()]: [__init__] sets [self.polygons = []]. *)
Definition new : M loc :=
  l <- alloc_list [] ;;
  alloc_csg l.

(** [polygons] is a reference to a list object; it is stored as it is. *)
Definition fromPolygons (polygons : loc) : M loc :=
  csg <- new ;;
  _ <- put_csg csg polygons ;;
  ret csg.

Definition clone (self : loc) : M loc :=
  csg <- new ;;
  l <- get_csg self ;;
  ps <- get_list l ;;
  ps' <- map_M Polygon.clone ps ;;
  l' <- alloc_list ps' ;;
  _ <- put_csg csg l' ;;
  ret csg.

Definition toPolygons (self : loc) : M loc := get_csg self.

(** [disp] is an array of floats; [disp[k]] raises when it is too short. *)
Definition translate (self : loc) (disp : list float) : M unit :=
  d0 <- lift_option (disp !! 0) ;;
  d1 <- lift_option (disp !! 1) ;;
  d2 <- lift_option (disp !! 2) ;;
  let d := Vector.mk d0 d1 d2 in
  l <- get_csg self ;;
  ps <- get_list l ;;
  forM_ ps (fun poly =>
    o <- get_polygon poly ;;
    forM_ (vertices o) (fun v =>
      ov <- get_vertex v ;;
      put_vertex v (Vertex_obj (Vector.plus (pos ov) d) (normal ov)))).

(** The body of the inner loop of [toVerticesAndPolygons]; the local
    variables are [cell], [vertexIndexMap] and [count].  The lookup that
    follows an insertion finds the entry just made. *)
Definition index_vertex (st : list nat * vdict * nat) (v : loc)
    : M (list nat * vdict * nat) :=
  let '(cell, vertexIndexMap, count) := st in
  ov <- get_vertex v ;;
  let p := pos ov in
  let vKey := (Vector.x p, Vector.y p, Vector.z p) in
  let '(vertexIndexMap, index) :=
    match vdict_get vertexIndexMap vKey with
    | None => (vertexIndexMap ++ [(vKey, length vertexIndexMap)], length vertexIndexMap)
    | Some i => (vertexIndexMap, i)
    end in
  ret (cell ++ [index], vertexIndexMap, count + 1).

(** The body of the outer loop; the local variables are [polys],
    [vertexIndexMap] and [count]. *)
Definition index_polygon (st : list (list nat) * vdict * nat) (poly : loc)
    : M (list (list nat) * vdict * nat) :=
  let '(polys, vertexIndexMap, count) := st in
  o <- get_polygon poly ;;
  '(cell, vertexIndexMap, count) <-
     foldM index_vertex ([], vertexIndexMap, count) (vertices o) ;;
  ret (polys ++ [cell], vertexIndexMap, count).

Definition toVerticesAndPolygons (self : loc)
    : M (list vkey * list (list nat) * nat) :=
  l <- get_csg self ;;
  ps <- get_list l ;;
  '(polys, vertexIndexMap, count) <- foldM index_polygon ([], [], 0) ps ;;
  let sortedVertexIndex := sorted_by_index vertexIndexMap in
  let verts := map fst sortedVertexIndex in
  ret (verts, polys, count).

Section SaveVTK.

(** ['{}'.format(x)] for a float [x]: its shortest round-trip decimal
    text, left abstract. *)
Variable float_str : float -> string.

(** [saveVTK(filename)]: the text written to the file, which is opened
    for writing (truncated) and closed at the end; [f] is what has been
    written so far. *)
Definition saveVTK (self : loc) : M string :=
  let f := EmptyString in
  let f := (f ++ "# vtk DataFile Version 3.0" ++ nl)%string in
  let f := (f ++ "pycsg output" ++ nl)%string in
  let f := (f ++ "ASCII" ++ nl)%string in
  let f := (f ++ "DATASET POLYDATA" ++ nl)%string in
  '(verts, cells, count) <- toVerticesAndPolygons self ;;
  let f := (f ++ "POINTS " ++ str_of_nat (length verts) ++ " float" ++ nl)%string in
  let f := foldl (fun f (v : vkey) =>
             let '(v0, v1, v2) := v in
             (f ++ float_str v0 ++ " " ++ float_str v1 ++ " " ++ float_str v2 ++ nl)%string)
           f verts in
  let numCells := length cells in
  let f := (f ++ "POLYGONS " ++ str_of_nat numCells ++ " "
              ++ str_of_nat (count + numCells) ++ nl)%string in
  let f := foldl (fun f (cell : list nat) =>
             let f := (f ++ str_of_nat (length cell) ++ " " ++ nl)%string in
             foldl (fun f index => (f ++ str_of_nat index ++ " " ++ nl)%string) f cell)
           f cells in
  ret f.

End SaveVTK.

(** [fuel] bounds the recursion depth of [BSPNode.build]. *)
Definition union (fuel : nat) (self csg : loc) : M loc :=
  c1 <- clone self ;;
  l1 <- get_csg c1 ;;
  p1 <- get_list l1 ;;
  a <- BSPNode.new fuel p1 ;;
  c2 <- clone csg ;;
  l2 <- get_csg c2 ;;
  p2 <- get_list l2 ;;
  b <- BSPNode.new fuel p2 ;;
  a <- BSPNode.clipTo a b ;;
  b <- BSPNode.clipTo b a ;;
  b <- BSPNode.invert b ;;
  b <- BSPNode.clipTo b a ;;
  b <- BSPNode.invert b ;;
  a <- BSPNode.build fuel a (BSPNode.allPolygons b) ;;
  l <- alloc_list (BSPNode.allPolygons a) ;;
  fromPolygons l.

Definition subtract (fuel : nat) (self csg : loc) : M loc :=
  c1 <- clone self ;;
  l1 <- get_csg c1 ;;
  p1 <- get_list l1 ;;
  a <- BSPNode.new fuel p1 ;;
  c2 <- clone csg ;;
  l2 <- get_csg c2 ;;
  p2 <- get_list l2 ;;
  b <- BSPNode.new fuel p2 ;;
  a <- BSPNode.invert a ;;
  a <- BSPNode.clipTo a b ;;
  b <- BSPNode.clipTo b a ;;
  b <- BSPNode.invert b ;;
  b <- BSPNode.clipTo b a ;;
  b <- BSPNode.invert b ;;
  a <- BSPNode.build fuel a (BSPNode.allPolygons b) ;;
  a <- BSPNode.invert a ;;
  l <- alloc_list (BSPNode.allPolygons a) ;;
  fromPolygons l.

Definition intersect (fuel : nat) (self csg : loc) : M loc :=
  c1 <- clone self ;;
  l1 <- get_csg c1 ;;
  p1 <- get_list l1 ;;
  a <- BSPNode.new fuel p1 ;;
  c2 <- clone csg ;;
  l2 <- get_csg c2 ;;
  p2 <- get_list l2 ;;
  b <- BSPNode.new fuel p2 ;;
  a <- BSPNode.invert a ;;
  b <- BSPNode.clipTo b a ;;
  b <- BSPNode.invert b ;;
  a <- BSPNode.clipTo a b ;;
  b <- BSPNode.clipTo b a ;;
  a <- BSPNode.build fuel a (BSPNode.allPolygons b) ;;
  a <- BSPNode.invert a ;;
  l <- alloc_list (BSPNode.allPolygons a) ;;
  fromPolygons l.

(** [map(lambda p: p.flip(), csg.polygons)] is a statement of its own. *)
Definition inverse (self : loc) : M loc :=
  csg <- clone self ;;
  l <- get_csg csg ;;
  _ <- py3_map_dropped Polygon.flip l ;;
  ret csg.

(** *** [CSG.sphere] and its keyword arguments *)

(** A keyword argument given as a float or as a list of floats. *)
Inductive float_or_list : Type :=
| AFloat (f : float)
| AList (l : list float).

(** The keyword arguments of [sphere]; [None] for one that is not given. *)
Record sphere_kwargs : Type := SphereKwargs {
  kw_center : option float_or_list;
  kw_radius : option float_or_list;
  kw_slices : option nat;
  kw_stacks : option nat
}.

(** Modelled from the spec: [geom.Vector(l)] for a list [l = [x, y, z]]. *)
Definition Vector_of_list (l : list float) : M Vector.t :=
  a <- lift_option (l !! 0) ;;
  b <- lift_option (l !! 1) ;;
  c <- lift_option (l !! 2) ;;
  ret (Vector.mk a b c).

Section Sphere.

(** [math.cos] and [math.sin], left abstract. *)
Variables math_cos math_sin : float -> float.

Definition appendVertex (center : list float) (c : Vector.t) (r : float)
    (vertices : list loc) (theta phi : float) : M (list loc) :=
  c0 <- lift_option (center !! 0) ;;
  c1 <- lift_option (center !! 1) ;;
  c2 <- lift_option (center !! 2) ;;
  let d := Vector.mk (c0 + r * math_cos theta * math_sin phi)%float
                     (c1 + r * math_cos phi)%float
                     (c2 + r * math_sin theta * math_sin phi)%float in
  v <- Vertex.new (Vector.plus c (Vector.times d r)) d ;;
  ret (vertices ++ [v]).

(** The body of the two nested loops: the polygon for slice [i] and
    stack [j], appended to [polygons]. *)
Definition sphere_body (center : list float) (c : Vector.t) (r : float)
    (slices stacks : nat) (dTheta dPhi : float)
    (polygons : list loc) (i j : nat) : M (list loc) :=
  vertices <- appendVertex center c r []
                (float_of_nat i * dTheta)%float (float_of_nat j * dPhi)%float ;;
  let i1 := (i + 1) mod slices in
  let j1 := j + 1 in
  vertices <- (if 0 <? j
               then appendVertex center c r vertices
                      (float_of_nat i1 * dTheta)%float (float_of_nat j * dPhi)%float
               else ret vertices) ;;
  vertices <- (if j <? stacks - 1
               then appendVertex center c r vertices
                      (float_of_nat i1 * dTheta)%float (float_of_nat j1 * dPhi)%float
               else ret vertices) ;;
  vertices <- appendVertex center c r vertices
                (float_of_nat i * dTheta)%float (float_of_nat j1 * dPhi)%float ;;
  p <- Polygon.new vertices ;;
  ret (polygons ++ [p]).

(** A radius given as a list of at most two floats is multiplied by a
    float in [appendVertex], which raises; every call that gets past the
    two divisions reaches [appendVertex]. *)
Definition sphere (kwargs : sphere_kwargs) : M loc :=
  let center := match kw_center kwargs with
                | None => [0; 0; 0]%float
                | Some (AFloat f) => [f; f; f]
                | Some (AList l) => l
                end in
  c <- Vector_of_list center ;;
  r <- match kw_radius kwargs with
       | None => ret 1%float
       | Some (AFloat f) => ret f
       | Some (AList l) => if 2 <? length l then lift_option (l !! 0) else raise
       end ;;
  let slices := default 16 (kw_slices kwargs) in
  let stacks := default 8 (kw_stacks kwargs) in
  dTheta <- py_div (math_pi * 2)%float (float_of_nat slices) ;;
  dPhi <- py_div math_pi (float_of_nat stacks) ;;
  polygons <-
    foldM (fun polygons i =>
             foldM (fun polygons j =>
                      sphere_body center c r slices stacks dTheta dPhi polygons i j)
                   polygons (seq 0 stacks))
          [] (seq 0 slices) ;;
  l <- alloc_list polygons ;;
  fromPolygons l.

End Sphere.

(** *** [rotate] *)

Section Rotate.

Variables math_cos math_sin : float -> float.

(** The local function [newVector] of [rotate]; [ax], [cosAngle] and
    [sinAngle] are variables of the enclosing call.  [vPerpLen > 0] is
    false for a length that is not a number. *)
Definition newVector (ax : Vector.t) (cosAngle sinAngle : float) (v : Vector.t)
    : Vector.t :=
  let vA := Vector.dot v ax in
  let vPerp := Vector.minus v (Vector.times ax vA) in
  let vPerpLen := Vector.length vPerp in
  if (0 <? vPerpLen)%float then
    let u1 := Vector.unit vPerp in
    let u2 := Vector.cross u1 ax in
    let vCosA := (vPerpLen * cosAngle)%float in
    let vSinA := (vPerpLen * sinAngle)%float in
    Vector.plus (Vector.times ax vA)
                (Vector.plus (Vector.times u1 vCosA) (Vector.times u2 vSinA))
  else v.

(** [axis] is an array of floats, [angleDeg] a float.  The position of a
    vertex is assigned first; its normal is then read and, when its length
    is positive, assigned. *)
Definition rotate (self : loc) (axis : list float) (angleDeg : float) : M unit :=
  a0 <- lift_option (axis !! 0) ;;
  a1 <- lift_option (axis !! 1) ;;
  a2 <- lift_option (axis !! 2) ;;
  let ax := Vector.unit (Vector.mk a0 a1 a2) in
  let cosAngle := math_cos (math_pi * angleDeg / 180)%float in
  let sinAngle := math_sin (math_pi * angleDeg / 180)%float in
  l <- get_csg self ;;
  ps <- get_list l ;;
  forM_ ps (fun poly =>
    o <- get_polygon poly ;;
    forM_ (vertices o) (fun vert =>
      ov <- get_vertex vert ;;
      _ <- put_vertex vert
             (Vertex_obj (newVector ax cosAngle sinAngle (pos ov)) (normal ov)) ;;
      ov <- get_vertex vert ;;
      let normal := normal ov in
      if (0 <? Vector.length normal)%float
      then put_vertex vert
             (Vertex_obj (pos ov) (newVector ax cosAngle sinAngle normal))
      else ret tt)).

End Rotate.

(** *** [cube] *)

(** The table [vertex_data] of [cube]: for each face the indices of its
    four corners and the face normal (which [cube] does not read). *)
Definition vertex_data : list (list nat * list Z) :=
  [([0; 4; 6; 2], [-1; 0; 0]%Z);
   ([1; 3; 7; 5], [1; 0; 0]%Z);
   ([0; 1; 5; 4], [0; -1; 0]%Z);
   ([2; 6; 7; 3], [0; 1; 0]%Z);
   ([0; 2; 3; 1], [0; 0; -1]%Z);
   ([4; 5; 7; 6], [0; 0; 1]%Z)].

(** [2 * bool(i & m) - 1]: an int, 1 or -1, which the product with a
    float converts exactly. *)
Definition corner_sign (i m : nat) : float :=
  if Nat.land i m =? 0 then (-1)%float else 1%float.

(** The corner [i] of the box with centre [c] and radii [r0 r1 r2]. *)
Definition cube_corner (c : Vector.t) (r0 r1 r2 : float) (i : nat) : Vector.t :=
  Vector.mk (Vector.x c + r0 * corner_sign i 1)%float
            (Vector.y c + r1 * corner_sign i 2)%float
            (Vector.z c + r2 * corner_sign i 4)%float.

(** [cube(center, radius)]; [None] for an argument that is not given.  The
    defaults [[0, 0, 0]] and [[1, 1, 1]] hold ints, taken here as the
    floats of the same value.  A [center] that is not a list is not used.
    Modelled from the spec: a vertex built with the normal [None] has the
    zero vector as its normal.  The list held by the new solid is the copy
    [list(polygons)]. *)
Definition cube (center radius : option float_or_list) : M loc :=
  c <- match default (AList [0; 0; 0]%float) center with
       | AList l => Vector_of_list l
       | AFloat _ => ret (Vector.mk 0 0 0)
       end ;;
  let r := match default (AList [1; 1; 1]%float) radius with
           | AList l => l
           | AFloat f => [f; f; f]
           end in
  polygons <-
    foldM (fun polygons (v : list nat * list Z) =>
             vertices <-
               foldM (fun vertices i =>
                        r0 <- lift_option (r !! 0) ;;
                        r1 <- lift_option (r !! 1) ;;
                        r2 <- lift_option (r !! 2) ;;
                        let vector := cube_corner c r0 r1 r2 i in
                        vertex <- Vertex.new vector (Vector.mk 0 0 0) ;;
                        ret (vertices ++ [vertex]))
                     [] (fst v) ;;
             polygon <- Polygon.new vertices ;;
             ret (polygons ++ [polygon]))
          [] vertex_data ;;
  l <- alloc_list polygons ;;
  fromPolygons l.

(** *** [cylinder] and [cone] *)

(** A keyword argument given as a Vector or as a list of floats. *)
Inductive vector_or_list : Type :=
| AVector (v : Vector.t)
| AVlist (l : list float).

(** The keyword arguments of [cylinder] and of [cone]; [None] for one that
    is not given. *)
Record cylinder_kwargs : Type := CylinderKwargs {
  kw_start : option vector_or_list;
  kw_end : option vector_or_list;
  kw_cradius : option float;
  kw_cslices : option nat
}.

(** Modelled from the spec: [geom.Vector] applied to the unpacked list [l]
    of three floats is the vector of these components; a vector has three
    components, and a list of another length is taken as an error. *)
Definition Vector_of_args (l : list float) : M Vector.t :=
  match l with
  | [a; b; c] => ret (Vector.mk a b c)
  | _ => raise
  end.

(** [float(b)] for a bool. *)
Definition float_of_bool (b : bool) : float := if b then 1%float else 0%float.

(** The [start] or [end] argument, by default the vector [dflt]. *)
Definition vector_arg (a : option vector_or_list) (dflt : Vector.t) : M Vector.t :=
  match a with
  | None => ret dflt
  | Some (AVector v) => ret v
  | Some (AVlist l) => Vector_of_args l
  end.

Section Cylinder.

Variables math_cos math_sin : float -> float.

(** The local function [point] of [cylinder]. *)
Definition cylinder_point (s ray axisX axisY axisZ : Vector.t) (r : float)
    (stack angle normalBlend : float) : M loc :=
  let out := Vector.plus (Vector.times axisX (math_cos angle))
                         (Vector.times axisY (math_sin angle)) in
  let pos := Vector.plus (Vector.plus s (Vector.times ray stack)) (Vector.times out r) in
  let normal := Vector.plus (Vector.times out (1 - PrimFloat.abs normalBlend)%float)
                            (Vector.times axisZ normalBlend) in
  Vertex.new pos normal.

(** The body of the loop of [cylinder]: three polygons for the slice [i],
    appended to [polygons]. *)
Definition cylinder_body (s ray axisX axisY axisZ : Vector.t) (r : float)
    (start end_ : loc) (slices : nat) (dt : float)
    (polygons : list loc) (i : nat) : M (list loc) :=
  let point := cylinder_point s ray axisX axisY axisZ r in
  let t0 := (float_of_nat i * dt)%float in
  let i1 := (i + 1) mod slices in
  let t1 := (float_of_nat i1 * dt)%float in
  v0 <- Vertex.clone start ;;
  v1 <- point 0%float t0 (-1)%float ;;
  v2 <- point 0%float t1 (-1)%float ;;
  p <- Polygon.new [v0; v1; v2] ;;
  let polygons := polygons ++ [p] in
  v0 <- point 0%float t1 0%float ;;
  v1 <- point 0%float t0 0%float ;;
  v2 <- point 1%float t0 0%float ;;
  v3 <- point 1%float t1 0%float ;;
  p <- Polygon.new [v0; v1; v2; v3] ;;
  let polygons := polygons ++ [p] in
  v0 <- Vertex.clone end_ ;;
  v1 <- point 1%float t1 1%float ;;
  v2 <- point 1%float t0 1%float ;;
  p <- Polygon.new [v0; v1; v2] ;;
  ret (polygons ++ [p]).

Definition cylinder (kwargs : cylinder_kwargs) : M loc :=
  s <- vector_arg (kw_start kwargs) (Vector.mk 0 (-1) 0) ;;
  e <- vector_arg (kw_end kwargs) (Vector.mk 0 1 0) ;;
  let r := default 1%float (kw_cradius kwargs) in
  let slices := default 16 (kw_cslices kwargs) in
  let ray := Vector.minus e s in
  let axisZ := Vector.unit ray in
  let isY := (0.5 <? PrimFloat.abs (Vector.y axisZ))%float in
  let axisX := Vector.unit (Vector.cross
                 (Vector.mk (float_of_bool isY) (float_of_bool (negb isY)) 0) axisZ) in
  let axisY := Vector.unit (Vector.cross axisX axisZ) in
  start <- Vertex.new s (Vector.negated axisZ) ;;
  end_ <- Vertex.new e (Vector.unit axisZ) ;;
  dt <- py_div (math_pi * 2)%float (float_of_nat slices) ;;
  polygons <- foldM (cylinder_body s ray axisX axisY axisZ r start end_ slices dt)
                    [] (seq 0 slices) ;;
  l <- alloc_list polygons ;;
  fromPolygons l.

(** [math.atan2], left abstract. *)
Variable math_atan2 : float -> float -> float.

(** The local function [point] of [cone]: a position and a normal. *)
Definition cone_point (s axisX axisY axisZ : Vector.t) (r : float)
    (sinTaperAngle cosTaperAngle : float) (angle : float) : Vector.t * Vector.t :=
  let out := Vector.plus (Vector.times axisX (math_cos angle))
                         (Vector.times axisY (math_sin angle)) in
  let pos := Vector.plus s (Vector.times out r) in
  let normal := Vector.plus (Vector.times out cosTaperAngle)
                            (Vector.times axisZ sinTaperAngle) in
  (pos, normal).

(** The body of the loop of [cone]: two polygons for the slice [i]. *)
Definition cone_body (s e axisX axisY axisZ startNormal : Vector.t) (r : float)
    (sinTaperAngle cosTaperAngle : float)
    (start : loc) (slices : nat) (dt : float)
    (polygons : list loc) (i : nat) : M (list loc) :=
  let point := cone_point s axisX axisY axisZ r sinTaperAngle cosTaperAngle in
  let t0 := (float_of_nat i * dt)%float in
  let i1 := (i + 1) mod slices in
  let t1 := (float_of_nat i1 * dt)%float in
  let '(p0, n0) := point t0 in
  let '(p1, n1) := point t1 in
  let nAvg := Vector.times (Vector.plus n0 n1) 0.5%float in
  v0 <- Vertex.clone start ;;
  v1 <- Vertex.new p0 startNormal ;;
  v2 <- Vertex.new p1 startNormal ;;
  polyStart <- Polygon.new [v0; v1; v2] ;;
  let polygons := polygons ++ [polyStart] in
  v0 <- Vertex.new p0 n0 ;;
  v1 <- Vertex.new e nAvg ;;
  v2 <- Vertex.new p1 n1 ;;
  polySide <- Polygon.new [v0; v1; v2] ;;
  ret (polygons ++ [polySide]).

Definition cone (kwargs : cylinder_kwargs) : M loc :=
  s <- vector_arg (kw_start kwargs) (Vector.mk 0 (-1) 0) ;;
  e <- vector_arg (kw_end kwargs) (Vector.mk 0 1 0) ;;
  let r := default 1%float (kw_cradius kwargs) in
  let slices := default 16 (kw_cslices kwargs) in
  let ray := Vector.minus e s in
  let axisZ := Vector.unit ray in
  let isY := (0.5 <? PrimFloat.abs (Vector.y axisZ))%float in
  let axisX := Vector.unit (Vector.cross
                 (Vector.mk (float_of_bool isY) (float_of_bool (negb isY)) 0) axisZ) in
  let axisY := Vector.unit (Vector.cross axisX axisZ) in
  let startNormal := Vector.negated axisZ in
  start <- Vertex.new s startNormal ;;
  let taperAngle := math_atan2 r (Vector.length ray) in
  let sinTaperAngle := math_sin taperAngle in
  let cosTaperAngle := math_cos taperAngle in
  dt <- py_div (math_pi * 2)%float (float_of_nat slices) ;;
  polygons <- foldM (cone_body s e axisX axisY axisZ startNormal r
                       sinTaperAngle cosTaperAngle start slices dt)
                    [] (seq 0 slices) ;;
  l <- alloc_list polygons ;;
  fromPolygons l.

End Cylinder.

End CSG.

(** * Specification-side definitions *)

(** ** What a reference denotes in a store *)

(** The value of a polygon: its vertices (position and normal of each, in
    order) and its plane. *)
Record polygon_value : Type := PolygonValue {
  pv_vertices : list vertex;
  pv_plane : Plane.t
}.

Definition polygon_value_at (h : heap) (p : loc) : option polygon_value :=
  o ← polygon_objs h !! p;
  vs ← mapM (λ v, vertex_objs h !! v) (vertices o);
  Some (PolygonValue vs (plane o)).

(** The value of a list of polygons. *)
Definition list_value_at (h : heap) (l : loc) : option (list polygon_value) :=
  ps ← list_objs h !! l;
  mapM (polygon_value_at h) ps.

(** The value of a solid: of its polygon list. *)
Definition solid_value (h : heap) (c : loc) : option (list polygon_value) :=
  l ← csg_objs h !! c;
  list_value_at h l.

(** A flipped vertex, and a flipped polygon: the vertex order reversed, each
    vertex and the plane flipped. *)
Definition flip_vertex_value (v : vertex) : vertex :=
  Vertex_obj (pos v) (Vector.negated (normal v)).

Definition flip_polygon_value (p : polygon_value) : polygon_value :=
  PolygonValue (rev (flip_vertex_value <$> pv_vertices p)) (Plane.flip (pv_plane p)).

(** Every object of [h] is an object of [h'], unchanged. *)
Definition heap_prefix (h h' : heap) : Prop :=
  vertex_objs h `prefix_of` vertex_objs h' ∧
  polygon_objs h `prefix_of` polygon_objs h' ∧
  list_objs h `prefix_of` list_objs h' ∧
  csg_objs h `prefix_of` csg_objs h'.

(** Well-formed [center] and [radius] arguments: a float, or a list long
    enough for the indexing the source does. *)
Definition sphere_args_ok (kw : CSG.sphere_kwargs) : Prop :=
  match CSG.kw_center kw with
  | Some (CSG.AList l) => 3 ≤ length l
  | _ => True
  end ∧
  match CSG.kw_radius kw with
  | Some (CSG.AList l) => 3 ≤ length l
  | _ => True
  end.

(** ** What [toVerticesAndPolygons] is to return *)

(** The key of a vertex: the triple of its position. *)
Definition vertex_key (v : vertex) : vkey :=
  (Vector.x (pos v), Vector.y (pos v), Vector.z (pos v)).

Definition polygon_keys (pv : polygon_value) : list vkey :=
  vertex_key <$> pv_vertices pv.

(** The distinct keys of a sequence, in first-seen order: a key is kept when
    it equals none of those kept before it. *)
Definition seen_step (seen : list vkey) (k : vkey) : list vkey :=
  if existsb (λ k', vkey_eqb k' k) seen then seen else seen ++ [k].

Definition first_seen (ks : list vkey) : list vkey := foldl seen_step [] ks.

(** [i] is the index in [verts] of the key [k]: the first position that
    holds a key equal to [k]. *)
Definition first_index_of (verts : list vkey) (k : vkey) (i : nat) : Prop :=
  (∃ k', verts !! i = Some k' ∧ vkey_eqb k' k = true)
  ∧ ∀ j k', j < i → verts !! j = Some k' → vkey_eqb k' k = false.

(** A key none of whose components is a not-a-number (which differs from
    itself). *)
Definition key_is_number (k : vkey) : Prop := vkey_eqb k k = true.

(** The dict that maps the [i]-th of [keys] to [i], in insertion order. *)
Definition dict_of (keys : list vkey) : vdict := zip keys (seq 0 (length keys)).

(** ** The text of a VTK file *)

Fixpoint str_concat (l : list string) : string :=
  match l with
  | [] => EmptyString
  | s :: l' => (s ++ str_concat l')%string
  end.

Section VTKText.

Variable float_str : float -> string.

(** The line ['x y z'] of a point. *)
Definition point_line (v : vkey) : string :=
  let '(v0, v1, v2) := v in
  (float_str v0 ++ " " ++ float_str v1 ++ " " ++ float_str v2 ++ nl)%string.

(** The record of a cell as the source writes it: the count, then each
    index, each followed by a space and a line feed. *)
Definition cell_record (cell : list nat) : string :=
  (str_of_nat (length cell) ++ " " ++ nl
   ++ str_concat ((fun i => str_of_nat i ++ " " ++ nl) <$> cell))%string.

(** The record of a cell as the claim words it: the count and a line feed,
    then for each index a space, the index and a line feed. *)
Definition claimed_cell_record (cell : list nat) : string :=
  (str_of_nat (length cell) ++ nl
   ++ str_concat ((fun i => " " ++ str_of_nat i ++ nl) <$> cell))%string.

(** The whole file, given the title line and how a cell is written. *)
Definition vtk_file (title : string) (record : list nat -> string)
    (verts : list vkey) (cells : list (list nat)) (count : nat) : string :=
  ("# vtk DataFile Version 3.0" ++ nl
   ++ title ++ nl
   ++ "ASCII" ++ nl
   ++ "DATASET POLYDATA" ++ nl
   ++ "POINTS " ++ str_of_nat (length verts) ++ " float" ++ nl
   ++ str_concat (point_line <$> verts)
   ++ "POLYGONS " ++ str_of_nat (length cells) ++ " "
   ++ str_of_nat (count + length cells) ++ nl
   ++ str_concat (record <$> cells))%string.

(** What the source writes. *)
Definition vtk_text (verts : list vkey) (cells : list (list nat)) (count : nat) : string :=
  vtk_file "pycsg output" cell_record verts cells count.

(** What the claim says is written, for some title line. *)
Definition claimed_vtk_text (title : string)
    (verts : list vkey) (cells : list (list nat)) (count : nat) : string :=
  vtk_file title claimed_cell_record verts cells count.

End VTKText.

(** The last two characters of a text. *)
Fixpoint last2 (s : string) : option (ascii * ascii) :=
  match s with
  | String a (String b EmptyString) => Some (a, b)
  | String _ s' => last2 s'
  | EmptyString => None
  end.

(** ** What [translate] is to do *)

(** A vertex moved by [d]: the position plus [d], the normal as it was. *)
Definition moved (d : Vector.t) (v : vertex) : vertex :=
  Vertex_obj (Vector.plus (pos v) d) (normal v).

(** A polygon whose vertices are moved by [d], the plane as it was. *)
Definition moved_polygon (d : Vector.t) (pv : polygon_value) : polygon_value :=
  PolygonValue (moved d <$> pv_vertices pv) (pv_plane pv).

(** The references to Vertex objects held by the polygons of a solid, one
    entry per occurrence. *)
Definition solid_vertex_refs (h : heap) (c : loc) : option (list loc) :=
  l ← csg_objs h !! c;
  ps ← list_objs h !! l;
  os ← mapM (λ p, polygon_objs h !! p) ps;
  Some (concat (vertices <$> os)).

(** A point satisfies a plane equation: it lies on the plane within the
    tolerance, [|n . p - w| < EPS]; and exactly, [n . p = w]. *)
Definition satisfies_plane (pl : Plane.t) (p : Vector.t) : bool :=
  (PrimFloat.abs (Vector.dot (Plane.normal pl) p - Plane.w pl) <? Plane.EPSILON)%float.

Definition satisfies_plane_exactly (pl : Plane.t) (p : Vector.t) : bool :=
  (Vector.dot (Plane.normal pl) p =? Plane.w pl)%float.

(** A displacement is parallel to a plane when it has no component along
    the normal. *)
Definition parallel_to_plane (pl : Plane.t) (d : Vector.t) : bool :=
  (Vector.dot (Plane.normal pl) d =? 0)%float.

(** ** The Boolean operations as the specification writes them

    A Boolean operation clones both operands, builds the tree [a] from the
    clone of the first and the tree [b] from the clone of the second, runs
    a sequence of tree operations on [a] and [b], and returns a new solid
    from [a.allPolygons()]. *)

Inductive tree_name : Type := TreeA | TreeB.

Inductive tree_op : Type :=
| ClipTo (x y : tree_name)      (* x.clipTo(y) *)
| Invert (x : tree_name)        (* x.invert() *)
| BuildFrom (x y : tree_name).  (* x.build(y.allPolygons()) *)

Definition get_tree (x : tree_name) (ab : BSPNode.t * BSPNode.t) : BSPNode.t :=
  match x with TreeA => fst ab | TreeB => snd ab end.

Definition set_tree (x : tree_name) (t : BSPNode.t) (ab : BSPNode.t * BSPNode.t)
    : BSPNode.t * BSPNode.t :=
  match x with TreeA => (t, snd ab) | TreeB => (fst ab, t) end.

Definition run_tree_op (fuel : nat) (ab : BSPNode.t * BSPNode.t) (op : tree_op)
    : M (BSPNode.t * BSPNode.t) :=
  match op with
  | ClipTo x y =>
      t <- BSPNode.clipTo (get_tree x ab) (get_tree y ab) ;; ret (set_tree x t ab)
  | Invert x =>
      t <- BSPNode.invert (get_tree x ab) ;; ret (set_tree x t ab)
  | BuildFrom x y =>
      t <- BSPNode.build fuel (get_tree x ab) (BSPNode.allPolygons (get_tree y ab)) ;;
      ret (set_tree x t ab)
  end.

Definition boolean_operation (fuel : nat) (ops : list tree_op) (A B : loc) : M loc :=
  cA <- CSG.clone A ;;
  lA <- get_csg cA ;;
  pA <- get_list lA ;;
  a <- BSPNode.new fuel pA ;;
  cB <- CSG.clone B ;;
  lB <- get_csg cB ;;
  pB <- get_list lB ;;
  b <- BSPNode.new fuel pB ;;
  ab <- foldM (run_tree_op fuel) (a, b) ops ;;
  l <- alloc_list (BSPNode.allPolygons (fst ab)) ;;
  CSG.fromPolygons l.

(** The sequences of section 4.4 of the specification. *)
Definition union_sequence : list tree_op :=
  [ClipTo TreeA TreeB; ClipTo TreeB TreeA;
   Invert TreeB; ClipTo TreeB TreeA; Invert TreeB;
   BuildFrom TreeA TreeB].

Definition subtract_sequence : list tree_op :=
  [Invert TreeA;
   ClipTo TreeA TreeB; ClipTo TreeB TreeA;
   Invert TreeB; ClipTo TreeB TreeA; Invert TreeB;
   BuildFrom TreeA TreeB;
   Invert TreeA].

Definition intersect_sequence : list tree_op :=
  [Invert TreeA;
   ClipTo TreeB TreeA;
   Invert TreeB;
   ClipTo TreeA TreeB; ClipTo TreeB TreeA;
   BuildFrom TreeA TreeB;
   Invert TreeA].

(** ** The footprint of a Boolean operation

    [h0] is the store in which the operation starts, [h] a store during the
    operation.  A vertex or polygon is fresh when it was created since the
    start. *)

Definition fresh_vertex (h0 h : heap) (v : loc) : Prop :=
  length (vertex_objs h0) ≤ v < length (vertex_objs h).

Definition fresh_polygon (h0 h : heap) (p : loc) : Prop :=
  length (polygon_objs h0) ≤ p < length (polygon_objs h).

(** The invariant: no object of [h0] has been written to, and the fresh
    polygons hold fresh vertices only. *)
Definition op_inv (h0 h : heap) : Prop :=
  heap_prefix h0 h ∧
  ∀ p o, length (polygon_objs h0) ≤ p → polygon_objs h !! p = Some o →
         Forall (fresh_vertex h0 h) (vertices o).

(** No vertex or polygon disappears. *)
Definition grows (h h' : heap) : Prop :=
  length (vertex_objs h) ≤ length (vertex_objs h') ∧
  length (polygon_objs h) ≤ length (polygon_objs h').

(** The polygons of a tree are fresh. *)
Definition fresh_tree (h0 h : heap) (t : BSPNode.t) : Prop :=
  Forall (fresh_polygon h0 h) (BSPNode.allPolygons t).

(** The polygons of a child, if any. *)
Definition child_polygons (c : option BSPNode.t) : list loc :=
  match c with Some t => BSPNode.allPolygons t | None => [] end.

(** The four output lists hold fresh polygons. *)
Definition fresh_buckets (h0 h : heap) (r : Buckets.t) : Prop :=
  Forall (fresh_polygon h0 h) (Buckets.coplanarFront r)
  ∧ Forall (fresh_polygon h0 h) (Buckets.coplanarBack r)
  ∧ Forall (fresh_polygon h0 h) (Buckets.front r)
  ∧ Forall (fresh_polygon h0 h) (Buckets.back r).

(** ** What [Polygon.flip] and [BSPNode.invert] do to the store *)

Definition flip_polygon_obj (o : polygon) : polygon :=
  Polygon_obj (rev (vertices o)) (Plane.flip (plane o)).

(** The store after [p.flip()]. *)
Definition flip_store (h : heap) (p : loc) : heap :=
  match polygon_objs h !! p with
  | Some o =>
      Heap (foldl (λ V v, alter flip_vertex_value v V) (vertex_objs h) (rev (vertices o)))
           (alter flip_polygon_obj p (polygon_objs h))
           (list_objs h) (csg_objs h)
  | None => h
  end.

(** The tree after [invert], and the polygons in the order [invert] flips
    them. *)
Fixpoint inverted (t : BSPNode.t) : BSPNode.t :=
  let '(BSPNode.Node pl ps f b) := t in
  BSPNode.Node (Plane.flip <$> pl) ps
    (match b with Some c => Some (inverted c) | None => None end)
    (match f with Some c => Some (inverted c) | None => None end).

Fixpoint invert_order (t : BSPNode.t) : list loc :=
  let '(BSPNode.Node pl ps f b) := t in
  ps ++ match b with Some c => invert_order c | None => [] end
     ++ match f with Some c => invert_order c | None => [] end.

(** A polygon object whose vertices exist. *)
Definition valid_polygon (h : heap) (p : loc) : Prop :=
  ∃ o, polygon_objs h !! p = Some o
       ∧ Forall (λ v, v < length (vertex_objs h)) (vertices o).

(** The first steps of a Boolean operation on its first operand: the tree
    built from a clone of the solid. *)
Definition tree_of_clone (fuel : nat) (A : loc) : M BSPNode.t :=
  c <- CSG.clone A ;;
  l <- get_csg c ;;
  p <- get_list l ;;
  BSPNode.new fuel p.

(** The operations of a sequence that leave both trees as they are when
    the tree [b] is empty. *)
Definition keeps_empty (op : tree_op) : Prop :=
  match op with
  | ClipTo TreeA TreeB | ClipTo TreeB _ | Invert TreeB | BuildFrom _ TreeB => True
  | _ => False
  end.

(** ** Solids updated vertex by vertex: [translate], [rotate] *)

(** A polygon each of whose vertices is replaced by its image under [f],
    the plane as it was. *)
Definition map_vertices (f : vertex → vertex) (pv : polygon_value) : polygon_value :=
  PolygonValue (f <$> pv_vertices pv) (pv_plane pv).

(** The two nested loops of [translate] and of [rotate], with the body
    [body] run on each vertex of each polygon. *)
Definition for_each_vertex (self : loc) (body : loc → M unit) : M unit :=
  l <- get_csg self ;;
  ps <- get_list l ;;
  forM_ ps (λ poly, o <- get_polygon poly ;; forM_ (vertices o) body).

(** The store with [f] applied to the Vertex objects [refs], once per
    entry of [refs]. *)
Definition update_vertices (f : vertex → vertex) (refs : list loc) (h : heap) : heap :=
  set_vertex_objs h (foldl (λ V v, alter f v V) (vertex_objs h) refs).






(** The keys of a list are pairwise different (under [==]). *)
Definition pairwise_different (verts : list vkey) : Prop :=
  ∀ i j ki kj, i < j → verts !! i = Some ki → verts !! j = Some kj →
               vkey_eqb ki kj = false.

(** ** What the primitive constructors return *)

(** The numbers of vertices of a list of Polygon objects. *)
Definition polygon_sizes (os : list polygon) : list nat :=
  (λ o, length (vertices o)) <$> os.

(** [c] is a solid created since [h] whose list holds, in order, the
    Polygon objects [os], which are the polygons created since [h]. *)
Definition new_solid (h h' : heap) (c : loc) (os : list polygon) : Prop :=
  ∃ l, csg_objs h !! c = None
       ∧ csg_objs h' !! c = Some l
       ∧ list_objs h !! l = None
       ∧ list_objs h' !! l = Some (seq (length (polygon_objs h)) (length os))
       ∧ polygon_objs h' = polygon_objs h ++ os.

(** The part of the store that a constructor leaves alone: the lists and
    the solids of [h0], and its Vertex objects. *)
Definition constructing (h0 h : heap) : Prop :=
  list_objs h = list_objs h0 ∧ csg_objs h = csg_objs h0
  ∧ vertex_objs h0 `prefix_of` vertex_objs h.

(** What a step of a constructor does to the store: it adds Vertex
    objects, and the Polygon objects [objs]. *)
Definition adds_polygons (h h' : heap) (objs : list polygon) : Prop :=
  constructing h h' ∧ polygon_objs h' = polygon_objs h ++ objs.

(** The vertex lists of the Polygon objects [objs], one after the other,
    are the Vertex objects created between [h] and [h'], in the order of
    their creation: each of them is referenced once. *)
Definition owns_new_vertices (h h' : heap) (objs : list polygon) : Prop :=
  concat (vertices <$> objs)
  = seq (length (vertex_objs h)) (length (vertex_objs h') - length (vertex_objs h)).

(** The Vertex objects created since [h0] all satisfy [P]. *)
Definition vertices_since (P : vertex → Prop) (h0 h : heap) : Prop :=
  ∃ vs, vertex_objs h = vertex_objs h0 ++ vs ∧ Forall P vs.

(** The centre vector and the radius that [sphere] reads from its
    arguments. *)
Definition sphere_center (kw : CSG.sphere_kwargs) : option Vector.t :=
  match CSG.kw_center kw with
  | None => Some (Vector.mk 0 0 0)
  | Some (CSG.AFloat f) => Some (Vector.mk f f f)
  | Some (CSG.AList (x :: y :: z :: _)) => Some (Vector.mk x y z)
  | Some (CSG.AList _) => None
  end.

Definition sphere_radius (kw : CSG.sphere_kwargs) : option float :=
  match CSG.kw_radius kw with
  | None => Some 1%float
  | Some (CSG.AFloat f) => Some f
  | Some (CSG.AList (x :: _ :: _ :: _)) => Some x
  | Some (CSG.AList _) => None
  end.

(** The vertex counts of the polygons of one slice of a sphere, from the
    first stack to the last: a triangle at each pole, quadrilaterals in
    between. *)
Definition sphere_stack_size (stacks j : nat) : nat :=
  1 + (if 0 <? j then 1 else 0) + (if j <? stacks - 1 then 1 else 0) + 1.

Definition sphere_slice_sizes (stacks : nat) : list nat :=
  sphere_stack_size stacks <$> seq 0 stacks.

(** Well-formed [start] and [end] arguments of [cylinder] and [cone]: a
    Vector, or a list of three floats. *)
Definition vector_arg_ok (a : option CSG.vector_or_list) : Prop :=
  match a with
  | Some (CSG.AVlist l) => length l = 3
  | _ => True
  end.

Definition cylinder_args_ok (kw : CSG.cylinder_kwargs) : Prop :=
  vector_arg_ok (CSG.kw_start kw) ∧ vector_arg_ok (CSG.kw_end kw).

(** The vertex counts of the polygons of one slice of a cylinder (a sector
    of the bottom disk, a side panel, a sector of the top disk) and of a
    cone (a sector of the base disk, a side triangle). *)
Definition cylinder_slice_sizes : list nat := [3; 4; 3].
Definition cone_slice_sizes : list nat := [3; 3].

(** *** The cube *)

(** The centre that [cube] uses: the first three entries of a list, the
    origin for an argument that is not a list. *)
Definition cube_center (center : option CSG.float_or_list) : option Vector.t :=
  match default (CSG.AList [0; 0; 0]%float) center with
  | CSG.AList (x :: y :: z :: _) => Some (Vector.mk x y z)
  | CSG.AList _ => None
  | CSG.AFloat _ => Some (Vector.mk 0 0 0)
  end.

(** The three radii: the first three entries of a list, a number three
    times. *)
Definition cube_radii (radius : option CSG.float_or_list) : option (float * float * float) :=
  match default (CSG.AList [1; 1; 1]%float) radius with
  | CSG.AList (x :: y :: z :: _) => Some (x, y, z)
  | CSG.AList _ => None
  | CSG.AFloat f => Some (f, f, f)
  end.

(** The plane that a polygon gets when it is built: the plane through the
    positions of its first three vertices. *)
Definition first_plane (vs : list vertex) : Plane.t :=
  match vs with
  | a :: b :: d :: _ => Plane.fromPoints (pos a) (pos b) (pos d)
  | _ => Plane.mk (Vector.mk 0 0 0) 0
  end.

(** The face of the box with the corner indices [idxs]: a vertex with no
    normal at each corner, and the plane through the first three. *)
Definition cube_face_value (c : Vector.t) (r0 r1 r2 : float) (idxs : list nat)
    : polygon_value :=
  let vs := (λ i, Vertex_obj (CSG.cube_corner c r0 r1 r2 i) (Vector.mk 0 0 0)) <$> idxs in
  PolygonValue vs (first_plane vs).

Definition cube_value (c : Vector.t) (r0 r1 r2 : float) : list polygon_value :=
  cube_face_value c r0 r1 r2 <$> (fst <$> CSG.vertex_data).

(** The int [2 * bool(i & m) - 1], and the corner [i] of the box of centre
    0 and radii 1, in ints. *)
Definition corner_sign_Z (i m : nat) : Z :=
  if Nat.land i m =? 0 then (-1)%Z else 1%Z.

Definition unit_corner (i : nat) : list Z :=
  [corner_sign_Z i 1; corner_sign_Z i 2; corner_sign_Z i 4].

Definition minus_Z (a b : list Z) : list Z := zip_with Z.sub a b.

Definition cross_Z (a b : list Z) : list Z :=
  match a, b with
  | [ax; ay; az], [bx; by_; bz] =>
      [ay * bz - az * by_; az * bx - ax * bz; ax * by_ - ay * bx]%Z
  | _, _ => []
  end.

(** The directed edges of the faces of [cube], as pairs of corner
    indices. *)
Definition cube_edges : list (nat * nat) :=
  concat ((λ v, ring (fst v)) <$> CSG.vertex_data).

Definition count_edge (e : nat * nat) (l : list (nat * nat)) : nat :=
  length (filter (λ e', e' = e) l).

(** ** Example stores *)

Definition empty_heap : heap := Heap [] [] [] [].

Definition zero_vector : Vector.t := Vector.mk 0 0 0.

(** A triangle in the plane z = 0 with normals along z, as the one polygon
    of solid 0. *)
Definition tri_heap : heap :=
  Heap [Vertex_obj (Vector.mk 0 0 0) (Vector.mk 0 0 1);
        Vertex_obj (Vector.mk 1 0 0) (Vector.mk 0 0 1);
        Vertex_obj (Vector.mk 0 1 0) (Vector.mk 0 0 1)]
       [Polygon_obj [0; 1; 2] (Plane.mk (Vector.mk 0 0 1) 0)]
       [[0]]
       [0].

(** The value of solid 0 of [tri_heap]. *)
Definition tri_value : list polygon_value :=
  [PolygonValue [Vertex_obj (Vector.mk 0 0 0) (Vector.mk 0 0 1);
                 Vertex_obj (Vector.mk 1 0 0) (Vector.mk 0 0 1);
                 Vertex_obj (Vector.mk 0 1 0) (Vector.mk 0 0 1)]
                (Plane.mk (Vector.mk 0 0 1) 0)].

(** What [toVerticesAndPolygons] returns for it. *)
Definition tri_verts : list vkey := [(0, 0, 0); (1, 0, 0); (0, 1, 0)]%float.
Definition tri_cells : list (list nat) := [[0; 1; 2]].

(** The same triangle in the plane z = 1. *)
Definition tri1_heap : heap :=
  Heap [Vertex_obj (Vector.mk 0 0 1) (Vector.mk 0 0 1);
        Vertex_obj (Vector.mk 1 0 1) (Vector.mk 0 0 1);
        Vertex_obj (Vector.mk 0 1 1) (Vector.mk 0 0 1)]
       [Polygon_obj [0; 1; 2] (Plane.mk (Vector.mk 0 0 1) 1)]
       [[0]]
       [0].

Definition tri1_plane : Plane.t := Plane.mk (Vector.mk 0 0 1) 1.

(** A displacement along z by 2^-70, which is less than half the spacing of
    the floats near 1. *)
Definition tiny_disp : list float := [0; 0; 0x1p-70]%float.

(** A store with three solids.  Solid 0 has three triangles: one in the
    plane z = 0, one in the plane z = -1, one more in the plane z = 0.
    Solid 1 is empty.  Solid 2 has one triangle that crosses the plane
    z = 0. *)
Definition triangle (a b c : Vector.t) (vs : list loc) : polygon :=
  Polygon_obj vs (Plane.fromPoints a b c).

Definition up : Vector.t := Vector.mk 0 0 1.

Definition three_solids_heap : heap :=
  Heap [Vertex_obj (Vector.mk 0 0 0) up; Vertex_obj (Vector.mk 1 0 0) up;
        Vertex_obj (Vector.mk 0 1 0) up;
        Vertex_obj (Vector.mk 0 0 (-1)) up; Vertex_obj (Vector.mk 1 0 (-1)) up;
        Vertex_obj (Vector.mk 0 1 (-1)) up;
        Vertex_obj (Vector.mk 2 0 0) up; Vertex_obj (Vector.mk 3 0 0) up;
        Vertex_obj (Vector.mk 2 1 0) up;
        Vertex_obj (Vector.mk 0 0 (-1)) zero_vector;
        Vertex_obj (Vector.mk 1 0 1) zero_vector;
        Vertex_obj (Vector.mk 0 1 1) zero_vector]
       [triangle (Vector.mk 0 0 0) (Vector.mk 1 0 0) (Vector.mk 0 1 0) [0; 1; 2];
        triangle (Vector.mk 0 0 (-1)) (Vector.mk 1 0 (-1)) (Vector.mk 0 1 (-1)) [3; 4; 5];
        triangle (Vector.mk 2 0 0) (Vector.mk 3 0 0) (Vector.mk 2 1 0) [6; 7; 8];
        triangle (Vector.mk 0 0 (-1)) (Vector.mk 1 0 1) (Vector.mk 0 1 1) [9; 10; 11]]
       [[0; 1; 2]; []; [3]]
       [0; 1; 2].

(** A store with two solids.  Solid 0 has a triangle in the plane z = 0 and
    a triangle that crosses that plane.  Solid 1 is empty. *)
Definition crossing_heap : heap :=
  Heap [Vertex_obj (Vector.mk 0 0 0) up; Vertex_obj (Vector.mk 1 0 0) up;
        Vertex_obj (Vector.mk 0 1 0) up;
        Vertex_obj (Vector.mk 0 0 (-1)) zero_vector;
        Vertex_obj (Vector.mk 1 0 1) zero_vector;
        Vertex_obj (Vector.mk 0 1 1) zero_vector]
       [triangle (Vector.mk 0 0 0) (Vector.mk 1 0 0) (Vector.mk 0 1 0) [0; 1; 2];
        triangle (Vector.mk 0 0 (-1)) (Vector.mk 1 0 1) (Vector.mk 0 1 1) [3; 4; 5]]
       [[0; 1]; []]
       [0; 1].

(** * Proofs *)

(** ** Computations *)

Lemma run_bind {A B} (m : M A) (k : A -> M B) h b h' :
  bind m k h = Some (b, h') ↔ ∃ a h1, m h = Some (a, h1) ∧ k a h1 = Some (b, h').
Proof.
  unfold bind. split.
  - destruct (m h) as [[a h1]|]; [eauto|discriminate].
  - intros (a & h1 & -> & ?). done.
Qed.

Lemma run_ret {A} (a b : A) h h' : ret a h = Some (b, h') ↔ a = b ∧ h = h'.
Proof. unfold ret. split; [by intros [= -> ->]|by intros [-> ->]]. Qed.

Lemma run_lift_option {A} (o : option A) h a h' :
  lift_option o h = Some (a, h') ↔ o = Some a ∧ h = h'.
Proof.
  unfold lift_option. destruct o; split; try by intros [= -> ->].
  - by intros [[= ->] ->].
  - by intros [? _].
Qed.

Lemma bind_eq {A B} (m : M A) (k : A -> M B) h a h1 :
  m h = Some (a, h1) → bind m k h = k a h1.
Proof. unfold bind. by intros ->. Qed.

Lemma bind_None {A B} (m : M A) (k : A -> M B) h :
  m h = None → bind m k h = None.
Proof. unfold bind. by intros ->. Qed.

(** Inversion of a successful run, one step at a time. *)
Ltac inv_run :=
  repeat match goal with
  | H : bind _ _ _ = Some _ |- _ =>
      let a := fresh "a" in let h := fresh "h" in
      let Ha := fresh "Hrun" in
      apply run_bind in H; destruct H as (a & h & Ha & H)
  | H : ret _ _ = Some _ |- _ =>
      apply run_ret in H; destruct H as [? ?]; simplify_eq
  | H : lift_option _ _ = Some _ |- _ =>
      apply run_lift_option in H; destruct H as [? ?]; simplify_eq
  | H : raise _ = Some _ |- _ => discriminate H
  end.

Ltac heap_simpl :=
  unfold set_vertex_objs, set_polygon_objs, set_list_objs, set_csg_objs in *;
  simpl in *.

(** ** Stores *)

#[global] Instance heap_prefix_preorder : PreOrder heap_prefix.
Proof.
  split.
  - intros h. by repeat split.
  - intros h1 h2 h3 (? & ? & ? & ?) (? & ? & ? & ?).
    repeat split; etrans; eauto.
Qed.

Lemma prefix_insert_ge {A} (l0 l : list A) i x :
  l0 `prefix_of` l → length l0 ≤ i → l0 `prefix_of` <[i := x]> l.
Proof.
  intros [k ->] Hi. exists (<[i - length l0 := x]> k).
  by rewrite insert_app_r_alt.
Qed.

Lemma prefix_alter_ge {A} (f : A → A) (l0 l : list A) i :
  l0 `prefix_of` l → length l0 ≤ i → l0 `prefix_of` alter f i l.
Proof.
  intros [k ->] Hi. exists (alter f (i - length l0) k).
  by rewrite alter_app_r_alt.
Qed.

Lemma mapM_lookup_prefix {A} (l l' : list A) (ks : list nat) vs :
  l `prefix_of` l' → mapM (λ i, l !! i) ks = Some vs → mapM (λ i, l' !! i) ks = Some vs.
Proof.
  intros Hp. rewrite !mapM_Some. intros H. eapply Forall2_impl; [done|].
  simpl. eauto using prefix_lookup_Some.
Qed.

Lemma polygon_value_at_prefix h h' p v :
  heap_prefix h h' → polygon_value_at h p = Some v → polygon_value_at h' p = Some v.
Proof.
  intros (Hv & Hp & _) H. unfold polygon_value_at in *.
  destruct (polygon_objs h !! p) as [o|] eqn:Ho; simplify_eq/=.
  rewrite (prefix_lookup_Some _ _ _ _ Ho Hp). simpl.
  destruct (mapM _ (vertices o)) as [vs|] eqn:Hvs; simplify_eq/=.
  by rewrite (mapM_lookup_prefix _ _ _ _ Hv Hvs).
Qed.

Lemma list_value_at_prefix h h' l v :
  heap_prefix h h' → list_value_at h l = Some v → list_value_at h' l = Some v.
Proof.
  intros Hpre H. unfold list_value_at in *.
  destruct (list_objs h !! l) as [ps|] eqn:Hl; simplify_eq/=.
  destruct Hpre as (Hv & Hp & Hl' & Hc).
  rewrite (prefix_lookup_Some _ _ _ _ Hl Hl'). simpl.
  revert H. rewrite !mapM_Some. intros H. eapply Forall2_impl; [done|].
  simpl. intros p pv ?. eapply polygon_value_at_prefix; [|done]. by repeat split.
Qed.

Lemma solid_value_prefix h h' c v :
  heap_prefix h h' → solid_value h c = Some v → solid_value h' c = Some v.
Proof.
  intros Hpre H. unfold solid_value in *.
  destruct (csg_objs h !! c) as [l|] eqn:Hc; simplify_eq/=.
  rewrite (prefix_lookup_Some _ _ _ _ Hc (proj2 (proj2 (proj2 Hpre)))). simpl.
  by eapply list_value_at_prefix.
Qed.

(** ** Cloning *)

Lemma vertex_eta o : Vertex_obj (pos o) (normal o) = o.
Proof. by destruct o. Qed.

Lemma heap_eta h :
  Heap (vertex_objs h) (polygon_objs h) (list_objs h) (csg_objs h) = h.
Proof. by destruct h. Qed.

Lemma mapM_cons_Some {A B} (f : A → option B) a l k :
  mapM f (a :: l) = Some k ↔ ∃ b k', f a = Some b ∧ mapM f l = Some k' ∧ k = b :: k'.
Proof.
  rewrite mapM_Some. split.
  - intros H. inversion H as [|? b ? k' Hb Hk]; subst.
    exists b, k'. by rewrite mapM_Some.
  - intros (b & k' & ? & Hk & ->). constructor; [done|]. by apply mapM_Some.
Qed.

Lemma Vertex_clone_run h v o :
  vertex_objs h !! v = Some o →
  Vertex.clone v h
  = Some (length (vertex_objs h), set_vertex_objs h (vertex_objs h ++ [o])).
Proof.
  intros Hv. unfold Vertex.clone, get_vertex, bind, lift_option, alloc_vertex.
  rewrite Hv. by rewrite vertex_eta.
Qed.

Lemma map_M_Vertex_clone_run vs : ∀ h os,
  mapM (λ v, vertex_objs h !! v) vs = Some os →
  map_M Vertex.clone vs h
  = Some (seq (length (vertex_objs h)) (length os),
          set_vertex_objs h (vertex_objs h ++ os)).
Proof.
  induction vs as [|v vs IH]; intros h os H.
  - apply mapM_Some, Forall2_nil_inv_l in H as ->.
    simpl. unfold ret, set_vertex_objs. by rewrite app_nil_r, heap_eta.
  - apply mapM_cons_Some in H as (o & os' & Hv & Hos & ->).
    simpl. rewrite (bind_eq _ _ _ _ _ (Vertex_clone_run _ _ _ Hv)).
    erewrite bind_eq; last first.
    { apply IH. heap_simpl. eapply mapM_lookup_prefix; [|done]. by apply prefix_app_r. }
    unfold ret. heap_simpl. rewrite length_app, <- app_assoc. simpl.
    by rewrite Nat.add_1_r.
Qed.

Lemma Polygon_clone_run h p o os :
  polygon_objs h !! p = Some o →
  mapM (λ v, vertex_objs h !! v) (vertices o) = Some os →
  Polygon.clone p h
  = Some (length (polygon_objs h),
          Heap (vertex_objs h ++ os)
               (polygon_objs h ++
                  [Polygon_obj (seq (length (vertex_objs h)) (length os)) (plane o)])
               (list_objs h) (csg_objs h)).
Proof.
  intros Hp Hos. unfold Polygon.clone.
  erewrite bind_eq; last by (unfold get_polygon; rewrite Hp).
  erewrite bind_eq; last by apply map_M_Vertex_clone_run.
  done.
Qed.

Lemma mapM_lookup_seq {A} (l k : list A) :
  mapM (λ i, (l ++ k) !! i) (seq (length l) (length k)) = Some k.
Proof.
  apply mapM_Some, Forall2_same_length_lookup_2.
  - by rewrite length_seq.
  - intros i j x Hj Hx. apply lookup_seq in Hj as [-> ?].
    by rewrite lookup_app_r, Nat.add_comm, Nat.add_sub by lia.
Qed.

(** Cloning a polygon makes new objects with the value of the old ones and
    writes to no old object. *)
Lemma Polygon_clone_value h p v :
  polygon_value_at h p = Some v →
  ∃ h', Polygon.clone p h = Some (length (polygon_objs h), h')
        ∧ heap_prefix h h'
        ∧ polygon_value_at h' (length (polygon_objs h)) = Some v
        ∧ list_objs h' = list_objs h ∧ csg_objs h' = csg_objs h.
Proof.
  unfold polygon_value_at at 1. intros H.
  destruct (polygon_objs h !! p) as [o|] eqn:Ho; simplify_eq/=.
  destruct (mapM _ (vertices o)) as [os|] eqn:Hos; simplify_eq/=.
  eexists. split; [by apply Polygon_clone_run|].
  split; [|split; [|done]].
  - repeat split; simpl; try done; by apply prefix_app_r.
  - unfold polygon_value_at. simpl.
    rewrite lookup_app_r, Nat.sub_diag by lia. simpl.
    by rewrite mapM_lookup_seq.
Qed.

Lemma map_M_Polygon_clone_value ps : ∀ h vs,
  mapM (polygon_value_at h) ps = Some vs →
  ∃ qs h', map_M Polygon.clone ps h = Some (qs, h')
           ∧ heap_prefix h h'
           ∧ mapM (polygon_value_at h') qs = Some vs
           ∧ list_objs h' = list_objs h ∧ csg_objs h' = csg_objs h.
Proof.
  induction ps as [|p ps IH]; intros h vs H.
  - apply mapM_Some, Forall2_nil_inv_l in H as ->. by exists [], h.
  - apply mapM_cons_Some in H as (v & vs' & Hv & Hvs & ->).
    destruct (Polygon_clone_value _ _ _ Hv) as (h1 & Hrun & Hpre & Hval & Hl & Hc).
    destruct (IH h1 vs') as (qs & h2 & Hrun2 & Hpre2 & Hval2 & Hl2 & Hc2).
    { revert Hvs. rewrite !mapM_Some. intros Hvs.
      eapply Forall2_impl; [done|]. simpl. eauto using polygon_value_at_prefix. }
    exists (length (polygon_objs h) :: qs), h2. simpl.
    rewrite (bind_eq _ _ _ _ _ Hrun), (bind_eq _ _ _ _ _ Hrun2).
    split; [done|]. split; [by etrans|]. split; [|split; congruence].
    apply mapM_cons_Some. eexists _, _. split; [|done].
    by eapply polygon_value_at_prefix.
Qed.

(** [clone] returns a new solid with the value of the old one and writes to
    no old object. *)
Lemma CSG_clone_value h self vs :
  solid_value h self = Some vs →
  ∃ h', CSG.clone self h = Some (length (csg_objs h), h')
        ∧ heap_prefix h h'
        ∧ solid_value h' (length (csg_objs h)) = Some vs.
Proof.
  unfold solid_value at 1, list_value_at. intros H.
  destruct (csg_objs h !! self) as [l|] eqn:Hc; simplify_eq/=.
  destruct (list_objs h !! l) as [ps|] eqn:Hl; simplify_eq/=.
  set (h1 := Heap (vertex_objs h) (polygon_objs h) (list_objs h ++ [[]])
                  (csg_objs h ++ [length (list_objs h)])).
  assert (heap_prefix h h1) as Hpre1.
  { repeat split; simpl; try done; by apply prefix_app_r. }
  destruct (map_M_Polygon_clone_value ps h1 vs) as (qs & h2 & Hrun & Hpre2 & Hval & Hl2 & Hc2).
  { revert H. rewrite !mapM_Some. intros H.
    eapply Forall2_impl; [done|]. simpl. eauto using polygon_value_at_prefix. }
  eexists. split; [|split].
  - unfold CSG.clone, CSG.new.
    unfold bind at 1. unfold bind at 1. unfold alloc_list at 1, alloc_csg at 1.
    heap_simpl. fold h1.
    erewrite bind_eq; last first.
    { unfold get_csg, lift_option. subst h1. simpl. by rewrite lookup_app_l_Some with (x := l). }
    erewrite bind_eq; last first.
    { unfold get_list, lift_option. subst h1. simpl. by rewrite lookup_app_l_Some with (x := ps). }
    rewrite (bind_eq _ _ _ _ _ Hrun).
    unfold bind at 1, alloc_list at 1.
    unfold bind, put_csg. heap_simpl. rewrite Hc2. subst h1. simpl.
    rewrite decide_True by (rewrite length_app; simpl; lia).
    unfold ret. done.
  - destruct Hpre2 as (? & ? & ? & ?). destruct Hpre1 as (? & ? & ? & ?).
    repeat split; simpl; try (by etrans).
    + apply prefix_app_r. by etrans.
    + apply prefix_insert_ge; [|done]. by apply prefix_app_r.
  - unfold solid_value. simpl.
    rewrite list_lookup_insert_eq by (rewrite length_app; simpl; lia). simpl.
    unfold list_value_at. simpl.
    rewrite lookup_app_r, Nat.sub_diag by lia. simpl.
    revert Hval. rewrite !mapM_Some. intros Hval.
    eapply Forall2_impl; [done|]. simpl. intros q v Hq.
    by unfold polygon_value_at in *.
Qed.

(** ** [inverse], [fromPolygons], [toPolygons] *)

Lemma solid_value_csg h c vs :
  solid_value h c = Some vs → ∃ l, csg_objs h !! c = Some l.
Proof.
  unfold solid_value. destruct (csg_objs h !! c); [eauto|done].
Qed.

(** As the map object is never consumed, [inverse] does what [clone] does. *)
Lemma CSG_inverse_clone h self vs :
  solid_value h self = Some vs → CSG.inverse self h = CSG.clone self h.
Proof.
  intros H. destruct (CSG_clone_value _ _ _ H) as (h' & Hrun & _ & Hval).
  unfold CSG.inverse. rewrite (bind_eq _ _ _ _ _ Hrun), Hrun.
  destruct (solid_value_csg _ _ _ Hval) as [l Hl].
  unfold bind, get_csg, lift_option. by rewrite Hl.
Qed.

Lemma CSG_inverse_value h self vs :
  solid_value h self = Some vs →
  ∃ h', CSG.inverse self h = Some (length (csg_objs h), h')
        ∧ heap_prefix h h'
        ∧ solid_value h' (length (csg_objs h)) = Some vs.
Proof.
  intros H. rewrite (CSG_inverse_clone _ _ _ H). by apply CSG_clone_value.
Qed.

(** C4: for every solid A of the store, [A.inverse().inverse()] returns a
    solid whose polygon list is value-equal to A's, polygon by polygon and
    vertex by vertex (positions, normals and planes). *)
Theorem inverse_inverse_value (h : heap) (A : loc) (vs : list polygon_value) :
  solid_value h A = Some vs →
  ∃ C h', (B <- CSG.inverse A ;; CSG.inverse B) h = Some (C, h')
          ∧ solid_value h' C = Some vs
          ∧ solid_value h' A = Some vs.
Proof.
  intros H.
  destruct (CSG_inverse_value _ _ _ H) as (h1 & Hrun1 & Hpre1 & Hval1).
  destruct (CSG_inverse_value _ _ _ Hval1) as (h2 & Hrun2 & Hpre2 & Hval2).
  exists (length (csg_objs h1)), h2.
  rewrite (bind_eq _ _ _ _ _ Hrun1). split; [done|]. split; [done|].
  eapply solid_value_prefix; [|done]. by etrans.
Qed.

Lemma inverse_inverse_value_witness :
  ∃ C h', (B <- CSG.inverse 0 ;; CSG.inverse B) tri_heap = Some (C, h')
          ∧ solid_value h' C = solid_value tri_heap 0
          ∧ solid_value h' 0 = solid_value tri_heap 0.
Proof.
  apply (inverse_inverse_value tri_heap 0). reflexivity.
Defined.

(** C1 (what the code does on the triangle solid): [inverse] returns a new
    solid whose polygon has the value of the original one, vertex order,
    normals and plane as they were, and not the value of the flipped
    polygon. *)
Theorem inverse_returns_unflipped_copy :
  ∃ C h', CSG.inverse 0 tri_heap = Some (C, h')
          ∧ solid_value h' C = solid_value tri_heap 0
          ∧ solid_value h' C ≠ (map flip_polygon_value <$> solid_value tri_heap 0).
Proof.
  eexists _, _. split; [vm_compute; reflexivity|]. split; [reflexivity|].
  intros H.
  apply (f_equal (λ o : option (list polygon_value),
           match o with
           | Some (pv :: _) =>
               match pv_vertices pv with
               | v :: _ => (Vector.y (pos v) =? 0)%float
               | [] => true
               end
           | _ => true
           end)) in H.
  vm_compute in H. discriminate H.
Qed.

(** C9: [fromPolygons(p).toPolygons()] is the list object [p] itself:
    nothing is copied, the solid holds the caller's list, and whatever the
    caller later stores in that list is what the solid's polygon list is. *)
Theorem fromPolygons_toPolygons_same_list (h : heap) (p : loc) :
  is_Some (list_objs h !! p) →
  ∃ c h', CSG.fromPolygons p h = Some (c, h')
          ∧ CSG.toPolygons c h' = Some (p, h')
          ∧ list_objs h' !! p = list_objs h !! p
          ∧ ∀ items : list loc,
              let h'' := set_list_objs h' (<[p := items]> (list_objs h')) in
              (l <- CSG.toPolygons c ;; get_list l) h'' = Some (items, h'').
Proof.
  intros [ps Hp].
  exists (length (csg_objs h)),
    (Heap (vertex_objs h) (polygon_objs h) (list_objs h ++ [[]])
          (csg_objs h ++ [p])).
  assert (p < length (list_objs h)) by by eapply lookup_lt_Some.
  split; [|split; [|split]].
  - unfold CSG.fromPolygons, CSG.new, bind, alloc_list, alloc_csg, put_csg, ret.
    heap_simpl. rewrite decide_True by (rewrite length_app; simpl; lia).
    do 3 f_equal.
    rewrite insert_app_r_alt, Nat.sub_diag by lia. done.
  - unfold CSG.toPolygons, get_csg, lift_option. simpl.
    by rewrite lookup_app_r, Nat.sub_diag by lia.
  - simpl. by rewrite lookup_app_l by lia.
  - intros items h''. subst h''.
    unfold CSG.toPolygons, bind, get_csg, get_list, lift_option. heap_simpl.
    rewrite lookup_app_r, Nat.sub_diag by lia. simpl.
    rewrite list_lookup_insert_eq by (rewrite length_app; lia). done.
Qed.

Lemma fromPolygons_toPolygons_same_list_witness :
  ∃ c h', CSG.fromPolygons 0 tri_heap = Some (c, h')
          ∧ CSG.toPolygons c h' = Some (0, h')
          ∧ list_objs h' !! 0 = list_objs tri_heap !! 0
          ∧ ∀ items : list loc,
              let h'' := set_list_objs h' (<[0 := items]> (list_objs h')) in
              (l <- CSG.toPolygons c ;; get_list l) h'' = Some (items, h'').
Proof.
  apply (fromPolygons_toPolygons_same_list tri_heap 0). by eexists.
Defined.

(** ** [sphere] *)

Lemma CSG_fromPolygons_run h p :
  CSG.fromPolygons p h
  = Some (length (csg_objs h),
          Heap (vertex_objs h) (polygon_objs h) (list_objs h ++ [[]]) (csg_objs h ++ [p])).
Proof.
  unfold CSG.fromPolygons, CSG.new, bind, alloc_list, alloc_csg, put_csg, ret.
  heap_simpl. rewrite decide_True by (rewrite length_app; simpl; lia).
  do 3 f_equal. by rewrite insert_app_r_alt, Nat.sub_diag by lia.
Qed.

Lemma Polygon_new_ok h vs :
  3 ≤ length vs →
  Forall (λ v, v < length (vertex_objs h)) vs →
  ∃ pl, Polygon.new vs h
        = Some (length (polygon_objs h),
                set_polygon_objs h (polygon_objs h ++ [Polygon_obj vs pl])).
Proof.
  intros Hlen Hvs.
  destruct vs as [|a [|b [|c vs]]]; simpl in Hlen; try lia.
  apply Forall_cons in Hvs as [Ha Hvs]. apply Forall_cons in Hvs as [Hb Hvs].
  apply Forall_cons in Hvs as [Hc _].
  apply lookup_lt_is_Some in Ha as [oa Ha], Hb as [ob Hb], Hc as [oc Hc].
  eexists. unfold Polygon.new, bind, get_vertex, lift_option, alloc_polygon.
  by rewrite Ha, Hb, Hc.
Qed.

Section SphereProofs.

Variables math_cos math_sin : float → float.

Lemma appendVertex_ok center c r vs theta phi h :
  3 ≤ length center →
  Forall (λ v, v < length (vertex_objs h)) vs →
  ∃ h', CSG.appendVertex math_cos math_sin center c r vs theta phi h
        = Some (vs ++ [length (vertex_objs h)], h')
        ∧ Forall (λ v, v < length (vertex_objs h')) (vs ++ [length (vertex_objs h)])
        ∧ polygon_objs h' = polygon_objs h.
Proof.
  intros Hc Hvs.
  destruct center as [|c0 [|c1 [|c2 center]]]; simpl in Hc; try lia.
  eexists. split.
  { unfold CSG.appendVertex, bind, lift_option, Vertex.new, alloc_vertex, ret.
    simpl. reflexivity. }
  heap_simpl. split; [|done].
  rewrite length_app. simpl. apply Forall_app. split.
  - eapply Forall_impl; [done|]. simpl. lia.
  - apply Forall_singleton. lia.
Qed.

Lemma sphere_body_ok center c r slices stacks dTheta dPhi polygons i j h :
  3 ≤ length center → 2 ≤ stacks →
  ∃ p h', CSG.sphere_body math_cos math_sin center c r slices stacks dTheta dPhi
            polygons i j h
          = Some (polygons ++ [p], h').
Proof.
  intros Hc Hst. unfold CSG.sphere_body.
  destruct (appendVertex_ok center c r [] (float_of_nat i * dTheta)
              (float_of_nat j * dPhi) h Hc) as (h1 & Hrun1 & Hvs1 & _); [done|].
  rewrite (bind_eq _ _ _ _ _ Hrun1).
  set (vs1 := [] ++ [length (vertex_objs h)]) in *.
  assert (∃ vs2 h2,
    (if 0 <? j
     then CSG.appendVertex math_cos math_sin center c r vs1
            (float_of_nat ((i + 1) mod slices) * dTheta) (float_of_nat j * dPhi)
     else ret vs1) h1 = Some (vs2, h2)
    ∧ Forall (λ v, v < length (vertex_objs h2)) vs2
    ∧ length vs2 = (if 0 <? j then 2 else 1)) as (vs2 & h2 & Hrun2 & Hvs2 & Hlen2).
  { destruct (0 <? j).
    - edestruct appendVertex_ok as (h2 & Hrun2 & Hvs2 & _); [done|exact Hvs1|].
      eexists _, _. split; [exact Hrun2|]. split; [done|].
      by rewrite length_app.
    - by exists vs1, h1. }
  rewrite (bind_eq _ _ _ _ _ Hrun2).
  assert (∃ vs3 h3,
    (if j <? stacks - 1
     then CSG.appendVertex math_cos math_sin center c r vs2
            (float_of_nat ((i + 1) mod slices) * dTheta) (float_of_nat (j + 1) * dPhi)
     else ret vs2) h2 = Some (vs3, h3)
    ∧ Forall (λ v, v < length (vertex_objs h3)) vs3
    ∧ length vs3 = length vs2 + (if j <? stacks - 1 then 1 else 0))
    as (vs3 & h3 & Hrun3 & Hvs3 & Hlen3).
  { destruct (j <? stacks - 1).
    - edestruct appendVertex_ok as (h3 & Hrun3 & Hvs3 & _); [done|exact Hvs2|].
      eexists _, _. split; [exact Hrun3|]. split; [done|].
      by rewrite length_app.
    - exists vs2, h2. split; [done|]. split; [done|lia]. }
  rewrite (bind_eq _ _ _ _ _ Hrun3).
  edestruct appendVertex_ok as (h4 & Hrun4 & Hvs4 & _); [done|exact Hvs3|].
  rewrite (bind_eq _ _ _ _ _ Hrun4).
  edestruct Polygon_new_ok as (pl & Hrun5); [|exact Hvs4|].
  { rewrite length_app, Hlen3, Hlen2. simpl.
    destruct (0 <? j) eqn:H0; [lia|].
    destruct (j <? stacks - 1) eqn:H1; [lia|].
    apply Nat.ltb_ge in H0, H1. lia. }
  rewrite (bind_eq _ _ _ _ _ Hrun5). by eexists _, _.
Qed.

End SphereProofs.

(** A loop whose body appends [k] elements to the list it carries. *)
Lemma foldM_grows {A B} (f : list B → A → M (list B)) (k : nat) (l : list A) :
  (∀ acc a h, ∃ acc' h', f acc a h = Some (acc', h') ∧ length acc' = length acc + k) →
  ∀ acc h, ∃ acc' h', foldM f acc l h = Some (acc', h')
                      ∧ length acc' = length acc + k * length l.
Proof.
  intros Hf. induction l as [|a l IH]; intros acc h; simpl.
  - exists acc, h. split; [done|lia].
  - destruct (Hf acc a h) as (acc1 & h1 & Hrun & Hlen).
    rewrite (bind_eq _ _ _ _ _ Hrun).
    destruct (IH acc1 h1) as (acc2 & h2 & Hrun2 & Hlen2).
    exists acc2, h2. split; [done|lia].
Qed.

Lemma sphere_polygon_count math_cos math_sin kw h :
  sphere_args_ok kw →
  let slices := default 16 (CSG.kw_slices kw) in
  let stacks := default 8 (CSG.kw_stacks kw) in
  (float_of_nat slices =? 0)%float = false →
  (float_of_nat stacks =? 0)%float = false →
  2 ≤ stacks →
  ∃ c l ps h', CSG.sphere math_cos math_sin kw h = Some (c, h')
               ∧ csg_objs h' !! c = Some l
               ∧ list_objs h' !! l = Some ps
               ∧ length ps = slices * stacks.
Proof.
  intros [Hcen Hrad] slices stacks Hsl Hst Hst2. unfold CSG.sphere.
  set (center := match CSG.kw_center kw with
                 | None => _ | Some (CSG.AFloat f) => _ | Some (CSG.AList l) => l end).
  assert (3 ≤ length center) as Hc.
  { subst center. destruct (CSG.kw_center kw) as [[f|l]|]; simpl; done || lia. }
  assert (∃ c, CSG.Vector_of_list center h = Some (c, h)) as [c Hrunc].
  { destruct center as [|c0 [|c1 [|c2 center']]]; simpl in Hc; try lia. by eexists. }
  rewrite (bind_eq _ _ _ _ _ Hrunc).
  assert (∃ r, match CSG.kw_radius kw with
               | None => ret 1%float
               | Some (CSG.AFloat f) => ret f
               | Some (CSG.AList l) =>
                   if 2 <? length l then lift_option (l !! 0) else raise
               end h = Some (r, h)) as [r Hrunr].
  { destruct (CSG.kw_radius kw) as [[f|l]|]; try by eexists.
    destruct l as [|r0 l]; simpl in Hrad; [lia|].
    exists r0. rewrite (proj2 (Nat.ltb_lt _ _)) by (simpl; lia). done. }
  rewrite (bind_eq _ _ _ _ _ Hrunr).
  fold slices stacks.
  unfold py_div. rewrite Hsl, Hst.
  unfold bind at 1. unfold ret at 1. unfold bind at 1. unfold ret at 1.
  edestruct (foldM_grows
    (λ polygons i,
       foldM (λ polygons0 j,
                CSG.sphere_body math_cos math_sin center c r slices stacks
                  (math_pi * 2 / float_of_nat slices) (math_pi / float_of_nat stacks)
                  polygons0 i j) polygons (seq 0 stacks)) stacks (seq 0 slices))
    as (ps & h1 & Hrun & Hlen).
  { intros acc i h0.
    edestruct (foldM_grows
      (λ polygons0 j,
         CSG.sphere_body math_cos math_sin center c r slices stacks
           (math_pi * 2 / float_of_nat slices) (math_pi / float_of_nat stacks)
           polygons0 i j) 1 (seq 0 stacks)) as (acc' & h' & Hrun' & Hlen').
    { intros acc0 j h2.
      edestruct sphere_body_ok as (p & h3 & Hrun3); [exact Hc|exact Hst2|].
      eexists _, _. split; [exact Hrun3|]. by rewrite length_app. }
    eexists _, _. split; [exact Hrun'|]. rewrite Hlen', length_seq. lia. }
  rewrite (bind_eq _ _ _ _ _ Hrun).
  unfold bind at 1, alloc_list at 1. rewrite CSG_fromPolygons_run. heap_simpl.
  eexists _, _, ps, _. split; [done|]. simpl.
  split; [by rewrite lookup_app_r, Nat.sub_diag by lia|].
  split.
  - rewrite lookup_app_l by (rewrite length_app; simpl; lia).
    by rewrite lookup_app_r, Nat.sub_diag by lia.
  - rewrite Hlen, length_seq. simpl. lia.
Qed.

(** C8: [CSG.sphere] with slices = 16 and stacks = 8, given or left to their
    defaults, returns a solid whose polygon list has exactly 128 polygons,
    whatever the (well-formed) center and radius. *)
Theorem sphere_16_8_has_128_polygons
    (math_cos math_sin : float → float) (kw : CSG.sphere_kwargs) (h : heap) :
  sphere_args_ok kw →
  default 16 (CSG.kw_slices kw) = 16 →
  default 8 (CSG.kw_stacks kw) = 8 →
  ∃ c l ps h', CSG.sphere math_cos math_sin kw h = Some (c, h')
               ∧ csg_objs h' !! c = Some l
               ∧ list_objs h' !! l = Some ps
               ∧ length ps = 128.
Proof.
  intros Hok Hsl Hst.
  destruct (sphere_polygon_count math_cos math_sin kw h Hok)
    as (c & l & ps & h' & Hrun & Hc & Hl & Hlen).
  - rewrite Hsl. reflexivity.
  - rewrite Hst. reflexivity.
  - rewrite Hst. lia.
  - exists c, l, ps, h'. rewrite Hsl, Hst in Hlen. done.
Qed.

Lemma sphere_16_8_has_128_polygons_witness :
  ∃ c l ps h',
    CSG.sphere (λ x, x) (λ x, x) (CSG.SphereKwargs None None None None) empty_heap
    = Some (c, h')
    ∧ csg_objs h' !! c = Some l
    ∧ list_objs h' !! l = Some ps
    ∧ length ps = 128.
Proof.
  apply (sphere_16_8_has_128_polygons (λ x, x) (λ x, x)
           (CSG.SphereKwargs None None None None) empty_heap).
  - split; exact I.
  - reflexivity.
  - reflexivity.
Defined.


(** ** [toVerticesAndPolygons] *)

Lemma vdict_get_zip_seq (keys : list vkey) (s : nat) (k : vkey) :
  match vdict_get (zip keys (seq s (length keys))) k with
  | Some i =>
      s ≤ i ∧ (∃ k', keys !! (i - s) = Some k' ∧ vkey_eqb k' k = true)
      ∧ ∀ j k', j < i - s → keys !! j = Some k' → vkey_eqb k' k = false
  | None => existsb (λ k', vkey_eqb k' k) keys = false
  end.
Proof.
  revert s. induction keys as [|k0 keys IH]; intros s; simpl; [done|].
  destruct (vkey_eqb k0 k) eqn:Hk0; simpl.
  - split; [lia|]. rewrite Nat.sub_diag. split; [by exists k0|]. intros; lia.
  - specialize (IH (S s)). destruct (vdict_get _ k) as [i|]; [|done].
    destruct IH as (Hle & (k' & Hk' & Heq) & Hmin).
    split; [lia|]. replace (i - s) with (S (i - S s)) by lia. split.
    + by exists k'.
    + intros [|j] k'' Hj Hk''; simplify_eq/=; [done|].
      eapply Hmin; [|done]. lia.
Qed.

Lemma vdict_get_dict_of_Some keys k i :
  vdict_get (dict_of keys) k = Some i → first_index_of keys k i.
Proof.
  intros H. pose proof (vdict_get_zip_seq keys 0 k) as Hz.
  unfold dict_of in H. rewrite H in Hz. rewrite Nat.sub_0_r in Hz.
  destruct Hz as (_ & ? & ?). by split.
Qed.

Lemma vdict_get_dict_of_None keys k :
  vdict_get (dict_of keys) k = None → existsb (λ k', vkey_eqb k' k) keys = false.
Proof.
  intros H. pose proof (vdict_get_zip_seq keys 0 k) as Hz.
  unfold dict_of in H. by rewrite H in Hz.
Qed.

Lemma vdict_get_dict_of_exists keys k i :
  vdict_get (dict_of keys) k = Some i → existsb (λ k', vkey_eqb k' k) keys = true.
Proof.
  intros H. apply vdict_get_dict_of_Some in H as [(k' & Hk' & Heq) _].
  apply existsb_exists. exists k'. split; [|done].
  apply list_elem_of_In. by eapply list_elem_of_lookup_2.
Qed.

Lemma length_dict_of keys : length (dict_of keys) = length keys.
Proof. unfold dict_of. rewrite length_zip_with, length_seq. lia. Qed.

Lemma dict_of_snoc keys k : dict_of keys ++ [(k, length keys)] = dict_of (keys ++ [k]).
Proof.
  unfold dict_of. rewrite length_app. simpl. rewrite seq_app. simpl.
  rewrite zip_with_app by by rewrite length_seq. done.
Qed.

Lemma fst_dict_of keys : (dict_of keys).*1 = keys.
Proof. unfold dict_of. apply fst_zip. rewrite length_seq. lia. Qed.

Lemma first_index_of_app verts more k i :
  first_index_of verts k i → first_index_of (verts ++ more) k i.
Proof.
  intros [(k' & Hk' & Heq) Hmin].
  assert (i < length verts) by by eapply lookup_lt_Some.
  split.
  - exists k'. by rewrite lookup_app_l.
  - intros j k'' Hj. rewrite lookup_app_l by lia. by apply Hmin.
Qed.

Lemma seen_step_extends seen k : ∃ more, seen_step seen k = seen ++ more.
Proof.
  unfold seen_step. destruct (existsb _ seen).
  - exists []. by rewrite app_nil_r.
  - by exists [k].
Qed.

Lemma foldl_seen_step_extends ks : ∀ seen, ∃ more, foldl seen_step seen ks = seen ++ more.
Proof.
  induction ks as [|k ks IH]; intros seen; simpl.
  - exists []. by rewrite app_nil_r.
  - destruct (seen_step_extends seen k) as [m1 ->].
    destruct (IH (seen ++ m1)) as [m2 ->]. exists (m1 ++ m2). by rewrite app_assoc.
Qed.

(** One vertex: its index is that of its key among the keys seen so far, the
    key included. *)
Lemma index_vertex_run h v o cell seen count :
  vertex_objs h !! v = Some o →
  key_is_number (vertex_key o) →
  ∃ i, CSG.index_vertex (cell, dict_of seen, count) v h
       = Some ((cell ++ [i], dict_of (seen_step seen (vertex_key o)), count + 1), h)
       ∧ first_index_of (seen_step seen (vertex_key o)) (vertex_key o) i.
Proof.
  intros Hv Hnum. unfold CSG.index_vertex.
  erewrite bind_eq; last by (unfold get_vertex; rewrite Hv).
  fold (vertex_key o). unfold seen_step.
  destruct (vdict_get (dict_of seen) (vertex_key o)) as [i|] eqn:Hget.
  - rewrite (vdict_get_dict_of_exists _ _ _ Hget).
    exists i. split; [done|]. by apply vdict_get_dict_of_Some.
  - pose proof (vdict_get_dict_of_None _ _ Hget) as Hex. rewrite Hex.
    exists (length seen). rewrite length_dict_of, dict_of_snoc. split; [done|].
    split.
    + exists (vertex_key o). by rewrite lookup_app_r, Nat.sub_diag by lia.
    + intros j k' Hj. rewrite lookup_app_l by lia. intros Hk'.
      destruct (vkey_eqb k' (vertex_key o)) eqn:E; [|done].
      assert (existsb (λ k', vkey_eqb k' (vertex_key o)) seen = true) as Hex'; [|congruence].
      apply existsb_exists. exists k'. split; [|done].
      apply list_elem_of_In. by eapply list_elem_of_lookup_2.
Qed.

(** The inner loop, over the vertices of one polygon. *)
Lemma index_vertices_run h vs : ∀ os cell seen count,
  mapM (λ v, vertex_objs h !! v) vs = Some os →
  Forall (λ o, key_is_number (vertex_key o)) os →
  ∃ idxs,
    foldM CSG.index_vertex (cell, dict_of seen, count) vs h
    = Some ((cell ++ idxs, dict_of (foldl seen_step seen (vertex_key <$> os)),
             count + length vs), h)
    ∧ Forall2 (first_index_of (foldl seen_step seen (vertex_key <$> os)))
        (vertex_key <$> os) idxs.
Proof.
  induction vs as [|v vs IH]; intros os cell seen count Hos Hnum.
  - apply mapM_Some, Forall2_nil_inv_l in Hos as ->. exists []. simpl.
    rewrite app_nil_r, Nat.add_0_r. by split.
  - apply mapM_cons_Some in Hos as (o & os' & Hv & Hos & ->).
    apply Forall_cons in Hnum as [Hnum Hnums].
    destruct (index_vertex_run h v o cell seen count Hv Hnum) as (i & Hrun & Hi).
    destruct (IH os' (cell ++ [i]) (seen_step seen (vertex_key o)) (count + 1) Hos Hnums)
      as (idxs & Hrun' & His).
    exists (i :: idxs). rewrite fmap_cons. cbn [foldl foldM].
    rewrite (bind_eq _ _ _ _ _ Hrun), Hrun'.
    split.
    + do 3 f_equal; [by rewrite <- app_assoc|simpl; lia].
    + constructor; [|done].
      destruct (foldl_seen_step_extends (vertex_key <$> os') (seen_step seen (vertex_key o)))
        as [more ->]. by apply first_index_of_app.
Qed.

Lemma insert_by_index_last e acc :
  Forall (λ e', snd e' ≤ snd e) acc → insert_by_index e acc = acc ++ [e].
Proof.
  induction acc as [|e' acc IH]; intros H; simpl; [done|].
  apply Forall_cons in H as [He' H].
  rewrite (proj2 (Nat.ltb_ge _ _)) by done. by rewrite IH.
Qed.

Lemma sorted_by_index_zip_seq (keys : list vkey) : ∀ s (acc : list (vkey * nat)),
  Forall (λ e, snd e < s) acc →
  foldl (λ acc e, insert_by_index e acc) acc (zip keys (seq s (length keys)))
  = acc ++ zip keys (seq s (length keys)).
Proof.
  induction keys as [|k keys IH]; intros s acc Hacc; simpl.
  - by rewrite app_nil_r.
  - rewrite insert_by_index_last.
    + rewrite IH.
      * by rewrite <- app_assoc.
      * apply Forall_app. split.
        -- eapply Forall_impl; [done|]. simpl. lia.
        -- apply Forall_singleton. simpl. lia.
    + eapply Forall_impl; [done|]. simpl. lia.
Qed.

(** The dict holds its keys in index order already. *)
Lemma sorted_by_index_dict_of keys : sorted_by_index (dict_of keys) = dict_of keys.
Proof. unfold sorted_by_index, dict_of. by rewrite sorted_by_index_zip_seq. Qed.

Lemma polygon_value_at_Some h p pv :
  polygon_value_at h p = Some pv →
  ∃ o, polygon_objs h !! p = Some o
       ∧ mapM (λ v, vertex_objs h !! v) (vertices o) = Some (pv_vertices pv)
       ∧ plane o = pv_plane pv.
Proof.
  unfold polygon_value_at. intros H.
  destruct (polygon_objs h !! p) as [o|]; simplify_eq/=.
  destruct (mapM _ (vertices o)) as [vs|] eqn:Hvs; simplify_eq/=. by exists o.
Qed.

(** The outer loop, over the polygons. *)
Lemma index_polygons_run h ps : ∀ pvs polys seen count,
  Forall2 (λ p pv, polygon_value_at h p = Some pv) ps pvs →
  Forall (λ pv, Forall (λ o, key_is_number (vertex_key o)) (pv_vertices pv)) pvs →
  ∃ cells,
    foldM CSG.index_polygon (polys, dict_of seen, count) ps h
    = Some ((polys ++ cells,
             dict_of (foldl seen_step seen (concat (polygon_keys <$> pvs))),
             count + sum_list (length <$> cells)), h)
    ∧ Forall2 (Forall2 (first_index_of
                 (foldl seen_step seen (concat (polygon_keys <$> pvs)))))
        (polygon_keys <$> pvs) cells.
Proof.
  induction ps as [|p ps IH]; intros pvs polys seen count Hps Hnum.
  - apply Forall2_nil_inv_l in Hps as ->. exists []. simpl.
    rewrite app_nil_r, Nat.add_0_r. by split.
  - apply Forall2_cons_inv_l in Hps as (pv & pvs' & Hp & Hps & ->).
    apply Forall_cons in Hnum as [Hnum Hnums].
    apply polygon_value_at_Some in Hp as (o & Ho & Hvs & _).
    destruct (index_vertices_run h (vertices o) (pv_vertices pv) [] seen count Hvs Hnum)
      as (idxs & Hrun & Hidx).
    fold (polygon_keys pv) in Hrun, Hidx.
    destruct (IH pvs' (polys ++ [idxs]) (foldl seen_step seen (polygon_keys pv))
                (count + length (vertices o)) Hps Hnums) as (cells & Hrun' & Hcells).
    exists (idxs :: cells). rewrite fmap_cons. cbn [concat foldM].
    rewrite foldl_app.
    assert (CSG.index_polygon (polys, dict_of seen, count) p h
            = Some ((polys ++ [idxs], dict_of (foldl seen_step seen (polygon_keys pv)),
                     count + length (vertices o)), h)) as Hrun0.
    { unfold CSG.index_polygon.
      erewrite bind_eq; last by (unfold get_polygon; rewrite Ho).
      by rewrite (bind_eq _ _ _ _ _ Hrun). }
    rewrite (bind_eq _ _ _ _ _ Hrun0), Hrun'.
    split.
    + do 3 f_equal; [by rewrite <- app_assoc|].
      rewrite fmap_cons. simpl.
      apply Forall2_length in Hidx. unfold polygon_keys in Hidx.
      rewrite length_fmap in Hidx.
      apply length_mapM in Hvs. lia.
    + constructor; [|done].
      destruct (foldl_seen_step_extends (concat (polygon_keys <$> pvs'))
                  (foldl seen_step seen (polygon_keys pv))) as [more ->].
      eapply Forall2_impl; [done|]. intros k i. apply first_index_of_app.
Qed.

(** C6: for every solid of the store whose vertex coordinates are numbers,
    [toVerticesAndPolygons] returns [(verts, cells, count)] where [verts]
    lists the distinct position triples (compared by equality, no
    tolerance) in first-seen order, the index of a triple being its place in
    [verts]; each cell lists, in order, the indices of the corresponding
    polygon's vertices; and [count] is the sum of the cell lengths.  The
    store is left as it was. *)
Theorem toVerticesAndPolygons_spec (h : heap) (self : loc) (pvs : list polygon_value) :
  solid_value h self = Some pvs →
  Forall (λ pv, Forall (λ o, key_is_number (vertex_key o)) (pv_vertices pv)) pvs →
  ∃ verts cells count,
    CSG.toVerticesAndPolygons self h = Some ((verts, cells, count), h)
    ∧ verts = first_seen (concat (polygon_keys <$> pvs))
    ∧ Forall2 (Forall2 (first_index_of verts)) (polygon_keys <$> pvs) cells
    ∧ count = sum_list (length <$> cells).
Proof.
  intros Hval Hnum. unfold solid_value, list_value_at in Hval.
  destruct (csg_objs h !! self) as [l|] eqn:Hc; simplify_eq/=.
  destruct (list_objs h !! l) as [ps|] eqn:Hl; simplify_eq/=.
  apply mapM_Some in Hval.
  destruct (index_polygons_run h ps pvs [] [] 0 Hval Hnum) as (cells & Hrun & Hcells).
  exists (first_seen (concat (polygon_keys <$> pvs))), cells, (sum_list (length <$> cells)).
  split; [|done].
  unfold CSG.toVerticesAndPolygons.
  erewrite bind_eq; last by (unfold get_csg; rewrite Hc).
  erewrite bind_eq; last by (unfold get_list; rewrite Hl).
  change (@nil (vkey * nat)) with (dict_of []).
  rewrite (bind_eq _ _ _ _ _ Hrun). simpl.
  rewrite sorted_by_index_dict_of. unfold ret.
  change (map fst ?l) with (l.*1). by rewrite fst_dict_of.
Qed.

Lemma toVerticesAndPolygons_spec_witness :
  ∃ verts cells count,
    CSG.toVerticesAndPolygons 0 tri_heap = Some ((verts, cells, count), tri_heap)
    ∧ verts = first_seen (concat (polygon_keys <$> tri_value))
    ∧ Forall2 (Forall2 (first_index_of verts)) (polygon_keys <$> tri_value) cells
    ∧ count = sum_list (length <$> cells).
Proof.
  apply (toVerticesAndPolygons_spec tri_heap 0 tri_value).
  - reflexivity.
  - repeat constructor.
Defined.

(** ** [saveVTK] *)

Lemma str_app_assoc (a b c : string) : ((a ++ b) ++ c = a ++ (b ++ c))%string.
Proof. induction a as [|x a IH]; simpl; [done|]. by rewrite IH. Qed.

Lemma str_app_nil_r (a : string) : (a ++ "" = a)%string.
Proof. induction a as [|x a IH]; simpl; [done|]. by rewrite IH. Qed.

(** A loop of writes appends the concatenation of what it writes. *)
Lemma foldl_write {A} (g : A → string) (l : list A) : ∀ f : string,
  foldl (λ f a, (f ++ g a)%string) f l = (f ++ str_concat (g <$> l))%string.
Proof.
  induction l as [|a l IH]; intros f; simpl.
  - by rewrite str_app_nil_r.
  - by rewrite IH, str_app_assoc.
Qed.

Lemma foldl_ext_in {A B} (f g : B → A → B) (l : list A) :
  (∀ b a, f b a = g b a) → ∀ b, foldl f b l = foldl g b l.
Proof.
  intros Hfg. induction l as [|a l IH]; intros b; simpl; [done|].
  by rewrite Hfg, IH.
Qed.

(** What [saveVTK] writes, from what [toVerticesAndPolygons] returns. *)
Lemma saveVTK_eq float_str self h :
  CSG.saveVTK float_str self h
  = ('(verts, cells, count) <- CSG.toVerticesAndPolygons self ;;
     ret (vtk_text float_str verts cells count)) h.
Proof.
  unfold CSG.saveVTK, bind.
  destruct (CSG.toVerticesAndPolygons self h) as [[[[verts cells] count] h']|]; [|done].
  unfold ret. do 2 f_equal.
  unfold vtk_text, vtk_file.
  rewrite (foldl_ext_in _ (λ f v, (f ++ point_line float_str v)%string))
    by (by intros f [[v0 v1] v2]).
  rewrite foldl_write.
  rewrite (foldl_ext_in _ (λ f cell, (f ++ cell_record cell)%string)).
  - rewrite foldl_write. rewrite !str_app_assoc.
    by change ("" ++ ?s)%string with s.
  - intros f cell. rewrite foldl_write. unfold cell_record.
    by rewrite !str_app_assoc.
Qed.

(** C7 (amended): the text written by [saveVTK] is the four header lines
    ['# vtk DataFile Version 3.0'], ['pycsg output'], ['ASCII'],
    ['DATASET POLYDATA'], then ['POINTS n float'] and the n lines ['x y z'],
    then ['POLYGONS numCells (count + numCells)'] and, for each cell, its
    count followed by a space and a line feed and each of its indices
    followed by a space and a line feed. *)
Theorem saveVTK_text (float_str : float → string) (self : loc) (h h' : heap)
    (verts : list vkey) (cells : list (list nat)) (count : nat) :
  CSG.toVerticesAndPolygons self h = Some ((verts, cells, count), h') →
  CSG.saveVTK float_str self h = Some (vtk_text float_str verts cells count, h').
Proof.
  intros H. rewrite saveVTK_eq. by rewrite (bind_eq _ _ _ _ _ H).
Qed.

Lemma saveVTK_text_witness :
  CSG.saveVTK (λ _, "0.0"%string) 0 tri_heap
  = Some (vtk_text (λ _, "0.0"%string) tri_verts tri_cells 3, tri_heap).
Proof.
  apply (saveVTK_text (λ _, "0.0"%string) 0 tri_heap tri_heap tri_verts tri_cells 3).
  reflexivity.
Defined.

Lemma str_length_app (a b : string) :
  String.length (a ++ b) = String.length a + String.length b.
Proof. induction a as [|x a IH]; simpl; [done|]. by rewrite IH. Qed.

Lemma last2_cons x (s : string) : 2 ≤ String.length s → last2 (String x s) = last2 s.
Proof. destruct s as [|y [|z s]]; simpl; intros; done || lia. Qed.

Lemma last2_app (a b : string) :
  2 ≤ String.length b → last2 (a ++ b) = last2 b.
Proof.
  intros Hb. induction a as [|x a IH]; [done|].
  change (String x a ++ b)%string with (String x (a ++ b)).
  rewrite last2_cons; [done|]. rewrite str_length_app. lia.
Qed.

(** A file with at least one cell ends as the record of its last cells. *)
Lemma last2_vtk_file float_str title record verts cells count :
  2 ≤ String.length (str_concat (record <$> cells)) →
  last2 (vtk_file float_str title record verts cells count)
  = last2 (str_concat (record <$> cells)).
Proof.
  intros Hlen. unfold vtk_file.
  rewrite <- !str_app_assoc. by apply last2_app.
Qed.

(** C7 (counterexample): for the triangle solid, whatever the formatting of
    floats and whatever the title line, the written text is not of the form
    the claim gives: the record of the cell is ['3 \n0 \n1 \n2 \n'], each
    number followed by a space, and not ['3\n 0\n 1\n 2\n']. *)
Lemma saveVTK_cell_record_counterexample :
  ¬ ∃ (float_str : float → string) (title : string),
      CSG.saveVTK float_str 0 tri_heap
      = Some (claimed_vtk_text float_str title tri_verts tri_cells 3, tri_heap).
Proof.
  intros (float_str & title & H).
  assert (CSG.toVerticesAndPolygons 0 tri_heap
          = Some ((tri_verts, tri_cells, 3), tri_heap)) as Hv by reflexivity.
  rewrite saveVTK_eq, (bind_eq _ _ _ _ _ Hv) in H. unfold ret in H.
  assert (last2 (vtk_text float_str tri_verts tri_cells 3)
          = last2 (claimed_vtk_text float_str title tri_verts tri_cells 3)) as E
    by congruence.
  unfold vtk_text, claimed_vtk_text in E.
  rewrite !last2_vtk_file in E by (vm_compute; lia).
  vm_compute in E. discriminate E.
Qed.

(** ** [translate] *)

Lemma list_insert_alter {A} (f : A → A) (l : list A) i x :
  l !! i = Some x → <[i := f x]> l = alter f i l.
Proof.
  intros Hi. apply list_eq. intros j.
  destruct (decide (j = i)) as [->|Hne].
  - rewrite list_lookup_insert_eq by by eapply lookup_lt_Some.
    by rewrite list_lookup_alter_eq, Hi.
  - by rewrite list_lookup_insert_ne, list_lookup_alter_ne by done.
Qed.

(** A loop that assigns to a field of each vertex of a list. *)
Lemma forM_update_vertices (f : vertex → vertex) (vs : list loc) : ∀ h,
  Forall (λ v, v < length (vertex_objs h)) vs →
  forM_ vs (λ v, ov <- get_vertex v ;; put_vertex v (f ov)) h
  = Some (tt, set_vertex_objs h (foldl (λ V v, alter f v V) (vertex_objs h) vs)).
Proof.
  induction vs as [|v vs IH]; intros h Hvs; simpl.
  - unfold ret, set_vertex_objs. by rewrite heap_eta.
  - apply Forall_cons in Hvs as [Hv Hvs].
    destruct (lookup_lt_is_Some_2 _ _ Hv) as [o Ho].
    erewrite bind_eq; last first.
    { erewrite bind_eq; last by (unfold get_vertex; rewrite Ho).
      unfold put_vertex. rewrite decide_True by done.
      by rewrite (list_insert_alter _ _ _ _ Ho). }
    rewrite IH; [done|]. heap_simpl. by rewrite length_alter.
Qed.

Lemma foldl_alter_length {A} (f : A → A) (vs : list nat) : ∀ V : list A,
  length (foldl (λ V v, alter f v V) V vs) = length V.
Proof.
  induction vs as [|v vs IH]; intros V; simpl; [done|].
  by rewrite IH, length_alter.
Qed.

Lemma foldl_alter_app {A} (f : A → A) (vs ws : list nat) (V : list A) :
  foldl (λ V v, alter f v V) V (vs ++ ws)
  = foldl (λ V v, alter f v V) (foldl (λ V v, alter f v V) V vs) ws.
Proof. apply foldl_app. Qed.

(** The two nested loops of [translate]. *)
Lemma forM_update_polygon_vertices (f : vertex → vertex) (ps : list loc) : ∀ h os,
  mapM (λ p, polygon_objs h !! p) ps = Some os →
  Forall (λ v, v < length (vertex_objs h)) (concat (vertices <$> os)) →
  forM_ ps (λ poly, o <- get_polygon poly ;;
                    forM_ (vertices o) (λ v, ov <- get_vertex v ;; put_vertex v (f ov))) h
  = Some (tt, set_vertex_objs h
                (foldl (λ V v, alter f v V) (vertex_objs h) (concat (vertices <$> os)))).
Proof.
  induction ps as [|p ps IH]; intros h os Hos Hvs.
  - apply mapM_Some, Forall2_nil_inv_l in Hos as ->. simpl.
    unfold ret, set_vertex_objs. by rewrite heap_eta.
  - apply mapM_cons_Some in Hos as (o & os' & Ho & Hos & ->).
    rewrite fmap_cons in *. cbn [concat] in *.
    apply Forall_app in Hvs as [Hv Hvs].
    cbn [forM_].
    erewrite bind_eq; last first.
    { erewrite bind_eq; last by (unfold get_polygon; rewrite Ho).
      by apply forM_update_vertices. }
    rewrite (IH _ os').
    + heap_simpl. by rewrite foldl_alter_app.
    + done.
    + heap_simpl. eapply Forall_impl; [done|]. simpl. intros v.
      by rewrite foldl_alter_length.
Qed.

Lemma foldl_alter_lookup_notin {A} (f : A → A) (vs : list nat) : ∀ (V : list A) v,
  v ∉ vs → foldl (λ V v, alter f v V) V vs !! v = V !! v.
Proof.
  induction vs as [|w vs IH]; intros V v Hv; simpl; [done|].
  apply not_elem_of_cons in Hv as [Hne Hv].
  rewrite IH by done. by rewrite list_lookup_alter_ne.
Qed.

Lemma foldl_alter_lookup_in {A} (f : A → A) (vs : list nat) : ∀ (V : list A) v,
  NoDup vs → v ∈ vs → foldl (λ V v, alter f v V) V vs !! v = f <$> V !! v.
Proof.
  induction vs as [|w vs IH]; intros V v Hnd Hv; simpl.
  - by apply elem_of_nil in Hv.
  - apply NoDup_cons in Hnd as [Hw Hnd].
    apply elem_of_cons in Hv as [->|Hv].
    + rewrite foldl_alter_lookup_notin by done. by rewrite list_lookup_alter_eq.
    + rewrite IH by done. rewrite list_lookup_alter_ne; [done|].
      intros ->. done.
Qed.

Lemma solid_value_Some h c pvs :
  solid_value h c = Some pvs →
  ∃ l ps, csg_objs h !! c = Some l ∧ list_objs h !! l = Some ps
          ∧ Forall2 (λ p pv, polygon_value_at h p = Some pv) ps pvs.
Proof.
  unfold solid_value, list_value_at. intros H.
  destruct (csg_objs h !! c) as [l|] eqn:Hc; simplify_eq/=.
  destruct (list_objs h !! l) as [ps|] eqn:Hl; simplify_eq/=.
  exists l, ps. split; [done|]. split; [done|]. by apply mapM_Some.
Qed.

Lemma polygon_values_objs h ps pvs :
  Forall2 (λ p pv, polygon_value_at h p = Some pv) ps pvs →
  ∃ os, mapM (λ p, polygon_objs h !! p) ps = Some os
        ∧ Forall2 (λ o pv, mapM (λ v, vertex_objs h !! v) (vertices o)
                            = Some (pv_vertices pv)
                           ∧ plane o = pv_plane pv) os pvs.
Proof.
  induction 1 as [|p pv ps pvs Hp _ (os & Hos & Hval)].
  - by exists [].
  - apply polygon_value_at_Some in Hp as (o & Ho & Hvs & Hpl).
    exists (o :: os). split; [|by constructor].
    apply mapM_cons_Some. by exists o, os.
Qed.

Lemma elem_of_concat {A} (x : A) (ls : list (list A)) :
  x ∈ concat ls ↔ ∃ l, l ∈ ls ∧ x ∈ l.
Proof.
  rewrite list_elem_of_In, in_concat. split.
  - intros (l & ? & ?). exists l. by rewrite !list_elem_of_In.
  - intros (l & ? & ?). exists l. by rewrite <- !list_elem_of_In.
Qed.

(** The vertices of a polygon after the loops. *)
Lemma moved_vertices_lookup (f : vertex → vertex) (V : list vertex) (refs vs : list loc) ovs :
  NoDup refs → vs ⊆ refs →
  Forall2 (λ v ov, V !! v = Some ov) vs ovs →
  Forall2 (λ v ov, foldl (λ V v0, alter f v0 V) V refs !! v = Some (f ov)) vs ovs.
Proof.
  intros Hnd Hsub Hvs. induction Hvs as [|v ov vs ovs Hv _ IH]; constructor.
  - rewrite foldl_alter_lookup_in; [by rewrite Hv|done|]. apply Hsub. by left.
  - apply IH. intros w Hw. apply Hsub. by right.
Qed.

(** C10 (amended): for every solid of the store whose polygons share no
    Vertex object and every displacement, [translate] succeeds and works in
    place: the polygon objects (their vertex references and their stored
    planes), the lists and the solids are as they were; every vertex of the
    solid has its position replaced by the float sum of the position and
    [d] and its normal unchanged; no other Vertex object is touched.  So
    the stored plane of a polygon is the plane of the positions before the
    translate, and the positions it is compared with afterwards are the
    sums. *)
Theorem translate_in_place (h : heap) (self : loc) (disp : list float)
    (d0 d1 d2 : float) (pvs : list polygon_value) (refs : list loc) :
  disp !! 0 = Some d0 → disp !! 1 = Some d1 → disp !! 2 = Some d2 →
  solid_value h self = Some pvs →
  solid_vertex_refs h self = Some refs →
  NoDup refs →
  ∃ h', CSG.translate self disp h = Some (tt, h')
        ∧ polygon_objs h' = polygon_objs h
        ∧ list_objs h' = list_objs h
        ∧ csg_objs h' = csg_objs h
        ∧ solid_value h' self = Some (moved_polygon (Vector.mk d0 d1 d2) <$> pvs)
        ∧ ∀ v, v ∉ refs → vertex_objs h' !! v = vertex_objs h !! v.
Proof.
  intros H0 H1 H2 Hval Hrefs Hnd.
  destruct (solid_value_Some _ _ _ Hval) as (l & ps & Hc & Hl & Hps).
  destruct (polygon_values_objs _ _ _ Hps) as (os & Hos & Hvals).
  unfold solid_vertex_refs in Hrefs. rewrite Hc in Hrefs. simpl in Hrefs.
  rewrite Hl in Hrefs. simpl in Hrefs. rewrite Hos in Hrefs. simplify_eq/=.
  set (d := Vector.mk d0 d1 d2).
  assert (Forall (λ v, v < length (vertex_objs h)) (concat (vertices <$> os))) as Hlt.
  { clear -Hvals. induction Hvals as [|o pv os pvs [Hvs _] _ IH]; [constructor|].
    rewrite fmap_cons. cbn [concat]. apply Forall_app. split; [|done].
    apply mapM_Some in Hvs. clear -Hvs.
    induction Hvs as [|v ov vs ovs Hv _ IH]; constructor; [|done].
    by eapply lookup_lt_Some. }
  eexists. split; [|split; [|split; [|split; [|split]]]].
  - unfold CSG.translate, bind at 1, lift_option at 1. rewrite H0.
    unfold bind at 1, lift_option at 1. rewrite H1.
    unfold bind at 1, lift_option at 1. rewrite H2.
    erewrite bind_eq; last by (unfold get_csg; rewrite Hc).
    erewrite bind_eq; last by (unfold get_list; rewrite Hl).
    by apply (forM_update_polygon_vertices (moved d)).
  - done.
  - done.
  - done.
  - unfold solid_value. simpl. rewrite Hc. simpl. unfold list_value_at. simpl.
    rewrite Hl. simpl. apply mapM_Some, Forall2_fmap_r.
    assert (∀ o, o ∈ os → vertices o ⊆ concat (vertices <$> os)) as Hsub.
    { intros o Ho v Hv. apply elem_of_concat. exists (vertices o).
      split; [|done]. by apply list_elem_of_fmap_2. }
    apply mapM_Some in Hos.
    clear Hlt Hps. revert Hnd Hsub Hos. generalize (concat (vertices <$> os)) as refs.
    intros refs Hnd Hsub0 Hos0.
    assert (Forall2 (λ p pv, ∃ o, o ∈ os ∧ polygon_objs h !! p = Some o
                              ∧ mapM (λ v, vertex_objs h !! v) (vertices o)
                                = Some (pv_vertices pv)
                              ∧ plane o = pv_plane pv) ps pvs) as Hall.
    { clear -Hos0 Hvals. revert pvs Hvals.
      induction Hos0 as [|p o ps os Hp _ IH]; intros pvs Hvals.
      - apply Forall2_nil_inv_l in Hvals as ->. constructor.
      - apply Forall2_cons_inv_l in Hvals as (pv & pvs' & [Hv Hpl] & Hvals & ->).
        constructor.
        + exists o. split; [by left|done].
        + eapply Forall2_impl; [by apply IH|]. simpl.
          intros p' pv' (o' & ? & ?). exists o'. split; [by right|done]. }
    eapply Forall2_impl; [exact Hall|]. simpl.
    intros p pv (o & Hin & Ho & Hvs & Hpl).
    unfold polygon_value_at. simpl. rewrite Ho. simpl.
    assert (mapM (λ v, foldl (λ V v0, alter (moved d) v0 V) (vertex_objs h) refs !! v)
              (vertices o) = Some (moved d <$> pv_vertices pv)) as ->.
    { apply mapM_Some, Forall2_fmap_r. apply mapM_Some in Hvs.
      by apply moved_vertices_lookup; [|apply Hsub0|]. }
    simpl. unfold moved_polygon. by rewrite Hpl.
  - intros v Hv. simpl. by apply foldl_alter_lookup_notin.
Qed.

Lemma translate_in_place_witness :
  ∃ h', CSG.translate 0 [0; 0; 1]%float tri_heap = Some (tt, h')
        ∧ polygon_objs h' = polygon_objs tri_heap
        ∧ list_objs h' = list_objs tri_heap
        ∧ csg_objs h' = csg_objs tri_heap
        ∧ solid_value h' 0 = Some (moved_polygon (Vector.mk 0 0 1) <$> tri_value)
        ∧ ∀ v, v ∉ [0; 1; 2] → vertex_objs h' !! v = vertex_objs tri_heap !! v.
Proof.
  apply (translate_in_place tri_heap 0 [0; 0; 1]%float 0 0 1 tri_value [0; 1; 2]);
    try reflexivity.
  apply (bool_decide_unpack _). vm_compute. exact I.
Defined.

(** The stored plane goes stale: the triangle of the plane z = 0 moved by
    (0, 0, 1) keeps the plane z = 0, which none of its vertices satisfies
    any more. *)
Lemma translate_leaves_plane_stale :
  ∃ h', CSG.translate 0 [0; 0; 1]%float tri_heap = Some (tt, h')
        ∧ polygon_objs h' !! 0
          = Some (Polygon_obj [0; 1; 2] (Plane.mk (Vector.mk 0 0 1) 0))
        ∧ Forall (λ v, satisfies_plane (Plane.mk (Vector.mk 0 0 1) 0) (pos v) = false)
            (vertex_objs h').
Proof.
  eexists. split; [vm_compute; reflexivity|]. split; [reflexivity|].
  repeat constructor.
Qed.

(** C10 (counterexample): the triangle of the plane z = 1 translated by
    (0, 0, 2^-70).  The displacement is not parallel to the plane, yet each
    float sum 1 + 2^-70 is 1: the positions are what they were and every
    vertex still satisfies the stored plane equation, exactly and hence
    within the tolerance. *)
Lemma translate_tiny_counterexample :
  ∃ h', CSG.translate 0 tiny_disp tri1_heap = Some (tt, h')
        ∧ parallel_to_plane tri1_plane (Vector.mk 0 0 0x1p-70) = false
        ∧ polygon_objs h' !! 0 = Some (Polygon_obj [0; 1; 2] tri1_plane)
        ∧ Forall (λ v, satisfies_plane_exactly tri1_plane (pos v) = true
                       ∧ satisfies_plane tri1_plane (pos v) = true)
            (vertex_objs h').
Proof.
  eexists. split; [vm_compute; reflexivity|]. split; [reflexivity|].
  split; [reflexivity|]. repeat constructor.
Qed.

(** ** The Boolean operations follow the specified sequences *)

(** Steps through two computations that do the same calls in the same
    order. *)
Ltac step_both :=
  unfold bind, ret; simpl;
  repeat match goal with
  | |- context [match ?m ?h with Some _ => _ | None => _ end] =>
      lazymatch m with
      | context [match _ with _ => _ end] => fail
      | _ => destruct (m h) as [[? ?]|]; simpl; [|reflexivity]
      end
  end;
  try reflexivity.

(** [union] written as a run of its list of tree operations. *)
Lemma union_as_sequence (fuel : nat) (A B : loc) (h : heap) :
  CSG.union fuel A B h = boolean_operation fuel union_sequence A B h.
Proof.
  unfold CSG.union, boolean_operation, union_sequence.
  cbn [foldM run_tree_op get_tree set_tree fst snd].
  step_both.
Qed.

(** C2: [union] does exactly the specified sequence: it clones both
    operands, builds [a] and [b] from the clones, then runs
    [a.clipTo(b); b.clipTo(a); b.invert(); b.clipTo(a); b.invert();
    a.build(b.allPolygons())], in that order and nothing else, and returns
    a new solid from [a.allPolygons()]. *)
Theorem union_follows_sequence (fuel : nat) (A B : loc) (h : heap) :
  CSG.union fuel A B h = boolean_operation fuel union_sequence A B h.
Proof.
  unfold CSG.union, boolean_operation, union_sequence.
  cbn [foldM run_tree_op get_tree set_tree fst snd].
  step_both.
Qed.

Lemma subtract_follows_sequence (fuel : nat) (A B : loc) (h : heap) :
  CSG.subtract fuel A B h = boolean_operation fuel subtract_sequence A B h.
Proof.
  unfold CSG.subtract, boolean_operation, subtract_sequence.
  cbn [foldM run_tree_op get_tree set_tree fst snd].
  step_both.
Qed.

Lemma intersect_follows_sequence (fuel : nat) (A B : loc) (h : heap) :
  CSG.intersect fuel A B h = boolean_operation fuel intersect_sequence A B h.
Proof.
  unfold CSG.intersect, boolean_operation, intersect_sequence.
  cbn [foldM run_tree_op get_tree set_tree fst snd].
  step_both.
Qed.

(** ** The footprint of the geometry layer *)

Lemma op_inv_refl h : op_inv h h.
Proof.
  split; [done|]. intros p o Hp Ho. apply lookup_lt_Some in Ho. lia.
Qed.

Lemma grows_refl h : grows h h.
Proof. by split. Qed.

Lemma grows_trans h1 h2 h3 : grows h1 h2 → grows h2 h3 → grows h1 h3.
Proof. unfold grows. lia. Qed.

Lemma fresh_vertex_grows h0 h h' v :
  grows h h' → fresh_vertex h0 h v → fresh_vertex h0 h' v.
Proof. unfold grows, fresh_vertex. lia. Qed.

Lemma fresh_polygon_grows h0 h h' p :
  grows h h' → fresh_polygon h0 h p → fresh_polygon h0 h' p.
Proof. unfold grows, fresh_polygon. lia. Qed.

Lemma fresh_vertices_grows h0 h h' vs :
  grows h h' → Forall (fresh_vertex h0 h) vs → Forall (fresh_vertex h0 h') vs.
Proof.
  intros ? H. eapply Forall_impl; [exact H|]. eauto using fresh_vertex_grows.
Qed.

Lemma fresh_polygons_grows h0 h h' ps :
  grows h h' → Forall (fresh_polygon h0 h) ps → Forall (fresh_polygon h0 h') ps.
Proof.
  intros ? H. eapply Forall_impl; [exact H|]. eauto using fresh_polygon_grows.
Qed.

Lemma fresh_tree_grows h0 h h' t :
  grows h h' → fresh_tree h0 h t → fresh_tree h0 h' t.
Proof. apply fresh_polygons_grows. Qed.

Lemma op_inv_vertices h0 h p o :
  op_inv h0 h → fresh_polygon h0 h p → polygon_objs h !! p = Some o →
  Forall (fresh_vertex h0 h) (vertices o).
Proof. intros [_ H] [Hp _] Ho. by eapply H. Qed.

Lemma op_inv_lengths h0 h : op_inv h0 h → grows h0 h.
Proof. intros [(Hv & Hp & _) _]. split; by apply prefix_length. Qed.

(** *** Creation and assignment *)

Lemma alloc_vertex_inv h0 h o v h' :
  op_inv h0 h → alloc_vertex o h = Some (v, h') →
  op_inv h0 h' ∧ grows h h' ∧ fresh_vertex h0 h' v.
Proof.
  intros Hinv [= <- <-]. pose proof (op_inv_lengths _ _ Hinv) as [Hl _].
  destruct Hinv as [(Hv & Hp & Hl' & Hc) Hcl].
  assert (grows h (set_vertex_objs h (vertex_objs h ++ [o]))) as Hg.
  { split; heap_simpl; [rewrite length_app|]; lia. }
  split; [|split; [done|]].
  - split.
    + repeat split; heap_simpl; try done. by apply prefix_app_r.
    + intros p o' Hp' Ho'. eapply fresh_vertices_grows; [done|]. by eapply Hcl.
  - unfold fresh_vertex. heap_simpl. rewrite length_app. simpl. lia.
Qed.

Lemma alloc_polygon_inv h0 h o p h' :
  op_inv h0 h → Forall (fresh_vertex h0 h) (vertices o) →
  alloc_polygon o h = Some (p, h') →
  op_inv h0 h' ∧ grows h h' ∧ fresh_polygon h0 h' p.
Proof.
  intros Hinv Hvs [= <- <-]. pose proof (op_inv_lengths _ _ Hinv) as [_ Hl].
  destruct Hinv as [(Hv & Hp & Hl' & Hc) Hcl].
  split; [|split].
  - split.
    + repeat split; heap_simpl; try done. by apply prefix_app_r.
    + intros q o' Hq. heap_simpl. intros Ho'.
      apply lookup_app_Some in Ho' as [Ho'|[_ Ho']].
      * by eapply Hcl.
      * apply list_lookup_singleton_Some in Ho' as [_ <-]. done.
  - split; heap_simpl; [|rewrite length_app]; lia.
  - unfold fresh_polygon. heap_simpl. rewrite length_app. simpl. lia.
Qed.

Lemma put_vertex_inv h0 h v o h' :
  op_inv h0 h → fresh_vertex h0 h v → put_vertex v o h = Some (tt, h') →
  op_inv h0 h' ∧ grows h h'.
Proof.
  intros [(Hv & Hp & Hl & Hc) Hcl] [Hlo Hhi]. unfold put_vertex.
  rewrite decide_True by done. intros [= <-].
  split; [split|].
  - repeat split; heap_simpl; try done. by apply prefix_insert_ge.
  - intros p o' Hp' Ho'. heap_simpl.
    eapply Forall_impl; [by eapply Hcl|]. unfold fresh_vertex. simpl.
    intros w. by rewrite length_insert.
  - split; heap_simpl; [rewrite length_insert|]; lia.
Qed.

Lemma put_polygon_inv h0 h p o h' :
  op_inv h0 h → fresh_polygon h0 h p → Forall (fresh_vertex h0 h) (vertices o) →
  put_polygon p o h = Some (tt, h') →
  op_inv h0 h' ∧ grows h h'.
Proof.
  intros [(Hv & Hp & Hl & Hc) Hcl] [Hlo Hhi] Hvs. unfold put_polygon.
  rewrite decide_True by done. intros [= <-].
  split; [split|].
  - repeat split; heap_simpl; try done. by apply prefix_insert_ge.
  - intros q o' Hq. heap_simpl. intros Ho'.
    destruct (decide (q = p)) as [->|Hne].
    + rewrite list_lookup_insert_eq in Ho' by done. by simplify_eq.
    + rewrite list_lookup_insert_ne in Ho' by done. by eapply Hcl.
  - split; heap_simpl; [|rewrite length_insert]; lia.
Qed.

Lemma get_vertex_Some h v o h' :
  get_vertex v h = Some (o, h') → vertex_objs h !! v = Some o ∧ h' = h.
Proof. unfold get_vertex. intros H. by apply run_lift_option in H as [? ->]. Qed.

Lemma get_polygon_Some h p o h' :
  get_polygon p h = Some (o, h') → polygon_objs h !! p = Some o ∧ h' = h.
Proof. unfold get_polygon. intros H. by apply run_lift_option in H as [? ->]. Qed.

Lemma get_list_Some h l ps h' :
  get_list l h = Some (ps, h') → list_objs h !! l = Some ps ∧ h' = h.
Proof. unfold get_list. intros H. by apply run_lift_option in H as [? ->]. Qed.

Lemma get_csg_Some h c l h' :
  get_csg c h = Some (l, h') → csg_objs h !! c = Some l ∧ h' = h.
Proof. unfold get_csg. intros H. by apply run_lift_option in H as [? ->]. Qed.

(** *** Vertices *)

Lemma Vertex_clone_inv h0 h v v' h' :
  op_inv h0 h → Vertex.clone v h = Some (v', h') →
  op_inv h0 h' ∧ grows h h' ∧ fresh_vertex h0 h' v'.
Proof.
  intros Hinv Hrun. unfold Vertex.clone in Hrun. inv_run.
  apply get_vertex_Some in Hrun0 as [_ ->]. by eapply alloc_vertex_inv.
Qed.

Lemma Vertex_interpolate_inv h0 h a b s v' h' :
  op_inv h0 h → Vertex.interpolate a b s h = Some (v', h') →
  op_inv h0 h' ∧ grows h h' ∧ fresh_vertex h0 h' v'.
Proof.
  intros Hinv Hrun. unfold Vertex.interpolate in Hrun. inv_run.
  apply get_vertex_Some in Hrun0 as [_ ->]. apply get_vertex_Some in Hrun1 as [_ ->].
  by eapply alloc_vertex_inv.
Qed.

Lemma Vertex_flip_inv h0 h v h' :
  op_inv h0 h → fresh_vertex h0 h v → Vertex.flip v h = Some (tt, h') →
  op_inv h0 h' ∧ grows h h'.
Proof.
  intros Hinv Hv Hrun. unfold Vertex.flip in Hrun. inv_run.
  apply get_vertex_Some in Hrun0 as [_ ->]. by eapply put_vertex_inv.
Qed.

Lemma map_M_Vertex_clone_inv h0 vs : ∀ h vs' h',
  op_inv h0 h → map_M Vertex.clone vs h = Some (vs', h') →
  op_inv h0 h' ∧ grows h h' ∧ Forall (fresh_vertex h0 h') vs'.
Proof.
  induction vs as [|v vs IH]; intros h vs' h' Hinv Hrun; simpl in Hrun; inv_run.
  - split; [done|]. split; [apply grows_refl|constructor].
  - destruct (Vertex_clone_inv _ _ _ _ _ Hinv Hrun0) as (Hinv1 & Hg1 & Hv1).
    destruct (IH _ _ _ Hinv1 Hrun1) as (Hinv2 & Hg2 & Hvs).
    split; [done|]. split; [by eapply grows_trans|].
    constructor; [by eapply fresh_vertex_grows|done].
Qed.

Lemma forM_Vertex_flip_inv h0 vs : ∀ h h',
  op_inv h0 h → Forall (fresh_vertex h0 h) vs →
  forM_ vs Vertex.flip h = Some (tt, h') →
  op_inv h0 h' ∧ grows h h'.
Proof.
  induction vs as [|v vs IH]; intros h h' Hinv Hvs Hrun; simpl in Hrun; inv_run.
  - split; [done|apply grows_refl].
  - apply Forall_cons in Hvs as [Hv Hvs]. destruct a.
    destruct (Vertex_flip_inv _ _ _ _ Hinv Hv Hrun0) as (Hinv1 & Hg1).
    destruct (IH _ _ Hinv1 (fresh_vertices_grows _ _ _ _ Hg1 Hvs) Hrun) as (Hinv2 & Hg2).
    split; [done|by eapply grows_trans].
Qed.

(** *** Polygons *)

Lemma Polygon_new_inv h0 h vs p h' :
  op_inv h0 h → Forall (fresh_vertex h0 h) vs →
  Polygon.new vs h = Some (p, h') →
  op_inv h0 h' ∧ grows h h' ∧ fresh_polygon h0 h' p.
Proof.
  intros Hinv Hvs Hrun. unfold Polygon.new in Hrun.
  destruct vs as [|a [|b [|c vs]]]; try done. inv_run.
  apply get_vertex_Some in Hrun0 as [_ ->]. apply get_vertex_Some in Hrun1 as [_ ->].
  apply get_vertex_Some in Hrun2 as [_ ->].
  exact (alloc_polygon_inv _ _ (Polygon_obj _ _) _ _ Hinv Hvs Hrun).
Qed.

Lemma Polygon_clone_inv h0 h p p' h' :
  op_inv h0 h → Polygon.clone p h = Some (p', h') →
  op_inv h0 h' ∧ grows h h' ∧ fresh_polygon h0 h' p'.
Proof.
  intros Hinv Hrun. unfold Polygon.clone in Hrun. inv_run.
  apply get_polygon_Some in Hrun0 as [_ ->].
  destruct (map_M_Vertex_clone_inv _ _ _ _ _ Hinv Hrun1) as (Hinv1 & Hg1 & Hvs).
  destruct (alloc_polygon_inv _ _ (Polygon_obj _ _) _ _ Hinv1 Hvs Hrun) as (Hinv2 & Hg2 & Hp).
  split; [done|]. split; [by eapply grows_trans|done].
Qed.

Lemma map_M_Polygon_clone_inv h0 ps : ∀ h ps' h',
  op_inv h0 h → map_M Polygon.clone ps h = Some (ps', h') →
  op_inv h0 h' ∧ grows h h' ∧ Forall (fresh_polygon h0 h') ps'.
Proof.
  induction ps as [|p ps IH]; intros h ps' h' Hinv Hrun; simpl in Hrun; inv_run.
  - split; [done|]. split; [apply grows_refl|constructor].
  - destruct (Polygon_clone_inv _ _ _ _ _ Hinv Hrun0) as (Hinv1 & Hg1 & Hp1).
    destruct (IH _ _ _ Hinv1 Hrun1) as (Hinv2 & Hg2 & Hps).
    split; [done|]. split; [by eapply grows_trans|].
    constructor; [by eapply fresh_polygon_grows|done].
Qed.

Lemma Polygon_flip_inv h0 h p h' :
  op_inv h0 h → fresh_polygon h0 h p → Polygon.flip p h = Some (tt, h') →
  op_inv h0 h' ∧ grows h h'.
Proof.
  intros Hinv Hp Hrun. unfold Polygon.flip in Hrun. inv_run.
  apply get_polygon_Some in Hrun0 as [Ho ->].
  pose proof (op_inv_vertices _ _ _ _ Hinv Hp Ho) as Hvs.
  assert (Forall (fresh_vertex h0 h) (rev (vertices a))) as Hrev.
  { by apply Forall_rev. }
  destruct a0, a1.
  destruct (put_polygon_inv _ _ _ (Polygon_obj _ _) _ Hinv Hp Hrev Hrun1) as (Hinv1 & Hg1).
  destruct (forM_Vertex_flip_inv _ _ _ _ Hinv1 (fresh_vertices_grows _ _ _ _ Hg1 Hrev) Hrun2)
    as (Hinv2 & Hg2).
  pose proof (grows_trans _ _ _ Hg1 Hg2) as Hg12.
  destruct (put_polygon_inv _ _ _ (Polygon_obj _ _) _ Hinv2 (fresh_polygon_grows _ _ _ _ Hg12 Hp)
              (fresh_vertices_grows _ _ _ _ Hg12 Hrev) Hrun) as (Hinv3 & Hg3).
  split; [done|by eapply grows_trans].
Qed.

(** *** Loops *)

Lemma bind_inv {A B} (m : M A) (k : A -> M B) h b h' :
  bind m k h = Some (b, h') → ∃ a h1, m h = Some (a, h1) ∧ k a h1 = Some (b, h').
Proof. apply run_bind. Qed.

(** A loop keeps the invariant and a property [P] of its local variables
    when its body does, for elements that satisfy [R]. *)
Lemma foldM_inv {A S} (h0 : heap) (f : S → A → M S)
    (P : heap → S → Prop) (R : heap → A → Prop) :
  (∀ h h' s, grows h h' → P h s → P h' s) →
  (∀ h h' a, grows h h' → R h a → R h' a) →
  (∀ h s a s' h', op_inv h0 h → P h s → R h a → f s a h = Some (s', h') →
                  op_inv h0 h' ∧ grows h h' ∧ P h' s') →
  ∀ l h s s' h', op_inv h0 h → P h s → Forall (R h) l →
                 foldM f s l h = Some (s', h') →
                 op_inv h0 h' ∧ grows h h' ∧ P h' s'.
Proof.
  intros HP HR Hf. induction l as [|a l IH]; intros h s s' h' Hinv Hs Hl Hrun;
    simpl in Hrun; inv_run.
  - split; [done|]. split; [apply grows_refl|done].
  - apply Forall_cons in Hl as [Ha Hl].
    destruct (Hf _ _ _ _ _ Hinv Hs Ha Hrun0) as (Hinv1 & Hg1 & Hs1).
    destruct (IH _ _ _ _ Hinv1 Hs1 (Forall_impl _ _ _ Hl (λ x, HR _ _ x Hg1)) Hrun)
      as (Hinv2 & Hg2 & Hs2).
    split; [done|]. split; [by eapply grows_trans|done].
Qed.

Lemma forM_inv {A} (h0 : heap) (f : A → M unit) (R : heap → A → Prop) :
  (∀ h h' a, grows h h' → R h a → R h' a) →
  (∀ h a h', op_inv h0 h → R h a → f a h = Some (tt, h') →
             op_inv h0 h' ∧ grows h h') →
  ∀ l h h', op_inv h0 h → Forall (R h) l →
            forM_ l f h = Some (tt, h') →
            op_inv h0 h' ∧ grows h h'.
Proof.
  intros HR Hf. induction l as [|a l IH]; intros h h' Hinv Hl Hrun;
    simpl in Hrun; inv_run.
  - split; [done|apply grows_refl].
  - apply Forall_cons in Hl as [Ha Hl]. destruct a0.
    destruct (Hf _ _ _ Hinv Ha Hrun0) as (Hinv1 & Hg1).
    destruct (IH _ _ Hinv1 (Forall_impl _ _ _ Hl (λ x, HR _ _ x Hg1)) Hrun)
      as (Hinv2 & Hg2).
    split; [done|by eapply grows_trans].
Qed.

Lemma map_M_get_vertex_Some vs : ∀ h os h',
  map_M get_vertex vs h = Some (os, h') → h' = h.
Proof.
  induction vs as [|v vs IH]; intros h os h' Hrun; simpl in Hrun; inv_run; [done|].
  apply get_vertex_Some in Hrun0 as [_ ->]. by eapply IH.
Qed.

(** *** Splitting *)

Lemma elem_of_ring {A} (l : list A) (x y : A) : (x, y) ∈ ring l → x ∈ l ∧ y ∈ l.
Proof.
  unfold ring. intros H. apply elem_of_zip_with in H as (x' & y' & [= <- <-] & Hx & Hy).
  split; [done|]. apply elem_of_app in Hy as [Hy|Hy].
  - by eapply subseteq_drop.
  - by eapply subseteq_take.
Qed.

Lemma split_step_inv h0 pl h f b vi ti vj tj f' b' h' :
  op_inv h0 h →
  Forall (fresh_vertex h0 h) f → Forall (fresh_vertex h0 h) b →
  fresh_vertex h0 h vi → fresh_vertex h0 h vj →
  split_step pl (f, b) ((vi, ti), (vj, tj)) h = Some ((f', b'), h') →
  op_inv h0 h' ∧ grows h h'
  ∧ Forall (fresh_vertex h0 h') f' ∧ Forall (fresh_vertex h0 h') b'.
Proof.
  intros Hinv Hf Hb Hvi Hvj Hrun. unfold split_step in Hrun.
  cbv beta iota in Hrun.
  apply bind_inv in Hrun as (b1 & h1 & Hrun1 & Hrun).
  set (f1 := if negb (ti =? Plane.BACK) then f ++ [vi] else f) in *.
  assert (Forall (fresh_vertex h0 h) f1) as Hf1.
  { unfold f1. destruct (negb (ti =? Plane.BACK)); [|done]. apply Forall_app. split; [done|].
    by apply Forall_singleton. }
  assert (op_inv h0 h1 ∧ grows h h1 ∧ Forall (fresh_vertex h0 h1) b1)
    as (Hinv1 & Hg1 & Hb1).
  { destruct (negb (ti =? Plane.FRONT)); [destruct (negb (ti =? Plane.BACK))|];
      inv_run.
    - destruct (Vertex_clone_inv _ _ _ _ _ Hinv Hrun0) as (Hinv1 & Hg1 & Hc).
      split; [done|]. split; [done|]. apply Forall_app. split.
      + by eapply fresh_vertices_grows.
      + by apply Forall_singleton.
    - split; [done|]. split; [apply grows_refl|]. apply Forall_app. split; [done|].
      by apply Forall_singleton.
    - split; [done|]. split; [apply grows_refl|done]. }
  pose proof (fresh_vertices_grows _ _ _ _ Hg1 Hf1) as Hf1'.
  destruct (Nat.lor ti tj =? Plane.SPANNING); inv_run.
  - apply get_vertex_Some in Hrun0 as [_ ->]. apply get_vertex_Some in Hrun2 as [_ ->].
    destruct (Vertex_interpolate_inv _ _ _ _ _ _ _ Hinv1 Hrun3) as (Hinv2 & Hg2 & Hv).
    destruct (Vertex_clone_inv _ _ _ _ _ Hinv2 Hrun4) as (Hinv3 & Hg3 & Hc).
    pose proof (grows_trans _ _ _ Hg2 Hg3) as Hg23.
    split; [done|]. split; [by eapply grows_trans|]. split.
    + apply Forall_app. split.
      * exact (fresh_vertices_grows _ _ _ _ Hg23 Hf1').
      * apply Forall_singleton. exact (fresh_vertex_grows _ _ _ _ Hg3 Hv).
    + apply Forall_app. split.
      * exact (fresh_vertices_grows _ _ _ _ Hg23 Hb1).
      * by apply Forall_singleton.
  - done.
Qed.


Lemma fresh_buckets_grows h0 h h' r :
  grows h h' → fresh_buckets h0 h r → fresh_buckets h0 h' r.
Proof.
  intros Hg (? & ? & ? & ?). repeat split; by eapply fresh_polygons_grows.
Qed.

Lemma new_polygon_if_3_inv h0 h vs r h' :
  op_inv h0 h → Forall (fresh_vertex h0 h) vs →
  (if 3 <=? length vs then q <- Polygon.new vs ;; ret [q] else ret []) h = Some (r, h') →
  op_inv h0 h' ∧ grows h h' ∧ Forall (fresh_polygon h0 h') r.
Proof.
  intros Hinv Hvs Hrun. destruct (3 <=? length vs); inv_run.
  - destruct (Polygon_new_inv _ _ _ _ _ Hinv Hvs Hrun0) as (? & ? & ?).
    split; [done|]. split; [done|]. by apply Forall_singleton.
  - split; [done|]. split; [apply grows_refl|constructor].
Qed.

Lemma Plane_splitPolygon_inv h0 pl h p r h' :
  op_inv h0 h → fresh_polygon h0 h p →
  Plane_splitPolygon pl p h = Some (r, h') →
  op_inv h0 h' ∧ grows h h' ∧ fresh_buckets h0 h' r.
Proof.
  intros Hinv Hp Hrun. unfold Plane_splitPolygon in Hrun.
  apply bind_inv in Hrun as (o & h1 & Hrun0 & Hrun).
  apply get_polygon_Some in Hrun0 as [Ho ->].
  apply bind_inv in Hrun as (objs & h1 & Hrun0 & Hrun).
  apply map_M_get_vertex_Some in Hrun0 as ->.
  pose proof (op_inv_vertices _ _ _ _ Hinv Hp Ho) as Hvs.
  set (tags := map _ objs) in *.
  assert (Forall (fresh_polygon h0 h) [p]) as Hp1 by by apply Forall_singleton.
  destruct (foldl Nat.lor 0 tags =? Plane.COPLANAR).
  { destruct (0 <? _)%float; inv_run; (split; [done|]);
      (split; [apply grows_refl|]); repeat split; done || constructor. }
  destruct (foldl Nat.lor 0 tags =? Plane.FRONT).
  { inv_run. split; [done|]. split; [apply grows_refl|].
    repeat split; done || constructor. }
  destruct (foldl Nat.lor 0 tags =? Plane.BACK).
  { inv_run. split; [done|]. split; [apply grows_refl|].
    repeat split; done || constructor. }
  apply bind_inv in Hrun as ([f b] & h1 & Hrun0 & Hrun).
  destruct (foldM_inv h0 (split_step pl)
              (λ h s, Forall (fresh_vertex h0 h) (fst s) ∧ Forall (fresh_vertex h0 h) (snd s))
              (λ h e, fresh_vertex h0 h (fst (fst e)) ∧ fresh_vertex h0 h (fst (snd e))))
    with (l := ring (zip (vertices o) tags)) (h := h) (s := ([] : list nat, [] : list nat))
         (s' := (f, b)) (h' := h1)
    as (Hinv1 & Hg1 & Hf & Hb); [| | |exact Hinv| | |exact Hrun0|].
  { intros ? ? ? ? [? ?]. split; by eapply fresh_vertices_grows. }
  { intros ? ? ? ? [? ?]. split; by eapply fresh_vertex_grows. }
  { intros h2 [f2 b2] [[vi ti] [vj tj]] [f3 b3] h3 Hinv2 [Hf2 Hb2] [Hvi Hvj] Hstep.
    cbn [fst snd] in *. exact (split_step_inv _ _ _ _ _ _ _ _ _ _ _ _ Hinv2 Hf2 Hb2 Hvi Hvj Hstep). }
  { split; constructor. }
  { apply Forall_forall. intros [[vi ti] [vj tj]] Hin.
    apply elem_of_ring in Hin as [Hi Hj].
    apply elem_of_zip_l in Hi. apply elem_of_zip_l in Hj. cbn [fst snd].
    rewrite Forall_forall in Hvs. by split; apply Hvs. }
  cbn [fst snd] in Hf, Hb.
  apply bind_inv in Hrun as (fr & h2 & Hrun1 & Hrun).
  destruct (new_polygon_if_3_inv _ _ _ _ _ Hinv1 Hf Hrun1) as (Hinv2 & Hg2 & Hfr).
  apply bind_inv in Hrun as (bk & h3 & Hrun2 & Hrun).
  destruct (new_polygon_if_3_inv _ _ _ _ _ Hinv2
              (fresh_vertices_grows _ _ _ _ Hg2 Hb) Hrun2) as (Hinv3 & Hg3 & Hbk).
  inv_run. split; [done|]. split; [eauto using grows_trans|].
  repeat split; simpl; try constructor; [|done].
  by eapply fresh_polygons_grows.
Qed.

(** *** Trees *)

Lemma BSPNode_ind' (P : BSPNode.t → Prop) :
  (∀ pl ps f b,
     (∀ c, f = Some c → P c) → (∀ c, b = Some c → P c) →
     P (BSPNode.Node pl ps f b)) →
  ∀ t, P t.
Proof.
  intros H. fix IH 1. intros [pl ps f b]. apply H.
  - intros c Hc. destruct f as [c'|]; [|discriminate Hc].
    injection Hc as <-. apply IH.
  - intros c Hc. destruct b as [c'|]; [|discriminate Hc].
    injection Hc as <-. apply IH.
Qed.


Lemma allPolygons_Node pl ps f b :
  BSPNode.allPolygons (BSPNode.Node pl ps f b)
  = ps ++ child_polygons f ++ child_polygons b.
Proof. done. Qed.

Lemma fresh_tree_Node h0 h pl ps f b :
  fresh_tree h0 h (BSPNode.Node pl ps f b)
  ↔ Forall (fresh_polygon h0 h) ps
    ∧ Forall (fresh_polygon h0 h) (child_polygons f)
    ∧ Forall (fresh_polygon h0 h) (child_polygons b).
Proof. unfold fresh_tree. by rewrite allPolygons_Node, !Forall_app. Qed.

(** The loop of [clipPolygons]. *)
Lemma clip_loop_inv h0 pl polys : ∀ h fr bk h',
  op_inv h0 h → Forall (fresh_polygon h0 h) polys →
  foldM (BSPNode.clip_step pl) ([], []) polys h = Some ((fr, bk), h') →
  op_inv h0 h' ∧ grows h h'
  ∧ Forall (fresh_polygon h0 h') fr ∧ Forall (fresh_polygon h0 h') bk.
Proof.
  intros h fr bk h' Hinv Hps Hrun.
  destruct (foldM_inv h0 (BSPNode.clip_step pl)
              (λ h s, Forall (fresh_polygon h0 h) (fst s)
                      ∧ Forall (fresh_polygon h0 h) (snd s))
              (fresh_polygon h0))
    with (l := polys) (h := h) (s := ([] : list nat, [] : list nat))
         (s' := (fr, bk)) (h' := h')
    as (Hinv1 & Hg1 & Hf & Hb); [| | |exact Hinv| |exact Hps|exact Hrun|].
  - intros ? ? ? ? [? ?]. split; by eapply fresh_polygons_grows.
  - intros ? ? ? ?. by apply fresh_polygon_grows.
  - intros h1 [f1 b1] p [f2 b2] h2 Hinv1 [Hf1 Hb1] Hp Hstep. cbn [fst snd] in *.
    unfold BSPNode.clip_step in Hstep.
    apply bind_inv in Hstep as (r & h3 & Hsplit & Hret).
    apply run_ret in Hret as [[= <- <-] <-].
    destruct (Plane_splitPolygon_inv _ _ _ _ _ _ Hinv1 Hp Hsplit)
      as (Hinv3 & Hg3 & Hcf & Hcb & Hfr & Hbk).
    split; [done|]. split; [done|].
    rewrite !Forall_app. repeat split; try done; by eapply fresh_polygons_grows.
  - split; constructor.
  - done.
Qed.

Lemma clipPolygons_inv h0 n : ∀ polys h r h',
  op_inv h0 h → Forall (fresh_polygon h0 h) polys →
  BSPNode.clipPolygons n polys h = Some (r, h') →
  op_inv h0 h' ∧ grows h h' ∧ Forall (fresh_polygon h0 h') r.
Proof.
  induction n as [pl ps f b IHf IHb] using BSPNode_ind'.
  intros polys h r h' Hinv Hpolys Hrun. simpl in Hrun.
  destruct pl as [pl|].
  2: { inv_run. split; [done|]. split; [apply grows_refl|done]. }
  apply bind_inv in Hrun as ([fr bk] & h1 & Hloop & Hrun).
  destruct (clip_loop_inv _ _ _ _ _ _ _ Hinv Hpolys Hloop) as (Hinv1 & Hg1 & Hfr & Hbk).
  apply bind_inv in Hrun as (fr' & h2 & Hfront & Hrun).
  assert (op_inv h0 h2 ∧ grows h1 h2 ∧ Forall (fresh_polygon h0 h2) fr')
    as (Hinv2 & Hg2 & Hfr').
  { destruct f as [c|].
    - exact (IHf c eq_refl _ _ _ _ Hinv1 Hfr Hfront).
    - inv_run. split; [done|]. split; [apply grows_refl|done]. }
  apply bind_inv in Hrun as (bk' & h3 & Hback & Hrun).
  assert (op_inv h0 h3 ∧ grows h2 h3 ∧ Forall (fresh_polygon h0 h3) bk')
    as (Hinv3 & Hg3 & Hbk').
  { destruct b as [c|].
    - exact (IHb c eq_refl _ _ _ _ Hinv2 (fresh_polygons_grows _ _ _ _ Hg2 Hbk) Hback).
    - inv_run. split; [done|]. split; [apply grows_refl|constructor]. }
  inv_run. split; [done|]. split; [eauto using grows_trans|].
  apply Forall_app. split; [|done]. by eapply fresh_polygons_grows.
Qed.

Lemma clipTo_inv h0 other n : ∀ h n' h',
  op_inv h0 h → fresh_tree h0 h n →
  BSPNode.clipTo n other h = Some (n', h') →
  op_inv h0 h' ∧ grows h h' ∧ fresh_tree h0 h' n'.
Proof.
  induction n as [pl ps f b IHf IHb] using BSPNode_ind'.
  intros h n' h' Hinv Hn Hrun. simpl in Hrun.
  apply fresh_tree_Node in Hn as (Hps & Hf & Hb).
  apply bind_inv in Hrun as (ps' & h1 & Hclip & Hrun).
  destruct (clipPolygons_inv _ _ _ _ _ _ Hinv Hps Hclip) as (Hinv1 & Hg1 & Hps').
  apply bind_inv in Hrun as (f' & h2 & Hfront & Hrun).
  assert (op_inv h0 h2 ∧ grows h1 h2 ∧ Forall (fresh_polygon h0 h2) (child_polygons f'))
    as (Hinv2 & Hg2 & Hf').
  { destruct f as [c|]; inv_run.
    - eapply IHf; [done|exact Hinv1| |done]. by eapply fresh_polygons_grows.
    - split; [done|]. split; [apply grows_refl|constructor]. }
  apply bind_inv in Hrun as (b' & h3 & Hback & Hrun).
  assert (op_inv h0 h3 ∧ grows h2 h3 ∧ Forall (fresh_polygon h0 h3) (child_polygons b'))
    as (Hinv3 & Hg3 & Hb').
  { destruct b as [c|]; inv_run.
    - eapply IHb; [done|exact Hinv2| |done].
      eapply fresh_polygons_grows; [|exact Hb]. by eapply grows_trans.
    - split; [done|]. split; [apply grows_refl|constructor]. }
  inv_run. split; [done|]. split; [eauto using grows_trans|].
  apply fresh_tree_Node. repeat split; [|by eapply fresh_polygons_grows|done].
  eapply fresh_polygons_grows; [|exact Hps']. by eapply grows_trans.
Qed.

Lemma invert_inv h0 n : ∀ h n' h',
  op_inv h0 h → fresh_tree h0 h n →
  BSPNode.invert n h = Some (n', h') →
  op_inv h0 h' ∧ grows h h' ∧ fresh_tree h0 h' n'.
Proof.
  induction n as [pl ps f b IHf IHb] using BSPNode_ind'.
  intros h n' h' Hinv Hn Hrun. simpl in Hrun.
  apply fresh_tree_Node in Hn as (Hps & Hf & Hb).
  apply bind_inv in Hrun as ([] & h1 & Hflip & Hrun).
  destruct (forM_inv h0 Polygon.flip (fresh_polygon h0))
    with (l := ps) (h := h) (h' := h1) as (Hinv1 & Hg1); [| |done|done|done|].
  { intros ? ? ? ?. by apply fresh_polygon_grows. }
  { intros ? ? ? ? ? ?. by eapply Polygon_flip_inv. }
  apply bind_inv in Hrun as (f' & h2 & Hfront & Hrun).
  assert (op_inv h0 h2 ∧ grows h1 h2 ∧ Forall (fresh_polygon h0 h2) (child_polygons f'))
    as (Hinv2 & Hg2 & Hf').
  { destruct b as [c|]; inv_run.
    - eapply IHb; [done|exact Hinv1| |done]. by eapply fresh_polygons_grows.
    - split; [done|]. split; [apply grows_refl|constructor]. }
  apply bind_inv in Hrun as (b' & h3 & Hback & Hrun).
  assert (op_inv h0 h3 ∧ grows h2 h3 ∧ Forall (fresh_polygon h0 h3) (child_polygons b'))
    as (Hinv3 & Hg3 & Hb').
  { destruct f as [c|]; inv_run.
    - eapply IHf; [done|exact Hinv2| |done].
      eapply fresh_polygons_grows; [|exact Hf]. by eapply grows_trans.
    - split; [done|]. split; [apply grows_refl|constructor]. }
  inv_run. split; [done|]. split; [eauto using grows_trans|].
  apply fresh_tree_Node. repeat split; [|by eapply fresh_polygons_grows|done].
  eapply fresh_polygons_grows; [|exact Hps]. eauto using grows_trans.
Qed.

Lemma fresh_buckets_empty h0 h : fresh_buckets h0 h Buckets.empty.
Proof. repeat split; constructor. Qed.

Lemma fresh_buckets_append h0 h r s :
  fresh_buckets h0 h r → fresh_buckets h0 h s → fresh_buckets h0 h (Buckets.append r s).
Proof.
  intros (? & ? & ? & ?) (? & ? & ? & ?). repeat split; simpl; by apply Forall_app.
Qed.

(** The loop of [build]. *)
Lemma build_loop_inv h0 pl polys h r h' :
  op_inv h0 h → Forall (fresh_polygon h0 h) polys →
  foldM (BSPNode.build_step pl) Buckets.empty polys h = Some (r, h') →
  op_inv h0 h' ∧ grows h h' ∧ fresh_buckets h0 h' r.
Proof.
  intros Hinv Hps Hrun.
  apply (foldM_inv h0 (BSPNode.build_step pl) (fresh_buckets h0) (fresh_polygon h0))
    with (l := polys) (h := h) (s := Buckets.empty);
    [| | |exact Hinv| |exact Hps|exact Hrun].
  - intros ? ? ? ?. by apply fresh_buckets_grows.
  - intros ? ? ? ?. by apply fresh_polygon_grows.
  - intros h1 acc p acc' h2 Hinv1 Hacc Hp Hstep. unfold BSPNode.build_step in Hstep.
    apply bind_inv in Hstep as (s & h3 & Hsplit & Hret).
    apply run_ret in Hret as [<- <-].
    destruct (Plane_splitPolygon_inv _ _ _ _ _ _ Hinv1 Hp Hsplit) as (Hinv3 & Hg3 & Hs).
    split; [done|]. split; [done|].
    apply fresh_buckets_append; [|done]. by eapply fresh_buckets_grows.
  - apply fresh_buckets_empty.
Qed.

Lemma fresh_tree_empty h0 h : fresh_tree h0 h BSPNode.empty.
Proof. constructor. Qed.

Lemma fresh_tree_default h0 h c :
  Forall (fresh_polygon h0 h) (child_polygons c) →
  fresh_tree h0 h (default BSPNode.empty c).
Proof. destruct c; [done|]. intros _. apply fresh_tree_empty. Qed.

Lemma build_inv h0 fuel : ∀ n polys h n' h',
  op_inv h0 h → fresh_tree h0 h n → Forall (fresh_polygon h0 h) polys →
  BSPNode.build fuel n polys h = Some (n', h') →
  op_inv h0 h' ∧ grows h h' ∧ fresh_tree h0 h' n'.
Proof.
  induction fuel as [|fuel IH]; intros n polys h n' h' Hinv Hn Hpolys Hrun;
    simpl in Hrun.
  { destruct polys; [|done]. inv_run. split; [done|]. split; [apply grows_refl|done]. }
  destruct polys as [|p0 polys0] eqn:Epolys.
  { inv_run. split; [done|]. split; [apply grows_refl|done]. }
  rewrite <- Epolys in *. clear Epolys polys0.
  destruct n as [pl ps f b].
  apply fresh_tree_Node in Hn as (Hps & Hf & Hb).
  apply bind_inv in Hrun as (pl' & h1 & Hplane & Hrun).
  assert (h1 = h) as ->.
  { destruct pl.
    - by apply run_ret in Hplane as [_ ->].
    - apply bind_inv in Hplane as (o & h2 & Hget & Hret).
      apply get_polygon_Some in Hget as [_ ->]. by apply run_ret in Hret as [_ ->]. }
  clear Hplane.
  apply bind_inv in Hrun as (r & h1 & Hloop & Hrun).
  destruct (build_loop_inv _ _ _ _ _ _ Hinv Hpolys Hloop)
    as (Hinv1 & Hg1 & Hcf & Hcb & Hfr & Hbk).
  apply bind_inv in Hrun as (f' & h2 & Hfront & Hrun).
  assert (op_inv h0 h2 ∧ grows h1 h2 ∧ Forall (fresh_polygon h0 h2) (child_polygons f'))
    as (Hinv2 & Hg2 & Hf').
  { destruct (Buckets.front r) as [|q qs] eqn:Efr.
    - apply run_ret in Hfront as [<- <-].
      split; [done|]. split; [apply grows_refl|]. by eapply fresh_polygons_grows.
    - apply bind_inv in Hfront as (c & h4 & Hbuild & Hret).
      apply run_ret in Hret as [<- <-].
      eapply IH; [exact Hinv1| |exact Hfr|exact Hbuild].
      apply fresh_tree_default. by eapply fresh_polygons_grows. }
  apply bind_inv in Hrun as (b' & h3 & Hback & Hrun).
  assert (op_inv h0 h3 ∧ grows h2 h3 ∧ Forall (fresh_polygon h0 h3) (child_polygons b'))
    as (Hinv3 & Hg3 & Hb').
  { pose proof (grows_trans _ _ _ Hg1 Hg2) as Hg12.
    destruct (Buckets.back r) as [|q qs] eqn:Ebk.
    - apply run_ret in Hback as [<- <-].
      split; [done|]. split; [apply grows_refl|]. by eapply fresh_polygons_grows.
    - apply bind_inv in Hback as (c & h4 & Hbuild & Hret).
      apply run_ret in Hret as [<- <-].
      eapply IH; [exact Hinv2| | |exact Hbuild].
      + apply fresh_tree_default. by eapply fresh_polygons_grows.
      + exact (fresh_polygons_grows _ _ _ _ Hg2 Hbk). }
  apply run_ret in Hrun as [<- <-]. split; [done|]. split; [eauto using grows_trans|].
  pose proof (grows_trans _ _ _ Hg2 Hg3) as Hg23.
  pose proof (grows_trans _ _ _ Hg1 Hg23) as Hg13.
  apply fresh_tree_Node. split; [|split].
  - rewrite !Forall_app. split; [|split].
    + exact (fresh_polygons_grows _ _ _ _ Hg13 Hps).
    + exact (fresh_polygons_grows _ _ _ _ Hg23 Hcf).
    + exact (fresh_polygons_grows _ _ _ _ Hg23 Hcb).
  - exact (fresh_polygons_grows _ _ _ _ Hg3 Hf').
  - exact Hb'.
Qed.

Lemma BSPNode_new_inv h0 fuel polys h n h' :
  op_inv h0 h → Forall (fresh_polygon h0 h) polys →
  BSPNode.new fuel polys h = Some (n, h') →
  op_inv h0 h' ∧ grows h h' ∧ fresh_tree h0 h' n.
Proof.
  intros Hinv Hpolys Hrun. unfold BSPNode.new in Hrun.
  destruct polys as [|p polys'] eqn:E.
  - inv_run. split; [done|]. split; [apply grows_refl|apply fresh_tree_empty].
  - eapply build_inv; [done|apply fresh_tree_empty|exact Hpolys|done].
Qed.

(** *** Solids *)

Lemma alloc_list_inv h0 h l a h' :
  op_inv h0 h → alloc_list l h = Some (a, h') →
  op_inv h0 h' ∧ grows h h' ∧ list_objs h' !! a = Some l
  ∧ csg_objs h' = csg_objs h.
Proof.
  intros [(Hv & Hp & Hl & Hc) Hcl] [= <- <-].
  split; [split|split; [|split]].
  - repeat split; heap_simpl; try done. by apply prefix_app_r.
  - exact Hcl.
  - exact (grows_refl h).
  - heap_simpl. by rewrite lookup_app_r, Nat.sub_diag by lia.
  - done.
Qed.

Lemma CSG_new_inv h0 h c h' :
  op_inv h0 h → CSG.new h = Some (c, h') →
  op_inv h0 h' ∧ grows h h' ∧ length (csg_objs h0) ≤ c < length (csg_objs h').
Proof.
  intros Hinv Hrun. unfold CSG.new in Hrun.
  apply bind_inv in Hrun as (l & h1 & Hl & Hrun).
  destruct (alloc_list_inv _ _ _ _ _ Hinv Hl) as (Hinv1 & Hg1 & _ & Hc1).
  injection Hrun as <- <-.
  destruct Hinv1 as [(Hv & Hp & Hl1 & Hc) Hcl].
  split; [split|split].
  - repeat split; heap_simpl; try done. by apply prefix_app_r.
  - exact Hcl.
  - exact Hg1.
  - heap_simpl. rewrite length_app. simpl. apply prefix_length in Hc. lia.
Qed.

Lemma put_csg_inv h0 h c l h' :
  op_inv h0 h → length (csg_objs h0) ≤ c →
  put_csg c l h = Some (tt, h') →
  op_inv h0 h' ∧ grows h h' ∧ csg_objs h' !! c = Some l ∧ list_objs h' = list_objs h.
Proof.
  intros [(Hv & Hp & Hl & Hc) Hcl] Hlo. unfold put_csg.
  destruct (decide _) as [Hhi|]; [|done]. intros [= <-].
  split; [split|split; [|split]].
  - repeat split; heap_simpl; try done. by apply prefix_insert_ge.
  - exact Hcl.
  - exact (grows_refl h).
  - heap_simpl. by rewrite list_lookup_insert_eq.
  - done.
Qed.

Lemma CSG_fromPolygons_inv h0 h l c h' :
  op_inv h0 h → CSG.fromPolygons l h = Some (c, h') → op_inv h0 h' ∧ grows h h'.
Proof.
  intros Hinv Hrun. unfold CSG.fromPolygons in Hrun.
  apply bind_inv in Hrun as (c0 & h1 & Hnew & Hrun).
  destruct (CSG_new_inv _ _ _ _ Hinv Hnew) as (Hinv1 & Hg1 & Hc0 & _).
  apply bind_inv in Hrun as ([] & h2 & Hput & Hrun).
  destruct (put_csg_inv _ _ _ _ _ Hinv1 Hc0 Hput) as (Hinv2 & Hg2 & _).
  apply run_ret in Hrun as [<- <-]. split; [done|by eapply grows_trans].
Qed.

(** [clone] returns a solid whose list holds fresh polygons. *)
Lemma CSG_clone_inv h0 h self c h' :
  op_inv h0 h → CSG.clone self h = Some (c, h') →
  op_inv h0 h' ∧ grows h h'
  ∧ ∃ l ps, csg_objs h' !! c = Some l ∧ list_objs h' !! l = Some ps
            ∧ Forall (fresh_polygon h0 h') ps.
Proof.
  intros Hinv Hrun. unfold CSG.clone in Hrun.
  apply bind_inv in Hrun as (c0 & h1 & Hnew & Hrun).
  destruct (CSG_new_inv _ _ _ _ Hinv Hnew) as (Hinv1 & Hg1 & Hc0 & _).
  apply bind_inv in Hrun as (l & h2 & Hget & Hrun).
  apply get_csg_Some in Hget as [_ ->].
  apply bind_inv in Hrun as (ps & h2 & Hget & Hrun).
  apply get_list_Some in Hget as [_ ->].
  apply bind_inv in Hrun as (ps' & h2 & Hclone & Hrun).
  destruct (map_M_Polygon_clone_inv _ _ _ _ _ Hinv1 Hclone) as (Hinv2 & Hg2 & Hps').
  apply bind_inv in Hrun as (l' & h3 & Halloc & Hrun).
  destruct (alloc_list_inv _ _ _ _ _ Hinv2 Halloc) as (Hinv3 & Hg3 & Hl' & _).
  apply bind_inv in Hrun as ([] & h4 & Hput & Hrun).
  destruct (put_csg_inv _ _ _ _ _ Hinv3 Hc0 Hput) as (Hinv4 & Hg4 & Hc & Hlists).
  apply run_ret in Hrun as [<- <-].
  split; [done|]. split; [eauto using grows_trans|].
  exists l', ps'. split; [done|]. split; [by rewrite Hlists|].
  eapply fresh_polygons_grows; [|exact Hps']. by eapply grows_trans.
Qed.

(** One tree operation keeps both trees fresh. *)
Lemma run_tree_op_inv h0 fuel op h ab ab' h' :
  op_inv h0 h → fresh_tree h0 h (fst ab) → fresh_tree h0 h (snd ab) →
  run_tree_op fuel ab op h = Some (ab', h') →
  op_inv h0 h' ∧ grows h h' ∧ fresh_tree h0 h' (fst ab') ∧ fresh_tree h0 h' (snd ab').
Proof.
  intros Hinv Ha Hb Hrun. destruct ab as [a b]. cbn [fst snd] in *.
  assert (∀ x, fresh_tree h0 h (get_tree x (a, b))) as Hget by by intros [].
  assert (∀ h1 x t, grows h h1 → fresh_tree h0 h1 t →
            fresh_tree h0 h1 (fst (set_tree x t (a, b)))
            ∧ fresh_tree h0 h1 (snd (set_tree x t (a, b)))) as Hset.
  { intros h1 [] t Hg Ht; (split; [|]); cbn [set_tree fst snd];
      done || by eapply fresh_tree_grows. }
  destruct op as [x y|x|x y]; cbn [run_tree_op] in Hrun;
    apply bind_inv in Hrun as (t & h1 & Hop & Hret);
    apply run_ret in Hret as [<- <-].
  - destruct (clipTo_inv _ _ _ _ _ _ Hinv (Hget x) Hop) as (Hinv1 & Hg1 & Ht).
    split; [done|]. split; [done|]. by apply Hset.
  - destruct (invert_inv _ _ _ _ _ Hinv (Hget x) Hop) as (Hinv1 & Hg1 & Ht).
    split; [done|]. split; [done|]. by apply Hset.
  - destruct (build_inv _ _ _ _ _ _ _ Hinv (Hget x) (Hget y) Hop) as (Hinv1 & Hg1 & Ht).
    split; [done|]. split; [done|]. by apply Hset.
Qed.

(** A Boolean operation, whatever its sequence of tree operations, writes
    to no object of the store it starts in. *)
Lemma boolean_operation_frame fuel ops A B h C h' :
  boolean_operation fuel ops A B h = Some (C, h') → heap_prefix h h'.
Proof.
  intros Hrun. unfold boolean_operation in Hrun.
  pose proof (op_inv_refl h) as Hinv.
  apply bind_inv in Hrun as (cA & h1 & HcloneA & Hrun).
  destruct (CSG_clone_inv _ _ _ _ _ Hinv HcloneA) as (Hinv1 & Hg1 & lA' & pA' & HcA & HlA & HpA).
  apply bind_inv in Hrun as (lA & h2 & Hget & Hrun).
  apply get_csg_Some in Hget as [HcA' ->].
  apply bind_inv in Hrun as (pA & h2 & Hget & Hrun).
  apply get_list_Some in Hget as [HlA' ->]. simplify_eq.
  apply bind_inv in Hrun as (a & h2 & Hnewa & Hrun).
  destruct (BSPNode_new_inv _ _ _ _ _ _ Hinv1 HpA Hnewa) as (Hinv2 & Hg2 & Ha).
  apply bind_inv in Hrun as (cB & h3 & HcloneB & Hrun).
  destruct (CSG_clone_inv _ _ _ _ _ Hinv2 HcloneB) as (Hinv3 & Hg3 & lB' & pB' & HcB & HlB & HpB).
  apply bind_inv in Hrun as (lB & h4 & Hget & Hrun).
  apply get_csg_Some in Hget as [HcB' ->].
  apply bind_inv in Hrun as (pB & h4 & Hget & Hrun).
  apply get_list_Some in Hget as [HlB' ->]. simplify_eq.
  apply bind_inv in Hrun as (b & h4 & Hnewb & Hrun).
  destruct (BSPNode_new_inv _ _ _ _ _ _ Hinv3 HpB Hnewb) as (Hinv4 & Hg4 & Hb).
  apply bind_inv in Hrun as (ab & h5 & Hops & Hrun).
  destruct (foldM_inv h (run_tree_op fuel)
              (λ hi s, fresh_tree h hi (fst s) ∧ fresh_tree h hi (snd s))
              (λ _ _, True))
    with (l := ops) (h := h4) (s := (a, b)) (s' := ab) (h' := h5)
    as (Hinv5 & Hg5 & _); [| | |exact Hinv4| | |exact Hops|].
  { intros ? ? ? ? [? ?]. split; by eapply fresh_tree_grows. }
  { done. }
  { intros h6 s op s' h7 Hinv6 [? ?] _ Hop. by eapply run_tree_op_inv. }
  { cbn [fst snd]. split; [|done].
    eapply fresh_tree_grows; [|exact Ha]. by eapply grows_trans. }
  { by apply Forall_true. }
  apply bind_inv in Hrun as (l & h6 & Halloc & Hrun).
  destruct (alloc_list_inv _ _ _ _ _ Hinv5 Halloc) as (Hinv6 & _).
  destruct (CSG_fromPolygons_inv _ _ _ _ _ Hinv6 Hrun) as ([Hpre _] & _).
  done.
Qed.

(** C3: a Boolean operation on two solids of the store writes to no object
    that existed before the call (every object of the old store is in the
    new one, unchanged), so the polygon lists of both operands, read down to
    the vertices, are what they were before the call. *)
Theorem boolean_operations_leave_operands
    (fuel : nat) (A B C : loc) (h h' : heap) (va vb : list polygon_value) :
  solid_value h A = Some va →
  solid_value h B = Some vb →
  CSG.union fuel A B h = Some (C, h')
  ∨ CSG.subtract fuel A B h = Some (C, h')
  ∨ CSG.intersect fuel A B h = Some (C, h') →
  heap_prefix h h' ∧ solid_value h' A = Some va ∧ solid_value h' B = Some vb.
Proof.
  intros HA HB Hrun.
  assert (heap_prefix h h') as Hpre.
  { destruct Hrun as [Hrun|[Hrun|Hrun]].
    - rewrite union_as_sequence in Hrun. by eapply boolean_operation_frame.
    - rewrite subtract_follows_sequence in Hrun. by eapply boolean_operation_frame.
    - rewrite intersect_follows_sequence in Hrun. by eapply boolean_operation_frame. }
  split; [done|]. split; by eapply solid_value_prefix.
Qed.

Lemma boolean_operations_leave_operands_witness :
  ∃ C h', CSG.union 5 0 2 three_solids_heap = Some (C, h')
          ∧ heap_prefix three_solids_heap h'
          ∧ solid_value h' 0 = solid_value three_solids_heap 0
          ∧ solid_value h' 2 = solid_value three_solids_heap 2.
Proof.
  destruct (CSG.union 5 0 2 three_solids_heap) as [[C h']|] eqn:E;
    [|vm_compute in E; discriminate E].
  exists C, h'. split; [reflexivity|].
  apply (boolean_operations_leave_operands 5 0 2 C three_solids_heap h').
  - reflexivity.
  - reflexivity.
  - left. exact E.
Defined.


(** ** Flipping twice *)

Lemma float_opp_involutive (x : float) : (- - x)%float = x.
Proof.
  rewrite <- (SF2Prim_Prim2SF (- - x)), !opp_spec.
  rewrite <- (SF2Prim_Prim2SF x) at 2. f_equal.
  destruct (Prim2SF x) as [s| | |s m e]; simpl; try reflexivity;
    by rewrite Bool.negb_involutive.
Qed.

Lemma Vector_negated_involutive v : Vector.negated (Vector.negated v) = v.
Proof.
  destruct v. unfold Vector.negated. simpl. by rewrite !float_opp_involutive.
Qed.

Lemma Plane_flip_involutive pl : Plane.flip (Plane.flip pl) = pl.
Proof.
  destruct pl. unfold Plane.flip. simpl.
  by rewrite Vector_negated_involutive, float_opp_involutive.
Qed.

Lemma flip_vertex_value_involutive v : flip_vertex_value (flip_vertex_value v) = v.
Proof.
  destruct v. unfold flip_vertex_value. simpl. by rewrite Vector_negated_involutive.
Qed.

Lemma flip_polygon_obj_involutive o : flip_polygon_obj (flip_polygon_obj o) = o.
Proof.
  destruct o. unfold flip_polygon_obj. simpl.
  by rewrite rev_involutive, Plane_flip_involutive.
Qed.

(** Folding an operation whose applications commute. *)
Lemma foldl_comm_perm {A B} (f : B → A → B) :
  (∀ b x y, f (f b x) y = f (f b y) x) →
  ∀ l l', l ≡ₚ l' → ∀ b, foldl f b l = foldl f b l'.
Proof.
  intros Hcomm l l' Hperm.
  induction Hperm as [|x l l' _ IH|x y l|l1 l2 l3 _ IH1 _ IH2]; intros b; simpl.
  - done.
  - apply IH.
  - by rewrite Hcomm.
  - by rewrite IH1, IH2.
Qed.

(** ... and undo themselves: doing every one twice changes nothing. *)
Lemma foldl_twice {A B} (f : B → A → B) :
  (∀ b x y, f (f b x) y = f (f b y) x) →
  (∀ b x, f (f b x) x = b) →
  ∀ l l', l ≡ₚ l' → ∀ b, foldl f (foldl f b l) l' = b.
Proof.
  intros Hcomm Hinv l l' Hperm b.
  rewrite <- (foldl_comm_perm f Hcomm l l' Hperm). clear l' Hperm.
  revert b. induction l as [|x l IH]; intros b; [done|].
  rewrite <- foldl_app.
  rewrite (foldl_comm_perm f Hcomm ((x :: l) ++ x :: l) (x :: x :: l ++ l)).
  - simpl. rewrite Hinv, foldl_app. apply IH.
  - simpl. constructor. by rewrite <- Permutation_middle.
Qed.

Lemma alter_alter_comm {A} (g : A → A) (i j : nat) (V : list A) :
  alter g i (alter g j V) = alter g j (alter g i V).
Proof.
  destruct (decide (i = j)) as [->|Hne]; [done|]. by apply list_alter_alter_ne.
Qed.

Lemma alter_twice {A} (g : A → A) (i : nat) (V : list A) :
  (∀ x, g (g x) = x) → alter g i (alter g i V) = V.
Proof.
  intros Hg. rewrite list_alter_alter_eq. apply list_alter_id.
  intros x. simpl. apply Hg.
Qed.

Lemma foldl_alter_comm {A} (g : A → A) (vs ws : list nat) (V : list A) :
  foldl (λ V v, alter g v V) (foldl (λ V v, alter g v V) V vs) ws
  = foldl (λ V v, alter g v V) (foldl (λ V v, alter g v V) V ws) vs.
Proof.
  rewrite <- !foldl_app. apply foldl_comm_perm.
  - intros. apply alter_alter_comm.
  - apply Permutation_app_comm.
Qed.

Lemma foldl_alter_twice {A} (g : A → A) (vs ws : list nat) (V : list A) :
  (∀ x, g (g x) = x) → vs ≡ₚ ws →
  foldl (λ V v, alter g v V) (foldl (λ V v, alter g v V) V vs) ws = V.
Proof.
  intros Hg Hperm. apply foldl_twice; [| |done].
  - intros. apply alter_alter_comm.
  - intros. by apply alter_twice.
Qed.

(** Flips of polygons commute, whatever vertices the polygons share. *)
Lemma flip_store_comm h p q :
  flip_store (flip_store h p) q = flip_store (flip_store h q) p.
Proof.
  destruct (decide (p = q)) as [->|Hne]; [done|].
  unfold flip_store.
  destruct (polygon_objs h !! p) as [op|] eqn:Hp;
    destruct (polygon_objs h !! q) as [oq|] eqn:Hq; simpl;
    rewrite ?list_lookup_alter_ne by done; rewrite ?Hp, ?Hq; simpl; try done.
  f_equal.
  - apply foldl_alter_comm.
  - apply alter_alter_comm.
Qed.

(** A polygon flipped twice is as it was, and so are its vertices. *)
Lemma flip_store_twice h p : flip_store (flip_store h p) p = h.
Proof.
  unfold flip_store at 2.
  destruct (polygon_objs h !! p) as [o|] eqn:Hp.
  - unfold flip_store. simpl. rewrite list_lookup_alter_eq, Hp. simpl.
    rewrite rev_involutive.
    rewrite foldl_alter_twice.
    + rewrite alter_twice by apply flip_polygon_obj_involutive. apply heap_eta.
    + apply flip_vertex_value_involutive.
    + by rewrite <- Permutation_rev.
  - unfold flip_store. by rewrite Hp.
Qed.

Lemma flip_store_valid h p q : valid_polygon h q → valid_polygon (flip_store h p) q.
Proof.
  intros (o & Ho & Hvs). unfold flip_store.
  destruct (polygon_objs h !! p) as [op|] eqn:Hp; [|by exists o].
  unfold valid_polygon. simpl. rewrite foldl_alter_length.
  destruct (decide (p = q)) as [->|Hne].
  - rewrite list_lookup_alter_eq, Ho. simpl. eexists. split; [done|].
    simpl. by apply Forall_rev.
  - rewrite list_lookup_alter_ne by done. by exists o.
Qed.

Lemma foldl_flip_store_valid ps : ∀ h q,
  valid_polygon h q → valid_polygon (foldl flip_store h ps) q.
Proof.
  induction ps as [|p ps IH]; intros h q Hq; simpl; [done|].
  by apply IH, flip_store_valid.
Qed.

(** [p.flip()] on a valid polygon. *)
Lemma Polygon_flip_run h p :
  valid_polygon h p → Polygon.flip p h = Some (tt, flip_store h p).
Proof.
  intros (o & Ho & Hvs). unfold Polygon.flip.
  erewrite bind_eq; last by (unfold get_polygon; rewrite Ho).
  assert (p < length (polygon_objs h)) as Hp by by eapply lookup_lt_Some.
  erewrite bind_eq; last by (unfold put_polygon; rewrite decide_True by done).
  erewrite bind_eq; last first.
  { apply (forM_update_vertices flip_vertex_value). heap_simpl. by apply Forall_rev. }
  unfold put_polygon. heap_simpl. rewrite decide_True by by rewrite length_insert.
  unfold flip_store. rewrite Ho. do 3 f_equal.
  rewrite list_insert_insert_eq.
  by rewrite <- (list_insert_alter flip_polygon_obj _ _ _ Ho).
Qed.

Lemma forM_Polygon_flip_run ps : ∀ h,
  Forall (valid_polygon h) ps →
  forM_ ps Polygon.flip h = Some (tt, foldl flip_store h ps).
Proof.
  induction ps as [|p ps IH]; intros h Hps; simpl; [done|].
  apply Forall_cons in Hps as [Hp Hps].
  rewrite (bind_eq _ _ _ _ _ (Polygon_flip_run _ _ Hp)).
  apply IH. eapply Forall_impl; [done|]. intros q. apply flip_store_valid.
Qed.

(** ** [invert] as a function of the store *)

Lemma invert_run n : ∀ h,
  Forall (valid_polygon h) (BSPNode.allPolygons n) →
  BSPNode.invert n h = Some (inverted n, foldl flip_store h (invert_order n)).
Proof.
  induction n as [pl ps f b IHf IHb] using BSPNode_ind'. intros h Hn.
  rewrite allPolygons_Node, !Forall_app in Hn. destruct Hn as (Hps & Hf & Hb).
  cbn [BSPNode.invert inverted invert_order].
  rewrite (bind_eq _ _ _ _ _ (forM_Polygon_flip_run _ _ Hps)).
  set (h1 := foldl flip_store h ps).
  assert (∀ q, valid_polygon h q → valid_polygon h1 q) as H1
    by (intros q; apply foldl_flip_store_valid).
  destruct b as [cb|]; destruct f as [cf|]; cbn [child_polygons] in *.
  - erewrite bind_eq; last first.
    { erewrite bind_eq; [done|]. apply (IHb cb eq_refl).
      eapply Forall_impl; [exact Hb|exact H1]. }
    erewrite bind_eq; last first.
    { erewrite bind_eq; [done|]. apply (IHf cf eq_refl).
      eapply Forall_impl; [exact Hf|]. intros q Hq.
      by apply foldl_flip_store_valid, H1. }
    unfold ret. by rewrite !foldl_app.
  - erewrite bind_eq; last first.
    { erewrite bind_eq; [done|]. apply (IHb cb eq_refl).
      eapply Forall_impl; [exact Hb|exact H1]. }
    unfold bind, ret. by rewrite !foldl_app.
  - unfold bind at 1, ret at 1.
    erewrite bind_eq; last first.
    { erewrite bind_eq; [done|]. apply (IHf cf eq_refl).
      eapply Forall_impl; [exact Hf|exact H1]. }
    unfold ret. by rewrite !foldl_app.
  - unfold bind, ret. by rewrite !foldl_app.
Qed.

Lemma inverted_involutive n : inverted (inverted n) = n.
Proof.
  induction n as [pl ps f b IHf IHb] using BSPNode_ind'.
  cbn [inverted]. f_equal.
  - destruct pl; simpl; [|done]. by rewrite Plane_flip_involutive.
  - destruct f as [c|]; [|done]. by rewrite (IHf c eq_refl).
  - destruct b as [c|]; [|done]. by rewrite (IHb c eq_refl).
Qed.

Lemma invert_order_perm n : invert_order n ≡ₚ BSPNode.allPolygons n.
Proof.
  induction n as [pl ps f b IHf IHb] using BSPNode_ind'.
  cbn [invert_order BSPNode.allPolygons]. apply Permutation_app_head.
  rewrite Permutation_app_comm. apply Permutation_app.
  - destruct f as [c|]; [|done]. by apply IHf.
  - destruct b as [c|]; [|done]. by apply IHb.
Qed.

Lemma allPolygons_inverted n : BSPNode.allPolygons (inverted n) ≡ₚ BSPNode.allPolygons n.
Proof.
  induction n as [pl ps f b IHf IHb] using BSPNode_ind'.
  cbn [inverted BSPNode.allPolygons]. apply Permutation_app_head.
  rewrite Permutation_app_comm. apply Permutation_app.
  - destruct f as [c|]; [|done]. by apply IHf.
  - destruct b as [c|]; [|done]. by apply IHb.
Qed.

(** Inverting a tree twice restores the tree and the store. *)
Lemma invert_inverted_run n h :
  Forall (valid_polygon h) (BSPNode.allPolygons n) →
  BSPNode.invert (inverted n) (foldl flip_store h (invert_order n)) = Some (n, h).
Proof.
  intros Hn. rewrite invert_run.
  - rewrite inverted_involutive. do 2 f_equal.
    apply foldl_twice.
    + intros. apply flip_store_comm.
    + intros. apply flip_store_twice.
    + by rewrite !invert_order_perm, allPolygons_inverted.
  - rewrite allPolygons_inverted.
    eapply Forall_impl; [exact Hn|]. intros q. apply foldl_flip_store_valid.
Qed.

(** ** Operations with the empty tree *)

Lemma clipPolygons_nil n : ∀ h, BSPNode.clipPolygons n [] h = Some ([], h).
Proof.
  induction n as [pl ps f b IHf IHb] using BSPNode_ind'. intros h.
  cbn [BSPNode.clipPolygons]. destruct pl as [pl|]; [|done].
  cbn [foldM]. unfold bind at 1, ret at 1.
  destruct f as [cf|]; destruct b as [cb|].
  - by rewrite (bind_eq _ _ _ _ _ (IHf cf eq_refl h)), (bind_eq _ _ _ _ _ (IHb cb eq_refl h)).
  - by rewrite (bind_eq _ _ _ _ _ (IHf cf eq_refl h)).
  - unfold bind at 1, ret at 1. by rewrite (bind_eq _ _ _ _ _ (IHb cb eq_refl h)).
  - done.
Qed.

Lemma clipTo_empty n : ∀ h, BSPNode.clipTo n BSPNode.empty h = Some (n, h).
Proof.
  induction n as [pl ps f b IHf IHb] using BSPNode_ind'. intros h.
  cbn [BSPNode.clipTo BSPNode.clipPolygons BSPNode.empty].
  unfold bind at 1, ret at 1.
  destruct f as [cf|]; destruct b as [cb|].
  - erewrite bind_eq; last by (erewrite bind_eq; [done|apply (IHf cf eq_refl)]).
    erewrite bind_eq; last by (erewrite bind_eq; [done|apply (IHb cb eq_refl)]).
    done.
  - erewrite bind_eq; last by (erewrite bind_eq; [done|apply (IHf cf eq_refl)]).
    done.
  - unfold bind at 1, ret at 1.
    erewrite bind_eq; last by (erewrite bind_eq; [done|apply (IHb cb eq_refl)]).
    done.
  - done.
Qed.

Lemma clipTo_of_empty n h : BSPNode.clipTo BSPNode.empty n h = Some (BSPNode.empty, h).
Proof.
  cbn [BSPNode.clipTo BSPNode.empty]. by rewrite (bind_eq _ _ _ _ _ (clipPolygons_nil n h)).
Qed.

Lemma invert_empty h : BSPNode.invert BSPNode.empty h = Some (BSPNode.empty, h).
Proof. done. Qed.

Lemma build_nil fuel n h : BSPNode.build fuel n [] h = Some (n, h).
Proof. by destruct fuel. Qed.

(** ** Boolean operations with an empty operand *)

Lemma fresh_valid h0 h p : op_inv h0 h → fresh_polygon h0 h p → valid_polygon h p.
Proof.
  intros Hinv Hp. destruct (lookup_lt_is_Some_2 (polygon_objs h) p) as [o Ho].
  { apply Hp. }
  exists o. split; [done|].
  eapply Forall_impl; [by eapply op_inv_vertices|]. intros v [_ ?]. done.
Qed.

(** The tree of a clone lists valid polygons, and building it writes to no
    object of the store. *)
Lemma tree_of_clone_valid fuel A h a h2 :
  tree_of_clone fuel A h = Some (a, h2) →
  heap_prefix h h2 ∧ Forall (valid_polygon h2) (BSPNode.allPolygons a).
Proof.
  intros Hrun. unfold tree_of_clone in Hrun.
  pose proof (op_inv_refl h) as Hinv.
  apply bind_inv in Hrun as (cA & h1 & Hclone & Hrun).
  destruct (CSG_clone_inv _ _ _ _ _ Hinv Hclone) as (Hinv1 & Hg1 & lA' & pA' & HcA & HlA & HpA).
  apply bind_inv in Hrun as (lA & h3 & Hget & Hrun).
  apply get_csg_Some in Hget as [HcA' ->].
  apply bind_inv in Hrun as (pA & h3 & Hget & Hrun).
  apply get_list_Some in Hget as [HlA' ->]. simplify_eq.
  destruct (BSPNode_new_inv _ _ _ _ _ _ Hinv1 HpA Hrun) as (Hinv2 & Hg2 & Ha).
  split; [apply Hinv2|].
  eapply Forall_impl; [exact Ha|]. intros p. by apply fresh_valid.
Qed.

Lemma solid_value_nil h E :
  solid_value h E = Some [] →
  ∃ l, csg_objs h !! E = Some l ∧ list_objs h !! l = Some [].
Proof.
  intros H. apply solid_value_Some in H as (l & ps & Hc & Hl & Hps).
  apply Forall2_nil_inv_r in Hps as ->. by exists l.
Qed.

(** Cloning an empty solid creates two lists and a solid. *)
Lemma CSG_clone_empty_run h E :
  solid_value h E = Some [] →
  CSG.clone E h
  = Some (length (csg_objs h),
          Heap (vertex_objs h) (polygon_objs h) (list_objs h ++ [[]; []])
               (csg_objs h ++ [S (length (list_objs h))])).
Proof.
  intros H. apply solid_value_nil in H as (l & Hc & Hl).
  unfold CSG.clone, CSG.new.
  unfold bind at 1. unfold bind at 1. unfold alloc_list at 1, alloc_csg at 1.
  heap_simpl.
  erewrite bind_eq; last first.
  { unfold get_csg, lift_option. simpl. by rewrite (lookup_app_l_Some _ _ _ _ Hc). }
  erewrite bind_eq; last first.
  { unfold get_list, lift_option. simpl. by rewrite (lookup_app_l_Some _ _ _ _ Hl). }
  cbn [map_M]. unfold bind, ret, alloc_list, put_csg. heap_simpl.
  rewrite decide_True by (rewrite length_app; simpl; lia).
  do 3 f_equal.
  - by rewrite <- app_assoc.
  - rewrite insert_app_r_alt, Nat.sub_diag by lia. simpl.
    by rewrite length_app, Nat.add_1_r.
Qed.

(** The rest of a Boolean operation, from the two trees. *)
Lemma union_of_trees fuel A B h :
  CSG.union fuel A B h
  = (a <- tree_of_clone fuel A ;;
     b <- tree_of_clone fuel B ;;
     ab <- foldM (run_tree_op fuel) (a, b) union_sequence ;;
     l <- alloc_list (BSPNode.allPolygons (fst ab)) ;;
     CSG.fromPolygons l) h.
Proof.
  rewrite union_as_sequence. unfold boolean_operation, tree_of_clone.
  step_both.
Qed.

Lemma subtract_of_trees fuel A B h :
  CSG.subtract fuel A B h
  = (a <- tree_of_clone fuel A ;;
     b <- tree_of_clone fuel B ;;
     ab <- foldM (run_tree_op fuel) (a, b) subtract_sequence ;;
     l <- alloc_list (BSPNode.allPolygons (fst ab)) ;;
     CSG.fromPolygons l) h.
Proof.
  rewrite subtract_follows_sequence. unfold boolean_operation, tree_of_clone.
  step_both.
Qed.

Lemma intersect_of_trees fuel A B h :
  CSG.intersect fuel A B h
  = (a <- tree_of_clone fuel A ;;
     b <- tree_of_clone fuel B ;;
     ab <- foldM (run_tree_op fuel) (a, b) intersect_sequence ;;
     l <- alloc_list (BSPNode.allPolygons (fst ab)) ;;
     CSG.fromPolygons l) h.
Proof.
  rewrite intersect_follows_sequence. unfold boolean_operation, tree_of_clone.
  step_both.
Qed.

Lemma tree_of_clone_empty fuel E h :
  solid_value h E = Some [] →
  tree_of_clone fuel E h
  = Some (BSPNode.empty,
          Heap (vertex_objs h) (polygon_objs h) (list_objs h ++ [[]; []])
               (csg_objs h ++ [S (length (list_objs h))])).
Proof.
  intros H. unfold tree_of_clone.
  rewrite (bind_eq _ _ _ _ _ (CSG_clone_empty_run _ _ H)).
  unfold bind, get_csg, get_list, lift_option. simpl.
  rewrite lookup_app_r, Nat.sub_diag by lia. simpl.
  replace (S (length (list_objs h))) with (length (list_objs h) + 1) by lia.
  rewrite lookup_app_r by lia.
  replace (length (list_objs h) + 1 - length (list_objs h)) with 1 by lia.
  done.
Qed.

(** One operation of a sequence when the tree [b] is empty. *)
Lemma run_tree_op_empty fuel a h op :
  keeps_empty op →
  run_tree_op fuel (a, BSPNode.empty) op h = Some ((a, BSPNode.empty), h).
Proof.
  intros Hop. destruct op as [[] []|[]|[] []]; try done;
    cbn [run_tree_op get_tree set_tree fst snd].
  - by rewrite (bind_eq _ _ _ _ _ (clipTo_empty a h)).
  - by rewrite (bind_eq _ _ _ _ _ (clipTo_of_empty a h)).
  - change (BSPNode.allPolygons BSPNode.empty) with (@nil nat).
    by rewrite (bind_eq _ _ _ _ _ (build_nil fuel a h)).
  - change (BSPNode.allPolygons BSPNode.empty) with (@nil nat).
    by rewrite (bind_eq _ _ _ _ _ (build_nil fuel BSPNode.empty h)).
Qed.

Lemma foldM_run_tree_op_empty fuel a ops : ∀ h,
  Forall keeps_empty ops →
  foldM (run_tree_op fuel) (a, BSPNode.empty) ops h = Some ((a, BSPNode.empty), h).
Proof.
  induction ops as [|op ops IH]; intros h Hops; [done|].
  apply Forall_cons in Hops as [Hop Hops]. cbn [foldM].
  rewrite (bind_eq _ _ _ _ _ (run_tree_op_empty fuel a h op Hop)). by apply IH.
Qed.

Lemma run_Invert_A fuel a b h :
  Forall (valid_polygon h) (BSPNode.allPolygons a) →
  run_tree_op fuel (a, b) (Invert TreeA) h
  = Some ((inverted a, b), foldl flip_store h (invert_order a)).
Proof.
  intros Ha. cbn [run_tree_op get_tree set_tree fst snd].
  by rewrite (bind_eq _ _ _ _ _ (invert_run a h Ha)).
Qed.

Lemma run_Invert_A_back fuel a b h :
  Forall (valid_polygon h) (BSPNode.allPolygons a) →
  run_tree_op fuel (inverted a, b) (Invert TreeA) (foldl flip_store h (invert_order a))
  = Some ((a, b), h).
Proof.
  intros Ha. cbn [run_tree_op get_tree set_tree fst snd].
  by rewrite (bind_eq _ _ _ _ _ (invert_inverted_run a h Ha)).
Qed.

Lemma foldM_app {A S} (f : S → A → M S) l1 : ∀ l2 s h,
  foldM f s (l1 ++ l2) h = (s' <- foldM f s l1 ;; foldM f s' l2) h.
Proof.
  induction l1 as [|x l1 IH]; intros l2 s h; [done|].
  simpl. unfold bind. destruct (f s x h) as [[s1 h1]|]; [|done].
  rewrite IH. done.
Qed.

(** With the empty tree as [b], each of the three sequences leaves the tree
    [a] and the store as they were. *)
Lemma sequences_with_empty fuel a h :
  Forall (valid_polygon h) (BSPNode.allPolygons a) →
  foldM (run_tree_op fuel) (a, BSPNode.empty) union_sequence h
  = Some ((a, BSPNode.empty), h)
  ∧ foldM (run_tree_op fuel) (a, BSPNode.empty) subtract_sequence h
    = Some ((a, BSPNode.empty), h)
  ∧ foldM (run_tree_op fuel) (a, BSPNode.empty) intersect_sequence h
    = Some ((a, BSPNode.empty), h).
Proof.
  intros Ha.
  assert (∀ ops,
    Forall keeps_empty ops →
    foldM (run_tree_op fuel) (a, BSPNode.empty) (Invert TreeA :: ops ++ [Invert TreeA]) h
    = Some ((a, BSPNode.empty), h)) as Hsandwich.
  { intros ops Hops. cbn [foldM].
    rewrite (bind_eq _ _ _ _ _ (run_Invert_A fuel a _ h Ha)).
    rewrite foldM_app.
    rewrite (bind_eq _ _ _ _ _ (foldM_run_tree_op_empty fuel _ ops _ Hops)).
    cbn [foldM].
    by rewrite (bind_eq _ _ _ _ _ (run_Invert_A_back fuel a _ h Ha)). }
  split; [|split].
  - apply foldM_run_tree_op_empty. unfold union_sequence. by repeat constructor.
  - apply (Hsandwich [ClipTo TreeA TreeB; ClipTo TreeB TreeA;
                      Invert TreeB; ClipTo TreeB TreeA; Invert TreeB;
                      BuildFrom TreeA TreeB]).
    by repeat constructor.
  - apply (Hsandwich [ClipTo TreeB TreeA; Invert TreeB;
                      ClipTo TreeA TreeB; ClipTo TreeB TreeA;
                      BuildFrom TreeA TreeB]).
    by repeat constructor.
Qed.

Lemma valid_polygon_same_objs h h' p :
  vertex_objs h' = vertex_objs h → polygon_objs h' = polygon_objs h →
  valid_polygon h p → valid_polygon h' p.
Proof. unfold valid_polygon. by intros -> ->. Qed.

Lemma polygon_value_at_same_objs h h' p :
  vertex_objs h' = vertex_objs h → polygon_objs h' = polygon_objs h →
  polygon_value_at h' p = polygon_value_at h p.
Proof. unfold polygon_value_at. by intros -> ->. Qed.

Lemma fromPolygons_nil h l :
  list_objs h !! l = Some [] →
  ∃ c h', CSG.fromPolygons l h = Some (c, h') ∧ solid_value h' c = Some [].
Proof.
  intros Hl. eexists _, _. split; [apply CSG_fromPolygons_run|].
  unfold solid_value, list_value_at. simpl.
  rewrite lookup_app_r, Nat.sub_diag by lia. simpl.
  by rewrite (lookup_app_l_Some _ _ _ _ Hl).
Qed.

(** The last two steps of a Boolean operation: the polygons of the tree go
    into a new list, which becomes the list of a new solid. *)
Lemma solid_of_tree_run (a : BSPNode.t) h :
  ∃ C h', (l <- alloc_list (BSPNode.allPolygons a) ;; CSG.fromPolygons l) h = Some (C, h')
          ∧ (l <- CSG.toPolygons C ;; get_list l) h' = Some (BSPNode.allPolygons a, h')
          ∧ vertex_objs h' = vertex_objs h ∧ polygon_objs h' = polygon_objs h
          ∧ solid_value h' C = mapM (polygon_value_at h) (BSPNode.allPolygons a).
Proof.
  eexists _, _. split.
  { unfold bind at 1, alloc_list at 1. apply CSG_fromPolygons_run. }
  assert (∀ (x : list loc) ls,
            ((ls ++ [x]) ++ [[]]) !! length ls = Some x) as Hlook.
  { intros. rewrite <- app_assoc. by rewrite lookup_app_r, Nat.sub_diag by lia. }
  heap_simpl. split; [|split; [done|split; [done|]]].
  - unfold CSG.toPolygons, bind, get_csg, get_list, lift_option. simpl.
    rewrite lookup_app_r, Nat.sub_diag by lia. simpl.
    by rewrite Hlook.
  - unfold solid_value, list_value_at. simpl.
    rewrite lookup_app_r, Nat.sub_diag by lia. simpl.
    rewrite Hlook. simpl.
    apply mapM_ext. intros p. by apply polygon_value_at_same_objs.
Qed.

(** C5, as amended.  [fromPolygons] of an empty list is an empty solid.
    When [E] is an empty solid and the tree of a clone of [A] can be built,
    [A.union(E)] and [A.subtract(E)] return the same new solid: its polygon
    list is the list of all polygons of that tree, in the tree's order,
    where a polygon of the clone that spans a splitting plane appears as
    its parts.  The polygons and vertices are those the tree was built
    with. *)
Theorem boolean_operations_with_empty
    (fuel : nat) (A E : loc) (h h2 : heap) (a : BSPNode.t) :
  solid_value h E = Some [] →
  tree_of_clone fuel A h = Some (a, h2) →
  (∀ l h0, list_objs h0 !! l = Some [] →
     ∃ c h1, CSG.fromPolygons l h0 = Some (c, h1) ∧ solid_value h1 c = Some [])
  ∧ ∃ C h',
      CSG.union fuel A E h = Some (C, h')
      ∧ CSG.subtract fuel A E h = Some (C, h')
      ∧ (l <- CSG.toPolygons C ;; get_list l) h' = Some (BSPNode.allPolygons a, h')
      ∧ vertex_objs h' = vertex_objs h2 ∧ polygon_objs h' = polygon_objs h2
      ∧ solid_value h' C = mapM (polygon_value_at h2) (BSPNode.allPolygons a).
Proof.
  intros HE Ha. split; [intros l h0; apply fromPolygons_nil|].
  destruct (tree_of_clone_valid _ _ _ _ _ Ha) as [Hpre Hvalid].
  pose proof (solid_value_prefix _ _ _ _ Hpre HE) as HE2.
  pose proof (tree_of_clone_empty fuel E h2 HE2) as Hb.
  set (h3 := Heap (vertex_objs h2) (polygon_objs h2) (list_objs h2 ++ [[]; []])
                  (csg_objs h2 ++ [S (length (list_objs h2))])) in *.
  assert (Forall (valid_polygon h3) (BSPNode.allPolygons a)) as Hvalid3.
  { eapply Forall_impl; [exact Hvalid|]. intros p. by apply valid_polygon_same_objs. }
  destruct (sequences_with_empty fuel a h3 Hvalid3) as (Hu & Hs & _).
  destruct (solid_of_tree_run a h3) as (C & h' & Hrun & Hlist & Hv & Hp & Hval).
  exists C, h'. split; [|split; [|split; [done|split; [done|split; [done|]]]]].
  - rewrite union_of_trees.
    rewrite (bind_eq _ _ _ _ _ Ha), (bind_eq _ _ _ _ _ Hb), (bind_eq _ _ _ _ _ Hu).
    exact Hrun.
  - rewrite subtract_of_trees.
    rewrite (bind_eq _ _ _ _ _ Ha), (bind_eq _ _ _ _ _ Hb), (bind_eq _ _ _ _ _ Hs).
    exact Hrun.
  - rewrite Hval. apply mapM_ext. intros p. by apply polygon_value_at_same_objs.
Qed.

(** What [intersect] does with an empty second operand: the same. *)
Lemma intersect_with_empty (fuel : nat) (A E : loc) (h h2 : heap) (a : BSPNode.t) :
  solid_value h E = Some [] →
  tree_of_clone fuel A h = Some (a, h2) →
  CSG.intersect fuel A E h = CSG.union fuel A E h.
Proof.
  intros HE Ha.
  destruct (tree_of_clone_valid _ _ _ _ _ Ha) as [Hpre Hvalid].
  pose proof (solid_value_prefix _ _ _ _ Hpre HE) as HE2.
  pose proof (tree_of_clone_empty fuel E h2 HE2) as Hb.
  set (h3 := Heap (vertex_objs h2) (polygon_objs h2) (list_objs h2 ++ [[]; []])
                  (csg_objs h2 ++ [S (length (list_objs h2))])) in *.
  assert (Forall (valid_polygon h3) (BSPNode.allPolygons a)) as Hvalid3.
  { eapply Forall_impl; [exact Hvalid|]. intros p. by apply valid_polygon_same_objs. }
  destruct (sequences_with_empty fuel a h3 Hvalid3) as (Hu & _ & Hi).
  rewrite union_of_trees, intersect_of_trees.
  by rewrite !(bind_eq _ _ _ _ _ Ha), !(bind_eq _ _ _ _ _ Hb),
    (bind_eq _ _ _ _ _ Hu), (bind_eq _ _ _ _ _ Hi).
Qed.

Lemma boolean_operations_with_empty_witness :
  ∃ a h2,
    solid_value crossing_heap 1 = Some []
    ∧ tree_of_clone 5 0 crossing_heap = Some (a, h2)
    ∧ ∃ C h', CSG.union 5 0 1 crossing_heap = Some (C, h')
              ∧ CSG.subtract 5 0 1 crossing_heap = Some (C, h')
              ∧ solid_value h' C = mapM (polygon_value_at h2) (BSPNode.allPolygons a).
Proof.
  destruct (tree_of_clone 5 0 crossing_heap) as [[a h2]|] eqn:Ha;
    [|vm_compute in Ha; discriminate Ha].
  exists a, h2. split; [reflexivity|]. split; [reflexivity|].
  destruct (boolean_operations_with_empty 5 0 1 crossing_heap h2 a eq_refl Ha)
    as [_ (C & h' & Hu & Hs & _ & _ & _ & Hval)].
  exists C, h'. split; [exact Hu|]. split; [exact Hs|]. exact Hval.
Defined.

(** C5 as stated fails on [crossing_heap], where solid 1 is empty and the
    second triangle of solid 0 spans the plane of the first: the union of
    solid 0 with solid 1 has three polygons, a clone of solid 0 has two,
    and the intersection of solid 0 with solid 1 has three polygons, not
    none. *)
Lemma boolean_operations_with_empty_counterexample :
  solid_value crossing_heap 1 = Some []
  ∧ ∃ C h' c hc Ci hi,
      CSG.union 5 0 1 crossing_heap = Some (C, h')
      ∧ CSG.clone 0 crossing_heap = Some (c, hc)
      ∧ CSG.intersect 5 0 1 crossing_heap = Some (Ci, hi)
      ∧ length <$> solid_value h' C = Some 3
      ∧ length <$> solid_value hc c = Some 2
      ∧ length <$> solid_value hi Ci = Some 3
      ∧ solid_value h' C ≠ solid_value hc c
      ∧ solid_value hi Ci ≠ Some [].
Proof.
  split; [reflexivity|].
  destruct (CSG.union 5 0 1 crossing_heap) as [[C h']|] eqn:Hu;
    [|vm_compute in Hu; discriminate Hu].
  destruct (CSG.clone 0 crossing_heap) as [[c hc]|] eqn:Hc;
    [|vm_compute in Hc; discriminate Hc].
  destruct (CSG.intersect 5 0 1 crossing_heap) as [[Ci hi]|] eqn:Hi;
    [|vm_compute in Hi; discriminate Hi].
  assert (length <$> solid_value h' C = Some 3) as H3.
  { vm_compute in Hu. injection Hu as <- <-. vm_compute. reflexivity. }
  assert (length <$> solid_value hc c = Some 2) as H2.
  { vm_compute in Hc. injection Hc as <- <-. vm_compute. reflexivity. }
  assert (length <$> solid_value hi Ci = Some 3) as H3i.
  { vm_compute in Hi. injection Hi as <- <-. vm_compute. reflexivity. }
  exists C, h', c, hc, Ci, hi.
  split; [reflexivity|]. split; [reflexivity|]. split; [reflexivity|].
  split; [exact H3|]. split; [exact H2|]. split; [exact H3i|]. split.
  - intros Heq. rewrite Heq, H2 in H3. discriminate H3.
  - intros Heq. rewrite Heq in H3i. discriminate H3i.
Qed.

(** * More of [csg/core.py] *)


(** ** Loops over the vertices of a solid *)

(** A loop whose body replaces each Vertex object by its image under
    [f]. *)
Lemma forM_vertices_run (f : vertex → vertex) (body : loc → M unit) (vs : list loc) :
  (∀ h v o, vertex_objs h !! v = Some o →
            body v h = Some (tt, set_vertex_objs h (alter f v (vertex_objs h)))) →
  ∀ h, Forall (λ v, v < length (vertex_objs h)) vs →
       forM_ vs body h = Some (tt, update_vertices f vs h).
Proof.
  intros Hbody. unfold update_vertices.
  induction vs as [|v vs IH]; intros h Hvs; simpl.
  - unfold ret, set_vertex_objs. by rewrite heap_eta.
  - apply Forall_cons in Hvs as [Hv Hvs].
    destruct (lookup_lt_is_Some_2 _ _ Hv) as [o Ho].
    rewrite (bind_eq _ _ _ _ _ (Hbody h v o Ho)).
    rewrite IH; [done|]. heap_simpl. by rewrite length_alter.
Qed.

Lemma for_each_vertex_run (f : vertex → vertex) (body : loc → M unit)
    (self : loc) (h : heap) (refs : list loc) :
  (∀ h v o, vertex_objs h !! v = Some o →
            body v h = Some (tt, set_vertex_objs h (alter f v (vertex_objs h)))) →
  solid_vertex_refs h self = Some refs →
  Forall (λ v, v < length (vertex_objs h)) refs →
  for_each_vertex self body h = Some (tt, update_vertices f refs h).
Proof.
  intros Hbody Hrefs Hlt. unfold solid_vertex_refs in Hrefs.
  destruct (csg_objs h !! self) as [l|] eqn:Hc; simplify_eq/=.
  destruct (list_objs h !! l) as [ps|] eqn:Hl; simplify_eq/=.
  destruct (mapM _ ps) as [os|] eqn:Hos; simplify_eq/=.
  unfold for_each_vertex.
  erewrite bind_eq; last by (unfold get_csg; rewrite Hc).
  erewrite bind_eq; last by (unfold get_list; rewrite Hl).
  clear Hc Hl. unfold update_vertices.
  revert h os Hos Hlt. induction ps as [|p ps IH]; intros h os Hos Hvs.
  - apply mapM_Some, Forall2_nil_inv_l in Hos as ->. simpl.
    unfold ret, set_vertex_objs. by rewrite heap_eta.
  - apply mapM_cons_Some in Hos as (o & os' & Ho & Hos & ->).
    rewrite fmap_cons in *. cbn [concat] in *.
    apply Forall_app in Hvs as [Hv Hvs].
    cbn [forM_].
    erewrite bind_eq; last first.
    { erewrite bind_eq; last by (unfold get_polygon; rewrite Ho).
      by apply (forM_vertices_run f). }
    unfold update_vertices. rewrite (IH _ os').
    + heap_simpl. by rewrite foldl_alter_app.
    + done.
    + heap_simpl. eapply Forall_impl; [done|]. simpl. intros v.
      by rewrite foldl_alter_length.
Qed.

(** The vertex references of a solid that has a value are in range. *)
Lemma solid_vertex_refs_lt h self pvs refs :
  solid_value h self = Some pvs →
  solid_vertex_refs h self = Some refs →
  Forall (λ v, v < length (vertex_objs h)) refs.
Proof.
  intros Hval Hrefs.
  destruct (solid_value_Some _ _ _ Hval) as (l & ps & Hc & Hl & Hps).
  destruct (polygon_values_objs _ _ _ Hps) as (os & Hos & Hvals).
  unfold solid_vertex_refs in Hrefs. rewrite Hc in Hrefs. simpl in Hrefs.
  rewrite Hl in Hrefs. simpl in Hrefs. rewrite Hos in Hrefs. simplify_eq/=.
  clear -Hvals. induction Hvals as [|o pv os pvs [Hvs _] _ IH]; [constructor|].
  rewrite fmap_cons. cbn [concat]. apply Forall_app. split; [|done].
  apply mapM_Some in Hvs. clear -Hvs.
  induction Hvs as [|v ov vs ovs Hv _ IH]; constructor; [|done].
  by eapply lookup_lt_Some.
Qed.

(** A solid that has a value has vertex references. *)
Lemma solid_vertex_refs_is_Some h self pvs :
  solid_value h self = Some pvs → is_Some (solid_vertex_refs h self).
Proof.
  intros Hval.
  destruct (solid_value_Some _ _ _ Hval) as (l & ps & Hc & Hl & Hps).
  destruct (polygon_values_objs _ _ _ Hps) as (os & Hos & Hvals).
  unfold solid_vertex_refs. rewrite Hc. simpl. rewrite Hl. simpl. rewrite Hos.
  by eexists.
Qed.

(** The value of a solid whose polygons share no Vertex object, after the
    update of its vertices. *)
Lemma update_vertices_value (f : vertex → vertex) h self pvs refs :
  solid_value h self = Some pvs →
  solid_vertex_refs h self = Some refs →
  NoDup refs →
  solid_value (update_vertices f refs h) self = Some (map_vertices f <$> pvs).
Proof.
  intros Hval Hrefs Hnd.
  destruct (solid_value_Some _ _ _ Hval) as (l & ps & Hc & Hl & Hps).
  destruct (polygon_values_objs _ _ _ Hps) as (os & Hos & Hvals).
  unfold solid_vertex_refs in Hrefs. rewrite Hc in Hrefs. simpl in Hrefs.
  rewrite Hl in Hrefs. simpl in Hrefs. rewrite Hos in Hrefs. simplify_eq/=.
  unfold solid_value, update_vertices. simpl. rewrite Hc. simpl.
  unfold list_value_at. simpl.
  rewrite Hl. simpl. apply mapM_Some, Forall2_fmap_r.
  assert (∀ o, o ∈ os → vertices o ⊆ concat (vertices <$> os)) as Hsub.
  { intros o Ho v Hv. apply elem_of_concat. exists (vertices o).
    split; [|done]. by apply list_elem_of_fmap_2. }
  apply mapM_Some in Hos.
  clear Hps. revert Hnd Hsub Hos. generalize (concat (vertices <$> os)) as refs.
  intros refs Hnd Hsub0 Hos0.
  assert (Forall2 (λ p pv, ∃ o, o ∈ os ∧ polygon_objs h !! p = Some o
                            ∧ mapM (λ v, vertex_objs h !! v) (vertices o)
                              = Some (pv_vertices pv)
                            ∧ plane o = pv_plane pv) ps pvs) as Hall.
  { clear -Hos0 Hvals. revert pvs Hvals.
    induction Hos0 as [|p o ps os Hp _ IH]; intros pvs Hvals.
    - apply Forall2_nil_inv_l in Hvals as ->. constructor.
    - apply Forall2_cons_inv_l in Hvals as (pv & pvs' & [Hv Hpl] & Hvals & ->).
      constructor.
      + exists o. split; [by left|done].
      + eapply Forall2_impl; [by apply IH|]. simpl.
        intros p' pv' (o' & ? & ?). exists o'. split; [by right|done]. }
  eapply Forall2_impl; [exact Hall|]. simpl.
  intros p pv (o & Hin & Ho & Hvs & Hpl).
  unfold polygon_value_at. simpl. rewrite Ho. simpl.
  assert (mapM (λ v, foldl (λ V v0, alter f v0 V) (vertex_objs h) refs !! v)
            (vertices o) = Some (f <$> pv_vertices pv)) as ->.
  { apply mapM_Some, Forall2_fmap_r. apply mapM_Some in Hvs.
    by apply moved_vertices_lookup; [|apply Hsub0|]. }
  simpl. unfold map_vertices. by rewrite Hpl.
Qed.

(** The body of the inner loop of [translate]. *)
Lemma translate_body_run (d : Vector.t) h v o :
  vertex_objs h !! v = Some o →
  (ov <- get_vertex v ;; put_vertex v (Vertex_obj (Vector.plus (pos ov) d) (normal ov))) h
  = Some (tt, set_vertex_objs h (alter (moved d) v (vertex_objs h))).
Proof.
  intros Ho. erewrite bind_eq; last by (unfold get_vertex; rewrite Ho).
  unfold put_vertex. rewrite decide_True by by eapply lookup_lt_Some.
  by rewrite <- (list_insert_alter (moved d) _ _ _ Ho).
Qed.

Lemma translate_run h self disp d0 d1 d2 pvs refs :
  disp !! 0 = Some d0 → disp !! 1 = Some d1 → disp !! 2 = Some d2 →
  solid_value h self = Some pvs →
  solid_vertex_refs h self = Some refs →
  CSG.translate self disp h
  = Some (tt, update_vertices (moved (Vector.mk d0 d1 d2)) refs h).
Proof.
  intros H0 H1 H2 Hval Hrefs.
  unfold CSG.translate, bind at 1, lift_option at 1. rewrite H0.
  unfold bind at 1, lift_option at 1. rewrite H1.
  unfold bind at 1, lift_option at 1. rewrite H2.
  apply (for_each_vertex_run (moved (Vector.mk d0 d1 d2))); [|done|].
  - intros h' v o Ho. exact (translate_body_run _ _ _ _ Ho).
  - by eapply solid_vertex_refs_lt.
Qed.


(** ** [clone] makes a solid that owns its polygons and vertices *)

Lemma polygon_value_at_inv h p v :
  polygon_value_at h p = Some v →
  ∃ o, polygon_objs h !! p = Some o
       ∧ mapM (λ v, vertex_objs h !! v) (vertices o) = Some (pv_vertices v)
       ∧ plane o = pv_plane v.
Proof.
  unfold polygon_value_at. intros H.
  destruct (polygon_objs h !! p) as [o|] eqn:Ho; simplify_eq/=.
  destruct (mapM _ (vertices o)) as [os|] eqn:Hos; simplify_eq/=.
  by exists o.
Qed.

(** The clones of a list of polygons are the next polygon objects, and
    their vertex lists, one after the other, are the next vertex objects in
    order: no Vertex object is listed twice. *)
Lemma map_M_Polygon_clone_owned ps : ∀ h vs,
  mapM (polygon_value_at h) ps = Some vs →
  ∃ h' new,
    map_M Polygon.clone ps h = Some (seq (length (polygon_objs h)) (length ps), h')
    ∧ heap_prefix h h'
    ∧ polygon_objs h' = polygon_objs h ++ new
    ∧ length new = length ps
    ∧ concat (vertices <$> new)
      = seq (length (vertex_objs h)) (length (vertex_objs h') - length (vertex_objs h))
    ∧ mapM (polygon_value_at h') (seq (length (polygon_objs h)) (length ps)) = Some vs
    ∧ list_objs h' = list_objs h ∧ csg_objs h' = csg_objs h.
Proof.
  induction ps as [|p ps IH]; intros h vs H.
  - apply mapM_Some, Forall2_nil_inv_l in H as ->. exists h, [].
    simpl. rewrite app_nil_r, Nat.sub_diag. by repeat split.
  - apply mapM_cons_Some in H as (v & vs' & Hv & Hvs & ->).
    destruct (polygon_value_at_inv _ _ _ Hv) as (o & Ho & Hos & Hpl).
    pose proof (Polygon_clone_run _ _ _ _ Ho Hos) as Hrun.
    set (h1 := Heap (vertex_objs h ++ pv_vertices v)
                 (polygon_objs h ++
                    [Polygon_obj (seq (length (vertex_objs h)) (length (pv_vertices v)))
                       (plane o)])
                 (list_objs h) (csg_objs h)) in *.
    assert (heap_prefix h h1) as Hpre1.
    { repeat split; simpl; try done; by apply prefix_app_r. }
    destruct (IH h1 vs') as (h2 & new & Hrun2 & Hpre2 & Hp2 & Hlen & Hcat & Hval2 & Hl2 & Hc2).
    { revert Hvs. rewrite !mapM_Some. intros Hvs.
      eapply Forall2_impl; [done|]. simpl. eauto using polygon_value_at_prefix. }
    assert (length (vertex_objs h1) ≤ length (vertex_objs h2)) as Hle.
    { apply prefix_length, Hpre2. }
    revert Hrun2 Hp2 Hcat Hval2 Hle. subst h1. simpl.
    rewrite !length_app. simpl. rewrite Nat.add_1_r.
    intros Hrun2 Hp2 Hcat Hval2 Hle.
    exists h2, (Polygon_obj (seq (length (vertex_objs h)) (length (pv_vertices v)))
                  (plane o) :: new).
    rewrite (bind_eq _ _ _ _ _ Hrun), (bind_eq _ _ _ _ _ Hrun2).
    split; [done|]. split; [by etrans|].
    split; [by rewrite Hp2, <- app_assoc|].
    split; [simpl; by rewrite Hlen|].
    split; [|split; [|split; [exact Hl2|exact Hc2]]].
    + rewrite fmap_cons. cbn [concat vertices]. rewrite Hcat, <- seq_app. f_equal. lia.
    + apply mapM_cons_Some. eexists _, _. split; [|done].
      eapply polygon_value_at_prefix; [exact Hpre2|].
      unfold polygon_value_at. simpl.
      rewrite lookup_app_r, Nat.sub_diag by lia. simpl.
      rewrite mapM_lookup_seq. simpl. by rewrite Hpl; destruct v.
Qed.

(** [clone], with the vertex references of the copy. *)
Lemma CSG_clone_owned h self vs :
  solid_value h self = Some vs →
  ∃ h', CSG.clone self h = Some (length (csg_objs h), h')
        ∧ heap_prefix h h'
        ∧ solid_value h' (length (csg_objs h)) = Some vs
        ∧ solid_vertex_refs h' (length (csg_objs h))
          = Some (seq (length (vertex_objs h))
                      (length (vertex_objs h') - length (vertex_objs h)))
        ∧ csg_objs h' !! length (csg_objs h) = Some (S (length (list_objs h)))
        ∧ list_objs h' !! S (length (list_objs h))
          = Some (seq (length (polygon_objs h)) (length vs))
        ∧ length (polygon_objs h') = length (polygon_objs h) + length vs.
Proof.
  unfold solid_value at 1, list_value_at. intros H.
  destruct (csg_objs h !! self) as [l|] eqn:Hc; simplify_eq/=.
  destruct (list_objs h !! l) as [ps|] eqn:Hl; simplify_eq/=.
  set (h1 := Heap (vertex_objs h) (polygon_objs h) (list_objs h ++ [[]])
                  (csg_objs h ++ [length (list_objs h)])).
  assert (heap_prefix h h1) as Hpre1.
  { repeat split; simpl; try done; by apply prefix_app_r. }
  assert (length ps = length vs) as Hlen.
  { apply mapM_Some in H. by eapply Forall2_length. }
  destruct (map_M_Polygon_clone_owned ps h1 vs)
    as (h2 & new & Hrun & Hpre2 & Hp2 & Hnew & Hcat & Hval & Hl2 & Hc2).
  { revert H. rewrite !mapM_Some. intros H.
    eapply Forall2_impl; [done|]. simpl. eauto using polygon_value_at_prefix. }
  simpl in *.
  eexists. split; [|split; [|split; [|split; [|split; [|split]]]]].
  - unfold CSG.clone, CSG.new.
    unfold bind at 1. unfold bind at 1. unfold alloc_list at 1, alloc_csg at 1.
    heap_simpl. fold h1.
    erewrite bind_eq; last first.
    { unfold get_csg, lift_option. subst h1. simpl. by rewrite lookup_app_l_Some with (x := l). }
    erewrite bind_eq; last first.
    { unfold get_list, lift_option. subst h1. simpl. by rewrite lookup_app_l_Some with (x := ps). }
    rewrite (bind_eq _ _ _ _ _ Hrun).
    unfold bind at 1, alloc_list at 1.
    unfold bind, put_csg. heap_simpl. rewrite Hc2. subst h1. simpl.
    rewrite decide_True by (rewrite length_app; simpl; lia).
    unfold ret. done.
  - destruct Hpre2 as (? & ? & ? & ?). destruct Hpre1 as (? & ? & ? & ?).
    repeat split; simpl; try (by etrans).
    + apply prefix_app_r. by etrans.
    + apply prefix_insert_ge; [|done]. by apply prefix_app_r.
  - unfold solid_value. simpl.
    rewrite list_lookup_insert_eq by (rewrite length_app; simpl; lia). simpl.
    unfold list_value_at. simpl.
    rewrite lookup_app_r, Nat.sub_diag by lia. simpl.
    revert Hval. rewrite !mapM_Some. intros Hval.
    eapply Forall2_impl; [done|]. simpl. intros q v Hq.
    by unfold polygon_value_at in *.
  - unfold solid_vertex_refs. simpl.
    rewrite list_lookup_insert_eq by (rewrite length_app; simpl; lia). simpl.
    rewrite lookup_app_r, Nat.sub_diag by lia. simpl.
    rewrite Hp2, <- Hnew, mapM_lookup_seq. simpl. by rewrite Hcat.
  - simpl. rewrite list_lookup_insert_eq by (rewrite length_app; simpl; lia).
    by rewrite Hl2, length_app, Nat.add_1_r.
  - simpl. rewrite Hl2.
    rewrite lookup_app_r by (rewrite length_app; simpl; lia).
    rewrite length_app. simpl.
    replace (S (length (list_objs h)) - (length (list_objs h) + 1)) with 0 by lia.
    simpl. by rewrite Hlen.
  - simpl. rewrite Hp2, length_app. lia.
Qed.


Lemma update_vertices_prefix (f : vertex → vertex) (refs : list loc) (h0 h : heap) :
  heap_prefix h0 h →
  Forall (λ v, length (vertex_objs h0) ≤ v) refs →
  heap_prefix h0 (update_vertices f refs h).
Proof.
  intros (Hv & Hp & Hl & Hc) Hrefs. unfold update_vertices.
  repeat split; simpl; try done.
  clear Hp Hl Hc. revert Hv. generalize (vertex_objs h) as V.
  induction Hrefs as [|v refs Hv _ IH]; intros V HV; simpl; [done|].
  apply IH. by apply prefix_alter_ge.
Qed.

Lemma Forall_seq_ge (s n : nat) : Forall (λ v, s ≤ v) (seq s n).
Proof. apply Forall_forall. intros v Hv%elem_of_seq. lia. Qed.

(** X1: [clone] returns a new solid whose polygons have the values of the
    original's, and writes to no object that existed before.  The copy
    shares nothing with the original: its polygon list, its Polygon objects
    and their Vertex objects are all created by the call, and each Vertex
    object of the copy is referenced exactly once (a Vertex object that two
    polygons of the original share is copied once per reference). *)
Theorem clone_is_deep_copy (h : heap) (self : loc) (vs : list polygon_value) :
  solid_value h self = Some vs →
  ∃ c h' l ps refs,
    CSG.clone self h = Some (c, h')
    ∧ heap_prefix h h'
    ∧ solid_value h' c = Some vs
    ∧ csg_objs h !! c = None
    ∧ csg_objs h' !! c = Some l
    ∧ list_objs h !! l = None
    ∧ list_objs h' !! l = Some ps
    ∧ Forall (fresh_polygon h h') ps
    ∧ solid_vertex_refs h' c = Some refs
    ∧ Forall (fresh_vertex h h') refs
    ∧ NoDup refs.
Proof.
  intros Hval.
  destruct (CSG_clone_owned _ _ _ Hval)
    as (h' & Hrun & Hpre & Hval' & Hrefs & Hc & Hl & Hlen).
  eexists _, h', _, _, _. split; [exact Hrun|]. split; [done|]. split; [done|].
  split; [by apply lookup_ge_None_2|]. split; [exact Hc|].
  split; [apply lookup_ge_None_2; lia|]. split; [exact Hl|].
  split; [|split; [exact Hrefs|split]].
  - apply Forall_forall. intros p Hp%elem_of_seq. unfold fresh_polygon. lia.
  - apply Forall_forall. intros v Hv%elem_of_seq. unfold fresh_vertex.
    destruct Hpre as (Hv' & _). apply prefix_length in Hv'. lia.
  - apply NoDup_seq.
Qed.

Lemma clone_is_deep_copy_witness :
  ∃ c h' l ps refs,
    CSG.clone 0 three_solids_heap = Some (c, h')
    ∧ heap_prefix three_solids_heap h'
    ∧ solid_value h' c = solid_value three_solids_heap 0
    ∧ csg_objs three_solids_heap !! c = None
    ∧ csg_objs h' !! c = Some l
    ∧ list_objs three_solids_heap !! l = None
    ∧ list_objs h' !! l = Some ps
    ∧ Forall (fresh_polygon three_solids_heap h') ps
    ∧ solid_vertex_refs h' c = Some refs
    ∧ Forall (fresh_vertex three_solids_heap h') refs
    ∧ NoDup refs.
Proof.
  destruct (solid_value three_solids_heap 0) as [vs|] eqn:Hval;
    [|vm_compute in Hval; discriminate Hval].
  exact (clone_is_deep_copy three_solids_heap 0 vs Hval).
Defined.

(** X2: translating a clone does not move the original.  After
    [c = A.clone(); c.translate(d)] no object that existed before the two
    calls has changed, [A] has the value it had, and every vertex of [c] is
    a vertex of [A] moved by [d]. *)
Theorem translate_clone_leaves_original (h : heap) (A : loc) (disp : list float)
    (d0 d1 d2 : float) (vs : list polygon_value) :
  disp !! 0 = Some d0 → disp !! 1 = Some d1 → disp !! 2 = Some d2 →
  solid_value h A = Some vs →
  ∃ c h1 h2,
    CSG.clone A h = Some (c, h1)
    ∧ CSG.translate c disp h1 = Some (tt, h2)
    ∧ heap_prefix h h2
    ∧ solid_value h2 A = Some vs
    ∧ solid_value h2 c = Some (moved_polygon (Vector.mk d0 d1 d2) <$> vs).
Proof.
  intros H0 H1 H2 Hval.
  destruct (CSG_clone_owned _ _ _ Hval)
    as (h1 & Hrun & Hpre & Hval1 & Hrefs & _).
  eexists _, h1, _. split; [exact Hrun|].
  split; [exact (translate_run _ _ _ _ _ _ _ _ H0 H1 H2 Hval1 Hrefs)|].
  assert (heap_prefix h (update_vertices (moved (Vector.mk d0 d1 d2))
            (seq (length (vertex_objs h))
               (length (vertex_objs h1) - length (vertex_objs h))) h1)) as Hpre2.
  { apply update_vertices_prefix; [done|]. apply Forall_seq_ge. }
  split; [done|]. split; [by eapply solid_value_prefix|].
  apply (update_vertices_value (moved (Vector.mk d0 d1 d2))); [done|done|].
  apply NoDup_seq.
Qed.

Lemma translate_clone_leaves_original_witness :
  ∃ c h1 h2,
    CSG.clone 0 tri_heap = Some (c, h1)
    ∧ CSG.translate c [0; 0; 1]%float h1 = Some (tt, h2)
    ∧ heap_prefix tri_heap h2
    ∧ solid_value h2 0 = Some tri_value
    ∧ solid_value h2 c = Some (moved_polygon (Vector.mk 0 0 1) <$> tri_value).
Proof.
  apply (translate_clone_leaves_original tri_heap 0 [0; 0; 1]%float 0 0 1 tri_value);
    reflexivity.
Defined.

(** X3: [fromPolygons] does not copy.  A solid made from [A.toPolygons()]
    is a new solid that holds the very list of [A]: translating it
    translates [A] as well. *)
Theorem fromPolygons_shares_the_list (h : heap) (A : loc) (disp : list float)
    (d0 d1 d2 : float) (vs : list polygon_value) (refs : list loc) :
  disp !! 0 = Some d0 → disp !! 1 = Some d1 → disp !! 2 = Some d2 →
  solid_value h A = Some vs →
  solid_vertex_refs h A = Some refs →
  NoDup refs →
  ∃ l B h1 h2,
    CSG.toPolygons A h = Some (l, h)
    ∧ CSG.fromPolygons l h = Some (B, h1)
    ∧ B ≠ A
    ∧ CSG.toPolygons B h1 = Some (l, h1)
    ∧ solid_value h1 B = Some vs
    ∧ CSG.translate B disp h1 = Some (tt, h2)
    ∧ solid_value h2 B = Some (moved_polygon (Vector.mk d0 d1 d2) <$> vs)
    ∧ solid_value h2 A = Some (moved_polygon (Vector.mk d0 d1 d2) <$> vs).
Proof.
  intros H0 H1 H2 Hval Hrefs Hnd.
  destruct (solid_value_Some _ _ _ Hval) as (l & ps & Hc & Hl & Hps).
  set (h1 := Heap (vertex_objs h) (polygon_objs h) (list_objs h ++ [[]])
                  (csg_objs h ++ [l])).
  assert (heap_prefix h h1) as Hpre.
  { repeat split; simpl; try done; by apply prefix_app_r. }
  assert (csg_objs h1 !! length (csg_objs h) = Some l) as HcB.
  { simpl. by rewrite lookup_app_r, Nat.sub_diag by lia. }
  assert (solid_value h1 A = Some vs) as HvalA by by eapply solid_value_prefix.
  assert (csg_objs h1 !! A = Some l) as HcA.
  { simpl. by apply lookup_app_l_Some. }
  assert (∀ h', csg_objs h' !! length (csg_objs h) = Some l → csg_objs h' !! A = Some l →
                solid_value h' (length (csg_objs h)) = solid_value h' A) as Hsame.
  { intros h' Hb Ha. unfold solid_value. by rewrite Hb, Ha. }
  assert (solid_vertex_refs h1 (length (csg_objs h)) = Some refs) as HrefsB.
  { revert Hrefs. unfold solid_vertex_refs. rewrite HcB, Hc. simpl.
    by rewrite (lookup_app_l_Some _ _ _ _ Hl), Hl. }
  assert (solid_value h1 (length (csg_objs h)) = Some vs) as HvalB
    by by rewrite Hsame.
  exists l, (length (csg_objs h)), h1,
    (update_vertices (moved (Vector.mk d0 d1 d2)) refs h1).
  split; [by unfold CSG.toPolygons, get_csg; rewrite Hc|].
  split; [apply CSG_fromPolygons_run|].
  split; [apply lookup_lt_Some in Hc; lia|].
  split; [by unfold CSG.toPolygons, get_csg; rewrite HcB|].
  split; [done|].
  split; [exact (translate_run _ _ _ _ _ _ _ _ H0 H1 H2 HvalB HrefsB)|].
  assert (solid_value (update_vertices (moved (Vector.mk d0 d1 d2)) refs h1)
            (length (csg_objs h))
          = Some (moved_polygon (Vector.mk d0 d1 d2) <$> vs)) as Hmoved.
  { by apply (update_vertices_value (moved (Vector.mk d0 d1 d2))). }
  split; [done|]. by rewrite <- Hsame.
Qed.

Lemma fromPolygons_shares_the_list_witness :
  ∃ l B h1 h2,
    CSG.toPolygons 0 tri_heap = Some (l, tri_heap)
    ∧ CSG.fromPolygons l tri_heap = Some (B, h1)
    ∧ B ≠ 0
    ∧ CSG.toPolygons B h1 = Some (l, h1)
    ∧ solid_value h1 B = Some tri_value
    ∧ CSG.translate B [0; 0; 1]%float h1 = Some (tt, h2)
    ∧ solid_value h2 B = Some (moved_polygon (Vector.mk 0 0 1) <$> tri_value)
    ∧ solid_value h2 0 = Some (moved_polygon (Vector.mk 0 0 1) <$> tri_value).
Proof.
  apply (fromPolygons_shares_the_list tri_heap 0 [0; 0; 1]%float 0 0 1
           tri_value [0; 1; 2]); try reflexivity.
  apply (bool_decide_unpack _). vm_compute. exact I.
Defined.


(** ** [rotate] *)




(** X5: the array argument of [translate] and of [rotate] is read at the
    indices 0, 1 and 2 before the solid is looked at: with fewer than three
    entries both calls raise, on every solid and store. *)
Theorem translate_rotate_short_array (math_cos math_sin : float → float)
    (self : loc) (arr : list float) (angleDeg : float) (h : heap) :
  length arr < 3 →
  CSG.translate self arr h = None
  ∧ CSG.rotate math_cos math_sin self arr angleDeg h = None.
Proof.
  intros Hlen. destruct arr as [|x0 [|x1 [|x2 arr]]]; try done.
  simpl in Hlen. lia.
Qed.

Lemma translate_rotate_short_array_witness :
  CSG.translate 0 [1; 2]%float tri_heap = None
  ∧ CSG.rotate (λ _, 0%float) (λ _, 1%float) 0 [1; 2]%float 90 tri_heap = None.
Proof.
  apply (translate_rotate_short_array (λ _, 0%float) (λ _, 1%float) 0 [1; 2]%float
           90 tri_heap).
  simpl. lia.
Defined.


(** ** The result of a Boolean operation *)

(** The solid a Boolean operation returns is a new solid, with a new list
    of polygons created by the operation. *)
Lemma boolean_operation_result fuel ops A B h C h' :
  boolean_operation fuel ops A B h = Some (C, h') →
  op_inv h h'
  ∧ ∃ l ps, length (csg_objs h) ≤ C ∧ csg_objs h' !! C = Some l
            ∧ length (list_objs h) ≤ l ∧ list_objs h' !! l = Some ps
            ∧ Forall (fresh_polygon h h') ps.
Proof.
  intros Hrun. unfold boolean_operation in Hrun.
  pose proof (op_inv_refl h) as Hinv.
  apply bind_inv in Hrun as (cA & h1 & HcloneA & Hrun).
  destruct (CSG_clone_inv _ _ _ _ _ Hinv HcloneA) as (Hinv1 & Hg1 & lA' & pA' & HcA & HlA & HpA).
  apply bind_inv in Hrun as (lA & h2 & Hget & Hrun).
  apply get_csg_Some in Hget as [HcA' ->].
  apply bind_inv in Hrun as (pA & h2 & Hget & Hrun).
  apply get_list_Some in Hget as [HlA' ->]. simplify_eq.
  apply bind_inv in Hrun as (a & h2 & Hnewa & Hrun).
  destruct (BSPNode_new_inv _ _ _ _ _ _ Hinv1 HpA Hnewa) as (Hinv2 & Hg2 & Ha).
  apply bind_inv in Hrun as (cB & h3 & HcloneB & Hrun).
  destruct (CSG_clone_inv _ _ _ _ _ Hinv2 HcloneB) as (Hinv3 & Hg3 & lB' & pB' & HcB & HlB & HpB).
  apply bind_inv in Hrun as (lB & h4 & Hget & Hrun).
  apply get_csg_Some in Hget as [HcB' ->].
  apply bind_inv in Hrun as (pB & h4 & Hget & Hrun).
  apply get_list_Some in Hget as [HlB' ->]. simplify_eq.
  apply bind_inv in Hrun as (b & h4 & Hnewb & Hrun).
  destruct (BSPNode_new_inv _ _ _ _ _ _ Hinv3 HpB Hnewb) as (Hinv4 & Hg4 & Hb).
  apply bind_inv in Hrun as (ab & h5 & Hops & Hrun).
  destruct (foldM_inv h (run_tree_op fuel)
              (λ hi s, fresh_tree h hi (fst s) ∧ fresh_tree h hi (snd s))
              (λ _ _, True))
    with (l := ops) (h := h4) (s := (a, b)) (s' := ab) (h' := h5)
    as (Hinv5 & Hg5 & Hab & _); [| | |exact Hinv4| | |exact Hops|].
  { intros ? ? ? ? [? ?]. split; by eapply fresh_tree_grows. }
  { done. }
  { intros h6 s op s' h7 Hinv6 [? ?] _ Hop. by eapply run_tree_op_inv. }
  { cbn [fst snd]. split; [|done].
    eapply fresh_tree_grows; [|exact Ha]. by eapply grows_trans. }
  { by apply Forall_true. }
  apply bind_inv in Hrun as (l & h6 & Halloc & Hrun).
  destruct (alloc_list_inv _ _ _ _ _ Hinv5 Halloc) as (Hinv6 & _).
  destruct (CSG_fromPolygons_inv _ _ _ _ _ Hinv6 Hrun) as (Hinv7 & _).
  split; [done|].
  injection Halloc as <- <-. rewrite CSG_fromPolygons_run in Hrun.
  injection Hrun as <- <-.
  destruct Hinv5 as [(Hv5 & Hp5 & Hl5 & Hc5) _].
  exists (length (list_objs h5)), (BSPNode.allPolygons (fst ab)). simpl.
  split; [by apply prefix_length|].
  split; [by rewrite lookup_app_r, Nat.sub_diag by lia|].
  split; [by apply prefix_length|].
  split.
  { rewrite <- app_assoc. by rewrite lookup_app_r, Nat.sub_diag by lia. }
  exact Hab.
Qed.

(** X6: the solid returned by [union], [subtract] or [intersect] is a new
    object with a new polygon list, and every polygon of the list and every
    vertex of these polygons is an object created by the call: the result
    shares no Polygon or Vertex object with the operands or with any solid
    that existed before. *)
Theorem boolean_result_is_fresh
    (fuel : nat) (A B C : loc) (h h' : heap) :
  CSG.union fuel A B h = Some (C, h')
  ∨ CSG.subtract fuel A B h = Some (C, h')
  ∨ CSG.intersect fuel A B h = Some (C, h') →
  ∃ l ps,
    csg_objs h !! C = None ∧ csg_objs h' !! C = Some l
    ∧ list_objs h !! l = None ∧ list_objs h' !! l = Some ps
    ∧ Forall (fresh_polygon h h') ps
    ∧ ∀ p o, p ∈ ps → polygon_objs h' !! p = Some o →
             Forall (fresh_vertex h h') (vertices o).
Proof.
  intros Hrun.
  assert (∃ ops, boolean_operation fuel ops A B h = Some (C, h')) as [ops Hops].
  { destruct Hrun as [Hrun|[Hrun|Hrun]].
    - exists union_sequence. by rewrite <- union_as_sequence.
    - exists subtract_sequence. by rewrite <- subtract_follows_sequence.
    - exists intersect_sequence. by rewrite <- intersect_follows_sequence. }
  destruct (boolean_operation_result _ _ _ _ _ _ _ Hops)
    as (Hinv & l & ps & HC & Hc & Hl & Hps & Hfresh).
  exists l, ps. split; [by apply lookup_ge_None_2|]. split; [done|].
  split; [by apply lookup_ge_None_2|]. split; [done|]. split; [done|].
  intros p o Hp Ho. eapply op_inv_vertices; [exact Hinv| |exact Ho].
  rewrite Forall_forall in Hfresh. by apply Hfresh.
Qed.

Lemma boolean_result_is_fresh_witness :
  ∃ C h' l ps,
    CSG.union 5 0 2 three_solids_heap = Some (C, h')
    ∧ csg_objs three_solids_heap !! C = None ∧ csg_objs h' !! C = Some l
    ∧ list_objs three_solids_heap !! l = None ∧ list_objs h' !! l = Some ps
    ∧ Forall (fresh_polygon three_solids_heap h') ps
    ∧ ∀ p o, p ∈ ps → polygon_objs h' !! p = Some o →
             Forall (fresh_vertex three_solids_heap h') (vertices o).
Proof.
  destruct (CSG.union 5 0 2 three_solids_heap) as [[C h']|] eqn:E;
    [|vm_compute in E; discriminate E].
  destruct (boolean_result_is_fresh 5 0 2 C three_solids_heap h' (or_introl E))
    as (l & ps & H).
  exists C, h', l, ps. split; [reflexivity|exact H].
Defined.

(** X7: with an empty second operand [intersect] does not return an empty
    solid.  When [E] has no polygon and the tree of a clone of [A] can be
    built, [A.intersect(E)] returns what [A.union(E)] returns: a new solid
    with all the polygons of that tree. *)
Theorem intersect_with_empty_keeps_polygons
    (fuel : nat) (A E : loc) (h h2 : heap) (a : BSPNode.t) :
  solid_value h E = Some [] →
  tree_of_clone fuel A h = Some (a, h2) →
  ∃ C h',
    CSG.intersect fuel A E h = Some (C, h')
    ∧ CSG.union fuel A E h = Some (C, h')
    ∧ (l <- CSG.toPolygons C ;; get_list l) h' = Some (BSPNode.allPolygons a, h')
    ∧ solid_value h' C = mapM (polygon_value_at h2) (BSPNode.allPolygons a).
Proof.
  intros HE Ha.
  destruct (tree_of_clone_valid _ _ _ _ _ Ha) as [Hpre Hvalid].
  pose proof (solid_value_prefix _ _ _ _ Hpre HE) as HE2.
  pose proof (tree_of_clone_empty fuel E h2 HE2) as Hb.
  set (h3 := Heap (vertex_objs h2) (polygon_objs h2) (list_objs h2 ++ [[]; []])
                  (csg_objs h2 ++ [S (length (list_objs h2))])) in *.
  assert (Forall (valid_polygon h3) (BSPNode.allPolygons a)) as Hvalid3.
  { eapply Forall_impl; [exact Hvalid|]. intros p. by apply valid_polygon_same_objs. }
  destruct (sequences_with_empty fuel a h3 Hvalid3) as (Hu & _ & Hi).
  destruct (solid_of_tree_run a h3) as (C & h' & Hrun & Hlist & Hv & Hp & Hval).
  exists C, h'. split; [|split; [|split; [done|]]].
  - rewrite intersect_of_trees.
    rewrite (bind_eq _ _ _ _ _ Ha), (bind_eq _ _ _ _ _ Hb), (bind_eq _ _ _ _ _ Hi).
    exact Hrun.
  - rewrite union_of_trees.
    rewrite (bind_eq _ _ _ _ _ Ha), (bind_eq _ _ _ _ _ Hb), (bind_eq _ _ _ _ _ Hu).
    exact Hrun.
  - rewrite Hval. apply mapM_ext. intros p. by apply polygon_value_at_same_objs.
Qed.

Lemma intersect_with_empty_keeps_polygons_witness :
  ∃ a h2 C h',
    solid_value crossing_heap 1 = Some []
    ∧ tree_of_clone 5 0 crossing_heap = Some (a, h2)
    ∧ CSG.intersect 5 0 1 crossing_heap = Some (C, h')
    ∧ CSG.union 5 0 1 crossing_heap = Some (C, h')
    ∧ (l <- CSG.toPolygons C ;; get_list l) h' = Some (BSPNode.allPolygons a, h')
    ∧ solid_value h' C = mapM (polygon_value_at h2) (BSPNode.allPolygons a).
Proof.
  destruct (tree_of_clone 5 0 crossing_heap) as [[a h2]|] eqn:Ha;
    [|vm_compute in Ha; discriminate Ha].
  destruct (intersect_with_empty_keeps_polygons 5 0 1 crossing_heap h2 a eq_refl Ha)
    as (C & h' & H).
  exists a, h2, C, h'. split; [reflexivity|]. split; [reflexivity|]. exact H.
Defined.


(** ** The loops of the primitive constructors *)

Lemma constructing_refl h : constructing h h.
Proof. by repeat split. Qed.

Lemma constructing_trans h0 h1 h2 :
  constructing h0 h1 → constructing h1 h2 → constructing h0 h2.
Proof.
  intros (Hl1 & Hc1 & Hv1) (Hl2 & Hc2 & Hv2).
  repeat split; [congruence|congruence|by etrans].
Qed.

(** The last two steps of a constructor: the list of polygons becomes a
    list object, then the list of a new solid. *)
Lemma new_solid_run (h0 h : heap) (objs : list polygon) :
  constructing h0 h →
  polygon_objs h = polygon_objs h0 ++ objs →
  ∃ c h', (l <- alloc_list (seq (length (polygon_objs h0)) (length objs)) ;;
           CSG.fromPolygons l) h = Some (c, h')
          ∧ new_solid h0 h' c objs
          ∧ heap_prefix h0 h'
          ∧ vertex_objs h' = vertex_objs h
          ∧ solid_vertex_refs h' c = Some (concat (vertices <$> objs)).
Proof.
  intros (Hl & Hc & Hv) Hp. eexists _, _. split.
  { unfold bind at 1, alloc_list at 1. apply CSG_fromPolygons_run. }
  heap_simpl.
  assert (((list_objs h ++ [seq (length (polygon_objs h0)) (length objs)]) ++ [[]])
          !! length (list_objs h)
          = Some (seq (length (polygon_objs h0)) (length objs))) as Hlook.
  { rewrite <- app_assoc. by rewrite lookup_app_r, Nat.sub_diag by lia. }
  split; [|split; [|split; [done|]]].
  - exists (length (list_objs h)). rewrite Hc, Hl. simpl.
    split; [by apply lookup_ge_None_2|].
    split; [by rewrite lookup_app_r, Nat.sub_diag by lia|].
    split; [by apply lookup_ge_None_2|].
    split; [|done]. by rewrite <- Hl.
  - repeat split; simpl; [done|rewrite Hp|rewrite Hl, <- app_assoc|rewrite Hc];
      by apply prefix_app_r.
  - unfold solid_vertex_refs. simpl.
    rewrite lookup_app_r, Nat.sub_diag by lia. simpl. rewrite Hlook. simpl.
    by rewrite Hp, mapM_lookup_seq.
Qed.

Lemma owns_new_vertices_refl h : owns_new_vertices h h [].
Proof. unfold owns_new_vertices. by rewrite Nat.sub_diag. Qed.

Lemma owns_new_vertices_trans h0 h1 h2 objs1 objs2 :
  length (vertex_objs h0) ≤ length (vertex_objs h1) →
  length (vertex_objs h1) ≤ length (vertex_objs h2) →
  owns_new_vertices h0 h1 objs1 → owns_new_vertices h1 h2 objs2 →
  owns_new_vertices h0 h2 (objs1 ++ objs2).
Proof.
  unfold owns_new_vertices. intros H01 H12 H1 H2.
  rewrite fmap_app, concat_app, H1, H2.
  replace (length (vertex_objs h2) - length (vertex_objs h0))
    with ((length (vertex_objs h1) - length (vertex_objs h0))
          + (length (vertex_objs h2) - length (vertex_objs h1))) by lia.
  rewrite seq_app. do 2 f_equal. lia.
Qed.

Lemma owns_new_vertices_NoDup h h' objs :
  owns_new_vertices h h' objs → NoDup (concat (vertices <$> objs)).
Proof. intros ->. apply NoDup_seq. Qed.

Lemma constructing_length h h' :
  constructing h h' → length (vertex_objs h) ≤ length (vertex_objs h').
Proof. intros (_ & _ & Hv). by apply prefix_length. Qed.

(** A vertex is created. *)
Lemma Vertex_new_run (p n : Vector.t) h :
  Vertex.new p n h
  = Some (length (vertex_objs h),
          Heap (vertex_objs h ++ [Vertex_obj p n]) (polygon_objs h)
               (list_objs h) (csg_objs h)).
Proof. done. Qed.

Lemma adds_polygons_trans h0 h1 h2 objs1 objs2 :
  adds_polygons h0 h1 objs1 → adds_polygons h1 h2 objs2 →
  adds_polygons h0 h2 (objs1 ++ objs2).
Proof.
  intros [Hc1 Hp1] [Hc2 Hp2]. split; [by eapply constructing_trans|].
  by rewrite Hp2, Hp1, <- app_assoc.
Qed.

Lemma adds_polygons_lt h h' objs v :
  adds_polygons h h' objs → v < length (vertex_objs h) → v < length (vertex_objs h').
Proof. intros [(_ & _ & Hv) _] Hlt. apply prefix_length in Hv. lia. Qed.

Lemma Vertex_new_adds (p n : Vector.t) h :
  ∃ h', Vertex.new p n h = Some (length (vertex_objs h), h')
        ∧ adds_polygons h h' []
        ∧ length (vertex_objs h) < length (vertex_objs h').
Proof.
  eexists. split; [apply Vertex_new_run|]. split.
  - split; [|simpl; by rewrite app_nil_r].
    repeat split; simpl; try done. by apply prefix_app_r.
  - simpl. rewrite length_app. simpl. lia.
Qed.

Lemma Vertex_clone_adds v h :
  v < length (vertex_objs h) →
  ∃ h', Vertex.clone v h = Some (length (vertex_objs h), h')
        ∧ adds_polygons h h' []
        ∧ length (vertex_objs h) < length (vertex_objs h').
Proof.
  intros Hv. destruct (lookup_lt_is_Some_2 _ _ Hv) as [o Ho].
  eexists. split; [by apply Vertex_clone_run|]. split.
  - split; [|simpl; by rewrite app_nil_r].
    repeat split; simpl; try done. by apply prefix_app_r.
  - simpl. rewrite length_app. simpl. lia.
Qed.

Lemma Polygon_new_adds h vs :
  3 ≤ length vs →
  Forall (λ v, v < length (vertex_objs h)) vs →
  ∃ h' o, Polygon.new vs h = Some (length (polygon_objs h), h')
          ∧ adds_polygons h h' [o] ∧ vertices o = vs
          ∧ vertex_objs h' = vertex_objs h.
Proof.
  intros Hlen Hvs. destruct (Polygon_new_ok h vs Hlen Hvs) as [pl Hrun].
  eexists _, (Polygon_obj vs pl). split; [exact Hrun|].
  split; [|split; done]. split; [|done]. by repeat split.
Qed.


(** A loop whose body creates polygons and appends them to the list it
    carries; [g a] are the vertex counts of the polygons made for [a], and
    [I] is a property of the store that each run of the body keeps.  Each
    run creates the vertices of its polygons, and no other vertex. *)
Lemma foldM_adds_polygons {A} (I : heap → Prop)
    (f : list loc → A → M (list loc)) (g : A → list nat) :
  (∀ acc a h, I h →
     ∃ h' objs, f acc a h = Some (acc ++ seq (length (polygon_objs h)) (length objs), h')
                ∧ adds_polygons h h' objs
                ∧ owns_new_vertices h h' objs
                ∧ polygon_sizes objs = g a
                ∧ I h') →
  ∀ l acc h, I h →
    ∃ h' objs, foldM f acc l h = Some (acc ++ seq (length (polygon_objs h)) (length objs), h')
               ∧ adds_polygons h h' objs
               ∧ owns_new_vertices h h' objs
               ∧ polygon_sizes objs = concat (g <$> l)
               ∧ I h'.
Proof.
  intros Hf. induction l as [|a l IH]; intros acc h Hh.
  - exists h, []. simpl. rewrite app_nil_r. split; [done|].
    split; [|split; [apply owns_new_vertices_refl|done]].
    split; [apply constructing_refl|by rewrite app_nil_r].
  - destruct (Hf acc a h Hh) as (h1 & objs1 & Hrun1 & Hadd1 & Hown1 & Hs1 & Hh1).
    destruct (IH (acc ++ seq (length (polygon_objs h)) (length objs1)) h1 Hh1)
      as (h2 & objs2 & Hrun2 & Hadd2 & Hown2 & Hs2 & Hh2).
    exists h2, (objs1 ++ objs2). cbn [foldM].
    rewrite (bind_eq _ _ _ _ _ Hrun1), Hrun2.
    split; [|split; [|split; [|split; [|done]]]].
    + destruct Hadd1 as [_ ->]. by rewrite !length_app, seq_app, <- app_assoc.
    + by eapply adds_polygons_trans.
    + eapply owns_new_vertices_trans; [| |exact Hown1|exact Hown2];
        apply constructing_length; [apply Hadd1|apply Hadd2].
    + rewrite fmap_cons. cbn [concat]. unfold polygon_sizes in *.
      by rewrite fmap_app, Hs1, Hs2.
Qed.

Lemma adds_polygons_refl h : adds_polygons h h [].
Proof. split; [apply constructing_refl|by rewrite app_nil_r]. Qed.

(** ** [sphere] *)

Section SphereSizes.

Variables math_cos math_sin : float → float.

Lemma vertices_since_snoc (P : vertex → Prop) h0 h h' o :
  vertices_since P h0 h → vertex_objs h' = vertex_objs h ++ [o] → P o →
  vertices_since P h0 h'.
Proof.
  intros (vs & Hvs & HP) Hv Ho. exists (vs ++ [o]).
  split; [by rewrite Hv, Hvs, <- app_assoc|].
  apply Forall_app. split; [done|by apply Forall_singleton].
Qed.

Lemma vertices_since_same (P : vertex → Prop) h0 h h' :
  vertices_since P h0 h → vertex_objs h' = vertex_objs h → vertices_since P h0 h'.
Proof. intros (vs & Hvs & HP) Hv. exists vs. by rewrite Hv. Qed.

(** The vertex that [appendVertex] creates lies at [c] plus [r] times its
    normal; it is appended to the list of the vertices created so far. *)
Lemma appendVertex_adds h0 center c r a n theta phi h :
  3 ≤ length center →
  length (vertex_objs h) = a + n →
  vertices_since (λ o, pos o = Vector.plus c (Vector.times (normal o) r)) h0 h →
  ∃ h', CSG.appendVertex math_cos math_sin center c r (seq a n) theta phi h
        = Some (seq a (S n), h')
        ∧ length (vertex_objs h') = a + S n
        ∧ adds_polygons h h' []
        ∧ vertices_since (λ o, pos o = Vector.plus c (Vector.times (normal o) r)) h0 h'.
Proof.
  intros Hc Hlen Hsince.
  destruct center as [|c0 [|c1 [|c2 center]]]; simpl in Hc; try lia.
  eexists. split.
  { rewrite seq_S, <- Hlen.
    unfold CSG.appendVertex, bind, lift_option, Vertex.new, alloc_vertex, ret.
    simpl. reflexivity. }
  heap_simpl. split; [|split].
  - rewrite length_app. simpl. lia.
  - split; [|simpl; by rewrite app_nil_r].
    repeat split; simpl; try done. by apply prefix_app_r.
  - eapply vertices_since_snoc; [exact Hsince|reflexivity|reflexivity].
Qed.

(** The polygon that [sphere] makes for the slice [i] and the stack [j]. *)
Lemma sphere_body_adds h0 center c r slices stacks dTheta dPhi polygons i j h :
  3 ≤ length center → 2 ≤ stacks →
  vertices_since (λ o, pos o = Vector.plus c (Vector.times (normal o) r)) h0 h →
  ∃ h' objs,
    CSG.sphere_body math_cos math_sin center c r slices stacks dTheta dPhi
      polygons i j h
    = Some (polygons ++ seq (length (polygon_objs h)) (length objs), h')
    ∧ adds_polygons h h' objs
    ∧ owns_new_vertices h h' objs
    ∧ polygon_sizes objs = [sphere_stack_size stacks j]
    ∧ vertices_since (λ o, pos o = Vector.plus c (Vector.times (normal o) r)) h0 h'.
Proof.
  intros Hc Hst Hsince. unfold CSG.sphere_body.
  set (P := λ o, pos o = Vector.plus c (Vector.times (normal o) r)) in *.
  set (a := length (vertex_objs h)).
  change (@nil nat) with (seq a 0).
  destruct (appendVertex_adds h0 center c r a 0 (float_of_nat i * dTheta)
              (float_of_nat j * dPhi) h Hc) as (h1 & Hrun1 & Hlen1 & Hadd1 & Hs1);
    [subst a; lia|done|].
  rewrite (bind_eq _ _ _ _ _ Hrun1).
  assert (∃ n2 h2,
    (if 0 <? j
     then CSG.appendVertex math_cos math_sin center c r (seq a 1)
            (float_of_nat ((i + 1) mod slices) * dTheta) (float_of_nat j * dPhi)
     else ret (seq a 1)) h1 = Some (seq a n2, h2)
    ∧ length (vertex_objs h2) = a + n2
    ∧ n2 = 1 + (if 0 <? j then 1 else 0)
    ∧ adds_polygons h1 h2 []
    ∧ vertices_since P h0 h2) as (n2 & h2 & Hrun2 & Hlen2 & Hn2 & Hadd2 & Hs2).
  { destruct (0 <? j).
    - edestruct appendVertex_adds as (h2 & Hrun2 & Hlen2 & Hadd2 & Hs2);
        [done|exact Hlen1|exact Hs1|].
      by eexists _, _.
    - exists 1, h1. split; [done|]. split; [done|]. split; [done|].
      split; [apply adds_polygons_refl|done]. }
  rewrite (bind_eq _ _ _ _ _ Hrun2).
  assert (∃ n3 h3,
    (if j <? stacks - 1
     then CSG.appendVertex math_cos math_sin center c r (seq a n2)
            (float_of_nat ((i + 1) mod slices) * dTheta) (float_of_nat (j + 1) * dPhi)
     else ret (seq a n2)) h2 = Some (seq a n3, h3)
    ∧ length (vertex_objs h3) = a + n3
    ∧ n3 = n2 + (if j <? stacks - 1 then 1 else 0)
    ∧ adds_polygons h2 h3 []
    ∧ vertices_since P h0 h3)
    as (n3 & h3 & Hrun3 & Hlen3 & Hn3 & Hadd3 & Hs3).
  { destruct (j <? stacks - 1).
    - edestruct appendVertex_adds as (h3 & Hrun3 & Hlen3 & Hadd3 & Hs3);
        [done|exact Hlen2|exact Hs2|].
      eexists _, _. split; [exact Hrun3|]. split; [done|]. split; [lia|done].
    - exists n2, h2. split; [done|]. split; [done|]. split; [lia|].
      split; [apply adds_polygons_refl|done]. }
  rewrite (bind_eq _ _ _ _ _ Hrun3).
  edestruct appendVertex_adds as (h4 & Hrun4 & Hlen4 & Hadd4 & Hs4);
    [done|exact Hlen3|exact Hs3|].
  rewrite (bind_eq _ _ _ _ _ Hrun4).
  assert (S n3 = sphere_stack_size stacks j) as Hsize.
  { rewrite Hn3, Hn2. unfold sphere_stack_size. lia. }
  edestruct (Polygon_new_adds h4 (seq a (S n3))) as (h5 & o & Hrun5 & Hadd5 & Ho & Hv5).
  { rewrite length_seq, Hsize. unfold sphere_stack_size.
    destruct (0 <? j) eqn:H0; [lia|].
    destruct (j <? stacks - 1) eqn:H1; [lia|].
    apply Nat.ltb_ge in H0, H1. lia. }
  { apply Forall_forall. intros v Hv%elem_of_seq. lia. }
  rewrite (bind_eq _ _ _ _ _ Hrun5).
  assert (polygon_objs h4 = polygon_objs h) as Hp4.
  { destruct Hadd1 as [_ Hp1], Hadd2 as [_ Hp2], Hadd3 as [_ Hp3], Hadd4 as [_ Hp4].
    rewrite Hp4, Hp3, Hp2, Hp1. by rewrite !app_nil_r. }
  exists h5, [o]. split; [by rewrite Hp4|]. split; [|split; [|split]].
  - exact (adds_polygons_trans _ _ _ _ _ Hadd1
             (adds_polygons_trans _ _ _ _ _ Hadd2
                (adds_polygons_trans _ _ _ _ _ Hadd3
                   (adds_polygons_trans _ _ _ _ _ Hadd4 Hadd5)))).
  - unfold owns_new_vertices. simpl. rewrite Ho, app_nil_r, Hv5, Hlen4.
    fold a. f_equal. lia.
  - unfold polygon_sizes. simpl. by rewrite Ho, length_seq, Hsize.
  - by eapply vertices_since_same.
Qed.

End SphereSizes.


Lemma concat_singletons {A B} (f : A → B) (l : list A) :
  concat ((λ a, [f a]) <$> l) = f <$> l.
Proof.
  induction l as [|a l IH]; [done|].
  rewrite !fmap_cons. cbn [concat app]. by rewrite IH.
Qed.

Lemma fmap_const_replicate {A B} (x : B) (l : list A) :
  (λ _, x) <$> l = replicate (length l) x.
Proof.
  induction l as [|a l IH]; [done|].
  rewrite fmap_cons. cbn [length replicate]. by rewrite IH.
Qed.

Lemma length_concat_replicate {A} (n : nat) (l : list A) :
  length (concat (replicate n l)) = n * length l.
Proof. induction n as [|n IH]; simpl; [done|]. rewrite length_app, IH. lia. Qed.

(** [sphere], for arguments from which a centre and a radius can be
    read. *)
Lemma sphere_run (math_cos math_sin : float → float)
    (kw : CSG.sphere_kwargs) (cv : Vector.t) (r : float) (h : heap) :
  sphere_center kw = Some cv →
  sphere_radius kw = Some r →
  let slices := default 16 (CSG.kw_slices kw) in
  let stacks := default 8 (CSG.kw_stacks kw) in
  (float_of_nat slices =? 0)%float = false →
  (float_of_nat stacks =? 0)%float = false →
  2 ≤ stacks →
  ∃ c h' os,
    CSG.sphere math_cos math_sin kw h = Some (c, h')
    ∧ new_solid h h' c os
    ∧ heap_prefix h h'
    ∧ polygon_sizes os = concat (replicate slices (sphere_slice_sizes stacks))
    ∧ vertices_since (λ o, pos o = Vector.plus cv (Vector.times (normal o) r)) h h'
    ∧ solid_vertex_refs h' c
      = Some (seq (length (vertex_objs h))
                  (length (vertex_objs h') - length (vertex_objs h))).
Proof.
  intros Hcen Hrad slices stacks Hsl Hst Hst2. unfold CSG.sphere.
  set (center := match CSG.kw_center kw with
                 | None => _ | Some (CSG.AFloat f) => _ | Some (CSG.AList l) => l end).
  assert (3 ≤ length center ∧ CSG.Vector_of_list center h = Some (cv, h)) as [Hc Hrunc].
  { subst center. unfold sphere_center in Hcen.
    destruct (CSG.kw_center kw) as [[f|[|x [|y [|z l]]]]|]; simplify_eq/=;
      (split; [lia|done]). }
  rewrite (bind_eq _ _ _ _ _ Hrunc).
  assert (match CSG.kw_radius kw with
          | None => ret 1%float
          | Some (CSG.AFloat f) => ret f
          | Some (CSG.AList l) =>
              if 2 <? length l then lift_option (l !! 0) else raise
          end h = Some (r, h)) as Hrunr.
  { unfold sphere_radius in Hrad.
    destruct (CSG.kw_radius kw) as [[f|[|x [|y [|z l]]]]|]; simplify_eq/=; done. }
  rewrite (bind_eq _ _ _ _ _ Hrunr).
  fold slices stacks.
  unfold py_div. rewrite Hsl, Hst.
  unfold bind at 1. unfold ret at 1. unfold bind at 1. unfold ret at 1.
  set (P := λ o, pos o = Vector.plus cv (Vector.times (normal o) r)).
  assert (vertices_since P h h) as Hsince.
  { exists []. by rewrite app_nil_r. }
  destruct (foldM_adds_polygons (vertices_since P h)
    (λ polygons i,
       foldM (λ polygons0 j,
                CSG.sphere_body math_cos math_sin center cv r slices stacks
                  (math_pi * 2 / float_of_nat slices) (math_pi / float_of_nat stacks)
                  polygons0 i j) polygons (seq 0 stacks))
    (λ _, sphere_slice_sizes stacks)) with (l := seq 0 slices) (acc := @nil nat) (h := h)
    as (h1 & os & Hrun & Hadd & Hown & Hsizes & Hsince1); [|done|].
  { intros acc i h0 Hh0.
    destruct (foldM_adds_polygons (vertices_since P h)
      (λ polygons0 j,
         CSG.sphere_body math_cos math_sin center cv r slices stacks
           (math_pi * 2 / float_of_nat slices) (math_pi / float_of_nat stacks)
           polygons0 i j)
      (λ j, [sphere_stack_size stacks j])) with (l := seq 0 stacks) (acc := acc) (h := h0)
      as (h' & objs & Hrun' & Hadd' & Hown' & Hsizes' & Hsince'); [|done|].
    { intros acc0 j h2 Hh2. by apply sphere_body_adds. }
    exists h', objs. split; [exact Hrun'|]. split; [done|]. split; [done|].
    split; [|done]. by rewrite Hsizes', concat_singletons. }
  rewrite (bind_eq _ _ _ _ _ Hrun). simpl app.
  destruct Hadd as [Hcons Hp].
  destruct (new_solid_run h h1 os Hcons Hp)
    as (c' & h' & Hrun' & Hnew & Hpre & Hv' & Hrefs).
  exists c', h', os. split; [exact Hrun'|]. split; [done|]. split; [done|].
  rewrite fmap_const_replicate, length_seq in Hsizes.
  split; [done|]. split; [by eapply vertices_since_same|].
  by rewrite Hrefs, Hown, Hv'.
Qed.

Lemma sphere_args_ok_center kw : sphere_args_ok kw → ∃ cv r,
  sphere_center kw = Some cv ∧ sphere_radius kw = Some r.
Proof.
  intros [Hc Hr]. unfold sphere_center, sphere_radius.
  destruct (CSG.kw_center kw) as [[f|[|x [|y [|z l]]]]|]; simpl in Hc; try lia;
    destruct (CSG.kw_radius kw) as [[g|[|x' [|y' [|z' l']]]]|]; simpl in Hr; try lia;
    by eexists _, _.
Qed.

(** X8: for well-formed arguments, non-zero [slices] and two or more
    [stacks], [sphere] returns a new solid with slices * stacks new
    polygons and changes no object that existed before.  The polygons come
    slice by slice, and within a slice from the first stack to the last:
    the first and the last are triangles, the others quadrilaterals.  No
    two polygons share a Vertex object: each vertex reference of the solid
    is to a Vertex object of its own. *)
Theorem sphere_polygons (math_cos math_sin : float → float)
    (kw : CSG.sphere_kwargs) (h : heap) :
  sphere_args_ok kw →
  let slices := default 16 (CSG.kw_slices kw) in
  let stacks := default 8 (CSG.kw_stacks kw) in
  (float_of_nat slices =? 0)%float = false →
  (float_of_nat stacks =? 0)%float = false →
  2 ≤ stacks →
  ∃ c h' os refs,
    CSG.sphere math_cos math_sin kw h = Some (c, h')
    ∧ new_solid h h' c os
    ∧ heap_prefix h h'
    ∧ polygon_sizes os = concat (replicate slices (sphere_slice_sizes stacks))
    ∧ length os = slices * stacks
    ∧ solid_vertex_refs h' c = Some refs
    ∧ NoDup refs.
Proof.
  intros Hok slices stacks Hsl Hst Hst2.
  destruct (sphere_args_ok_center kw Hok) as (cv & r & Hcv & Hr).
  destruct (sphere_run math_cos math_sin kw cv r h Hcv Hr Hsl Hst Hst2)
    as (c & h' & os & Hrun & Hnew & Hpre & Hsizes & _ & Hrefs).
  eexists c, h', os, _.
  split; [done|]. split; [done|]. split; [done|]. split; [done|].
  split; [|split; [exact Hrefs|apply NoDup_seq]].
  apply (f_equal length) in Hsizes. unfold polygon_sizes in Hsizes.
  rewrite length_fmap, length_concat_replicate in Hsizes.
  unfold sphere_slice_sizes in Hsizes. by rewrite length_fmap, length_seq in Hsizes.
Qed.

Lemma sphere_polygons_witness :
  ∃ c h' os refs,
    CSG.sphere (λ x, x) (λ x, x) (CSG.SphereKwargs None None (Some 3) (Some 4)) empty_heap
    = Some (c, h')
    ∧ new_solid empty_heap h' c os
    ∧ heap_prefix empty_heap h'
    ∧ polygon_sizes os = [3; 4; 4; 3; 3; 4; 4; 3; 3; 4; 4; 3]
    ∧ length os = 12
    ∧ solid_vertex_refs h' c = Some refs
    ∧ NoDup refs.
Proof.
  apply (sphere_polygons (λ x, x) (λ x, x)
           (CSG.SphereKwargs None None (Some 3) (Some 4)) empty_heap).
  - split; exact I.
  - reflexivity.
  - reflexivity.
  - simpl. lia.
Defined.



(** A vertex list that [appendVertex] returns is the one it was given and
    one more vertex. *)
Lemma appendVertex_inv math_cos math_sin center c r vs theta phi h vs' h' :
  CSG.appendVertex math_cos math_sin center c r vs theta phi h = Some (vs', h') →
  ∃ v, vs' = vs ++ [v].
Proof.
  unfold CSG.appendVertex. intros H.
  apply bind_inv in H as (c0 & h0 & _ & H).
  apply bind_inv in H as (c1 & h1 & _ & H).
  apply bind_inv in H as (c2 & h2 & _ & H).
  apply bind_inv in H as (v & h3 & _ & H).
  apply run_ret in H as [<- _]. by exists v.
Qed.

(** With one stack the polygon of a slice has two vertices. *)
Lemma sphere_body_one_stack math_cos math_sin center c r slices dTheta dPhi polygons i h :
  CSG.sphere_body math_cos math_sin center c r slices 1 dTheta dPhi polygons i 0 h = None.
Proof.
  unfold CSG.sphere_body. simpl.
  unfold bind at 1.
  destruct (CSG.appendVertex _ _ _ _ _ [] _ _ h) as [[vs1 h1]|] eqn:H1; [|done].
  apply appendVertex_inv in H1 as [v1 ->].
  unfold bind at 1, ret at 1. unfold bind at 1, ret at 1.
  unfold bind at 1.
  destruct (CSG.appendVertex _ _ _ _ _ _ _ _ h1) as [[vs2 h2]|] eqn:H2; [|done].
  apply appendVertex_inv in H2 as [v2 ->]. done.
Qed.

(** A computation all of whose continuations raise. *)
Lemma bind_all_None {A B} (m : M A) (k : A → M B) h :
  (∀ a h', k a h' = None) → bind m k h = None.
Proof. intros Hk. unfold bind. by destruct (m h) as [[a h']|]. Qed.

(** X10: [sphere] raises, and returns no solid, when [slices] or [stacks]
    is 0 (a division by zero) and when [stacks] is 1 (the polygon of the
    first slice would have two vertices), whatever the other arguments. *)
Theorem sphere_degenerate_counts_raise (math_cos math_sin : float → float)
    (kw : CSG.sphere_kwargs) (h : heap) :
  CSG.kw_slices kw = Some 0 ∨ CSG.kw_stacks kw = Some 0 ∨ CSG.kw_stacks kw = Some 1 →
  CSG.sphere math_cos math_sin kw h = None.
Proof.
  intros Hkw. unfold CSG.sphere.
  apply bind_all_None. intros c h0. apply bind_all_None. intros r h1.
  unfold py_div.
  destruct Hkw as [-> | [-> | ->]]; simpl.
  - done.
  - unfold bind. by destruct (float_of_nat _ =? 0)%float.
  - unfold bind at 1.
    destruct (float_of_nat _ =? 0)%float eqn:Hz; [done|].
    unfold ret at 1. unfold bind at 1, ret at 1.
    destruct (default 16 (CSG.kw_slices kw)) as [|n] eqn:Hn.
    { vm_compute in Hz. discriminate Hz. }
    rewrite <- cons_seq. cbn [foldM].
    unfold bind at 1. unfold bind at 1. unfold bind at 1.
    by rewrite sphere_body_one_stack.
Qed.

Lemma sphere_degenerate_counts_raise_witness :
  CSG.sphere (λ x, x) (λ x, x) (CSG.SphereKwargs None None None (Some 1)) empty_heap
  = None.
Proof.
  apply (sphere_degenerate_counts_raise (λ x, x) (λ x, x)
           (CSG.SphereKwargs None None None (Some 1)) empty_heap).
  right. right. reflexivity.
Defined.


(** ** [cylinder] and [cone] *)

Lemma vector_arg_run (a : option CSG.vector_or_list) (dflt : Vector.t) h :
  vector_arg_ok a → ∃ v, CSG.vector_arg a dflt h = Some (v, h).
Proof.
  destruct a as [[v|l]|]; simpl; intros Hok; try by eexists.
  destruct l as [|x [|y [|z [|w l]]]]; simpl in Hok; try lia. by eexists.
Qed.

Lemma prefix_snoc {A} (l k : list A) (x : A) : l `prefix_of` k → l `prefix_of` k ++ [x].
Proof. apply prefix_app_r. Qed.

(** Runs the creation of a vertex or of a polygon at the head of the
    computation. *)
Ltac run_vertex :=
  erewrite bind_eq; [|apply Vertex_new_run]; cbn beta; simpl vertex_objs;
  simpl polygon_objs; simpl list_objs; simpl csg_objs.

Ltac run_polygon o H :=
  match goal with
  | |- context [bind (Polygon.new ?vs) _ ?h0] =>
      let pl := fresh "pl" in
      destruct (Polygon_new_ok h0 vs) as [pl H];
      [simpl; lia
      |simpl; rewrite ?length_app; simpl; repeat constructor; lia
      |rewrite (bind_eq _ _ _ _ _ H); cbn beta; unfold set_polygon_objs;
       simpl vertex_objs; simpl polygon_objs; simpl list_objs; simpl csg_objs;
       set (o := Polygon_obj vs pl) in *]
  end.

Section CylinderProofs.

Variables math_cos math_sin : float → float.

(** The three polygons that [cylinder] makes for the slice [i]. *)
Lemma cylinder_body_adds s ray axisX axisY axisZ r start end_ slices dt polygons i h :
  start < length (vertex_objs h) → end_ < length (vertex_objs h) →
  ∃ h' objs,
    CSG.cylinder_body math_cos math_sin s ray axisX axisY axisZ r start end_ slices dt
      polygons i h
    = Some (polygons ++ seq (length (polygon_objs h)) (length objs), h')
    ∧ adds_polygons h h' objs
    ∧ owns_new_vertices h h' objs
    ∧ polygon_sizes objs = cylinder_slice_sizes.
Proof.
  intros Hstart Hend.
  destruct (lookup_lt_is_Some_2 _ _ Hstart) as [os Hos].
  destruct (lookup_lt_is_Some_2 _ _ Hend) as [oe Hoe].
  unfold CSG.cylinder_body, CSG.cylinder_point.
  rewrite (bind_eq _ _ _ _ _ (Vertex_clone_run _ _ _ Hos)). cbn beta.
  unfold set_vertex_objs. run_vertex. run_vertex. run_polygon o1 Hp1.
  run_vertex. run_vertex. run_vertex. run_vertex. run_polygon o2 Hp2.
  erewrite bind_eq; last first.
  { apply Vertex_clone_run. simpl. rewrite <- !app_assoc. by apply lookup_app_l_Some. }
  cbn beta. unfold set_vertex_objs. simpl vertex_objs. simpl polygon_objs.
  simpl list_objs. simpl csg_objs.
  run_vertex. run_vertex. run_polygon o3 Hp3.
  eexists _, [o1; o2; o3]. split; [|split; [|split; [|done]]].
  - unfold ret. f_equal. f_equal. rewrite !length_app. simpl.
    rewrite <- !app_assoc. simpl. by rewrite !Nat.add_1_r.
  - split; [|simpl; by rewrite <- !app_assoc].
    repeat split; simpl; try done. repeat apply prefix_snoc. done.
  - unfold owns_new_vertices. subst o1 o2 o3. simpl. rewrite !length_app. simpl.
    replace (length (vertex_objs h) + 1 + 1 + 1 + 1 + 1 + 1 + 1 + 1 + 1 + 1
             - length (vertex_objs h)) with 10 by lia.
    simpl. repeat f_equal; lia.
Qed.

(** X11: for well-formed [start] and [end] arguments and a non-zero
    [slices], [cylinder] returns a new solid with 3 * slices new polygons
    and changes no object that existed before: for each slice a triangle
    of the bottom disk, a quadrilateral of the side and a triangle of the
    top disk, in this order.  No two polygons share a Vertex object: each
    vertex reference of the solid is to a Vertex object of its own. *)
Theorem cylinder_polygons (kw : CSG.cylinder_kwargs) (h : heap) :
  cylinder_args_ok kw →
  let slices := default 16 (CSG.kw_cslices kw) in
  (float_of_nat slices =? 0)%float = false →
  ∃ c h' os refs,
    CSG.cylinder math_cos math_sin kw h = Some (c, h')
    ∧ new_solid h h' c os
    ∧ heap_prefix h h'
    ∧ polygon_sizes os = concat (replicate slices cylinder_slice_sizes)
    ∧ length os = 3 * slices
    ∧ solid_vertex_refs h' c = Some refs
    ∧ NoDup refs.
Proof.
  intros [Hs He] slices Hsl. unfold CSG.cylinder.
  destruct (vector_arg_run (CSG.kw_start kw) (Vector.mk 0 (-1) 0) h Hs) as [s Hruns].
  destruct (vector_arg_run (CSG.kw_end kw) (Vector.mk 0 1 0) h He) as [e Hrune].
  rewrite (bind_eq _ _ _ _ _ Hruns), (bind_eq _ _ _ _ _ Hrune).
  run_vertex. run_vertex. fold slices.
  unfold py_div. rewrite Hsl. unfold bind at 1, ret at 1.
  set (h2 := Heap _ _ _ _).
  assert (adds_polygons h h2 []) as Hadd2.
  { split; [|simpl; by rewrite app_nil_r].
    repeat split; simpl; try done. repeat apply prefix_snoc. done. }
  match goal with
  | |- context [foldM ?f [] (seq 0 slices)] =>
      destruct (foldM_adds_polygons
                  (λ h0, length (vertex_objs h) < length (vertex_objs h0)
                         ∧ length (vertex_objs h ++ [Vertex_obj s (Vector.negated
                              (Vector.unit (Vector.minus e s)))])
                           < length (vertex_objs h0))
                  f (λ _, cylinder_slice_sizes))
        with (l := seq 0 slices) (acc := @nil nat) (h := h2)
        as (h3 & os & Hrun & Hadd3 & Hown & Hsizes & _)
  end.
  { intros acc i h0 [H1 H2].
    edestruct cylinder_body_adds as (h' & objs & Hrun' & Hadd' & Hown' & Hsizes');
      [exact H1|exact H2|].
    exists h', objs. split; [exact Hrun'|]. split; [done|]. split; [done|].
    split; [done|].
    split; eapply adds_polygons_lt; done. }
  { subst h2. simpl. rewrite !length_app. simpl. lia. }
  rewrite (bind_eq _ _ _ _ _ Hrun). simpl app.
  destruct (adds_polygons_trans _ _ _ _ _ Hadd2 Hadd3) as [Hcons Hp].
  change (polygon_objs h2) with (polygon_objs h) in *.
  destruct (new_solid_run h h3 os Hcons Hp)
    as (c' & h' & Hrun' & Hnew & Hpre & _ & Hrefs).
  exists c', h', os, (concat (vertices <$> os)).
  split; [exact Hrun'|]. split; [done|]. split; [done|].
  rewrite fmap_const_replicate, length_seq in Hsizes.
  split; [done|].
  split; [|split; [exact Hrefs|by eapply owns_new_vertices_NoDup]].
  apply (f_equal length) in Hsizes. unfold polygon_sizes in Hsizes.
  rewrite length_fmap, length_concat_replicate in Hsizes.
  simpl in Hsizes. lia.
Qed.

Section ConeProofs.

Variable math_atan2 : float → float → float.

(** The two polygons that [cone] makes for the slice [i]. *)
Lemma cone_body_adds s e axisX axisY axisZ startNormal r sinT cosT start slices dt
    polygons i h :
  start < length (vertex_objs h) →
  ∃ h' objs,
    CSG.cone_body math_cos math_sin s e axisX axisY axisZ startNormal r sinT cosT
      start slices dt polygons i h
    = Some (polygons ++ seq (length (polygon_objs h)) (length objs), h')
    ∧ adds_polygons h h' objs
    ∧ owns_new_vertices h h' objs
    ∧ polygon_sizes objs = cone_slice_sizes.
Proof.
  intros Hstart.
  destruct (lookup_lt_is_Some_2 _ _ Hstart) as [os Hos].
  unfold CSG.cone_body, CSG.cone_point.
  rewrite (bind_eq _ _ _ _ _ (Vertex_clone_run _ _ _ Hos)). cbn beta.
  unfold set_vertex_objs. run_vertex. run_vertex. run_polygon o1 Hp1.
  run_vertex. run_vertex. run_vertex. run_polygon o2 Hp2.
  eexists _, [o1; o2]. split; [|split; [|split; [|done]]].
  - unfold ret. f_equal. f_equal. rewrite !length_app. simpl.
    rewrite <- !app_assoc. simpl. by rewrite !Nat.add_1_r.
  - split; [|simpl; by rewrite <- !app_assoc].
    repeat split; simpl; try done. repeat apply prefix_snoc. done.
  - unfold owns_new_vertices. subst o1 o2. simpl. rewrite !length_app. simpl.
    replace (length (vertex_objs h) + 1 + 1 + 1 + 1 + 1 + 1
             - length (vertex_objs h)) with 6 by lia.
    simpl. repeat f_equal; lia.
Qed.

(** X12: for well-formed [start] and [end] arguments and a non-zero
    [slices], [cone] returns a new solid with 2 * slices new polygons, all
    triangles, and changes no object that existed before: for each slice a
    sector of the base disk, then the side triangle to the tip.  No two
    polygons share a Vertex object: each vertex reference of the solid is
    to a Vertex object of its own. *)
Theorem cone_polygons (kw : CSG.cylinder_kwargs) (h : heap) :
  cylinder_args_ok kw →
  let slices := default 16 (CSG.kw_cslices kw) in
  (float_of_nat slices =? 0)%float = false →
  ∃ c h' os refs,
    CSG.cone math_cos math_sin math_atan2 kw h = Some (c, h')
    ∧ new_solid h h' c os
    ∧ heap_prefix h h'
    ∧ polygon_sizes os = concat (replicate slices cone_slice_sizes)
    ∧ length os = 2 * slices
    ∧ solid_vertex_refs h' c = Some refs
    ∧ NoDup refs.
Proof.
  intros [Hs He] slices Hsl. unfold CSG.cone.
  destruct (vector_arg_run (CSG.kw_start kw) (Vector.mk 0 (-1) 0) h Hs) as [s Hruns].
  destruct (vector_arg_run (CSG.kw_end kw) (Vector.mk 0 1 0) h He) as [e Hrune].
  rewrite (bind_eq _ _ _ _ _ Hruns), (bind_eq _ _ _ _ _ Hrune).
  run_vertex. fold slices.
  unfold py_div. rewrite Hsl. unfold bind at 1, ret at 1.
  set (h2 := Heap _ _ _ _).
  assert (adds_polygons h h2 []) as Hadd2.
  { split; [|simpl; by rewrite app_nil_r].
    repeat split; simpl; try done. repeat apply prefix_snoc. done. }
  match goal with
  | |- context [foldM ?f [] (seq 0 slices)] =>
      destruct (foldM_adds_polygons
                  (λ h0, length (vertex_objs h) < length (vertex_objs h0))
                  f (λ _, cone_slice_sizes))
        with (l := seq 0 slices) (acc := @nil nat) (h := h2)
        as (h3 & os & Hrun & Hadd3 & Hown & Hsizes & _)
  end.
  { intros acc i h0 H1.
    edestruct cone_body_adds as (h' & objs & Hrun' & Hadd' & Hown' & Hsizes');
      [exact H1|].
    exists h', objs. split; [exact Hrun'|]. split; [done|]. split; [done|].
    split; [done|].
    eapply adds_polygons_lt; done. }
  { subst h2. simpl. rewrite !length_app. simpl. lia. }
  rewrite (bind_eq _ _ _ _ _ Hrun). simpl app.
  destruct (adds_polygons_trans _ _ _ _ _ Hadd2 Hadd3) as [Hcons Hp].
  change (polygon_objs h2) with (polygon_objs h) in *.
  destruct (new_solid_run h h3 os Hcons Hp)
    as (c' & h' & Hrun' & Hnew & Hpre & _ & Hrefs).
  exists c', h', os, (concat (vertices <$> os)).
  split; [exact Hrun'|]. split; [done|]. split; [done|].
  rewrite fmap_const_replicate, length_seq in Hsizes.
  split; [done|].
  split; [|split; [exact Hrefs|by eapply owns_new_vertices_NoDup]].
  apply (f_equal length) in Hsizes. unfold polygon_sizes in Hsizes.
  rewrite length_fmap, length_concat_replicate in Hsizes.
  simpl in Hsizes. lia.
Qed.

(** X13: with [slices] = 0 both [cylinder] and [cone] raise (a division by
    zero) and return no solid, whatever the other arguments. *)
Theorem cylinder_cone_zero_slices_raise (kw : CSG.cylinder_kwargs) (h : heap) :
  CSG.kw_cslices kw = Some 0 →
  CSG.cylinder math_cos math_sin kw h = None
  ∧ CSG.cone math_cos math_sin math_atan2 kw h = None.
Proof.
  intros Hkw. unfold CSG.cylinder, CSG.cone. rewrite Hkw.
  split.
  - do 4 (apply bind_all_None; intros). reflexivity.
  - do 3 (apply bind_all_None; intros). reflexivity.
Qed.

End ConeProofs.

End CylinderProofs.

Lemma cylinder_polygons_witness :
  ∃ c h' os refs,
    CSG.cylinder (λ x, x) (λ x, x) (CSG.CylinderKwargs None None None (Some 2)) empty_heap
    = Some (c, h')
    ∧ new_solid empty_heap h' c os
    ∧ heap_prefix empty_heap h'
    ∧ polygon_sizes os = [3; 4; 3; 3; 4; 3]
    ∧ length os = 6
    ∧ solid_vertex_refs h' c = Some refs
    ∧ NoDup refs.
Proof.
  apply (cylinder_polygons (λ x, x) (λ x, x)
           (CSG.CylinderKwargs None None None (Some 2)) empty_heap).
  - split; exact I.
  - reflexivity.
Defined.

Lemma cone_polygons_witness :
  ∃ c h' os refs,
    CSG.cone (λ x, x) (λ x, x) (λ x _, x)
      (CSG.CylinderKwargs None None None (Some 2)) empty_heap
    = Some (c, h')
    ∧ new_solid empty_heap h' c os
    ∧ heap_prefix empty_heap h'
    ∧ polygon_sizes os = [3; 3; 3; 3]
    ∧ length os = 4
    ∧ solid_vertex_refs h' c = Some refs
    ∧ NoDup refs.
Proof.
  apply (cone_polygons (λ x, x) (λ x, x) (λ x _, x)
           (CSG.CylinderKwargs None None None (Some 2)) empty_heap).
  - split; exact I.
  - reflexivity.
Defined.

Lemma cylinder_cone_zero_slices_raise_witness :
  CSG.cylinder (λ x, x) (λ x, x) (CSG.CylinderKwargs None None None (Some 0)) empty_heap
  = None
  ∧ CSG.cone (λ x, x) (λ x, x) (λ x _, x)
      (CSG.CylinderKwargs None None None (Some 0)) empty_heap = None.
Proof.
  apply (cylinder_cone_zero_slices_raise (λ x, x) (λ x, x) (λ x _, x)
           (CSG.CylinderKwargs None None None (Some 0)) empty_heap).
  reflexivity.
Defined.


(** ** [cube] *)

Lemma adds_polygons_prefix h h' objs : adds_polygons h h' objs → heap_prefix h h'.
Proof.
  intros [(Hl & Hc & Hv) Hp]. repeat split; [done| | |].
  - rewrite Hp. by apply prefix_app_r.
  - by rewrite Hl.
  - by rewrite Hc.
Qed.

(** A loop whose body creates polygons of known values, for the elements
    that satisfy [P]. *)
Lemma foldM_adds_values {A} (P : A → Prop)
    (f : list loc → A → M (list loc)) (g : A → list polygon_value) :
  (∀ acc a h, P a →
     ∃ h' objs, f acc a h = Some (acc ++ seq (length (polygon_objs h)) (length objs), h')
                ∧ adds_polygons h h' objs
                ∧ owns_new_vertices h h' objs
                ∧ mapM (polygon_value_at h') (seq (length (polygon_objs h)) (length objs))
                  = Some (g a)) →
  ∀ l acc h, Forall P l →
    ∃ h' objs, foldM f acc l h = Some (acc ++ seq (length (polygon_objs h)) (length objs), h')
               ∧ adds_polygons h h' objs
               ∧ owns_new_vertices h h' objs
               ∧ mapM (polygon_value_at h') (seq (length (polygon_objs h)) (length objs))
                 = Some (concat (g <$> l)).
Proof.
  intros Hf. induction l as [|a l IH]; intros acc h Hl.
  - exists h, []. simpl. rewrite app_nil_r. split; [done|].
    split; [apply adds_polygons_refl|]. split; [apply owns_new_vertices_refl|done].
  - apply Forall_cons in Hl as [Ha Hl].
    destruct (Hf acc a h Ha) as (h1 & objs1 & Hrun1 & Hadd1 & Hown1 & Hv1).
    destruct (IH (acc ++ seq (length (polygon_objs h)) (length objs1)) h1 Hl)
      as (h2 & objs2 & Hrun2 & Hadd2 & Hown2 & Hv2).
    exists h2, (objs1 ++ objs2). cbn [foldM].
    rewrite (bind_eq _ _ _ _ _ Hrun1), Hrun2.
    split; [|split; [|split]].
    + destruct Hadd1 as [_ ->]. by rewrite !length_app, seq_app, <- app_assoc.
    + by eapply adds_polygons_trans.
    + eapply owns_new_vertices_trans; [| |exact Hown1|exact Hown2];
        apply constructing_length; [apply Hadd1|apply Hadd2].
    + rewrite fmap_cons. cbn [concat]. rewrite length_app, seq_app.
      apply mapM_Some, Forall2_app.
      * apply mapM_Some in Hv1. eapply Forall2_impl; [exact Hv1|]. simpl.
        intros p v Hp. eapply polygon_value_at_prefix; [|exact Hp].
        by eapply adds_polygons_prefix.
      * apply mapM_Some. destruct Hadd1 as [_ Hp1]. rewrite Hp1, length_app in Hv2.
        exact Hv2.
Qed.

(** The inner loop of [cube]: a vertex with no normal at each corner of
    the face. *)
Lemma cube_corners_run (c : Vector.t) (r : list float) (r0 r1 r2 : float) (idxs : list nat) :
  r !! 0 = Some r0 → r !! 1 = Some r1 → r !! 2 = Some r2 →
  ∀ vertices h,
    foldM (λ vertices i,
             r0 <- lift_option (r !! 0) ;;
             r1 <- lift_option (r !! 1) ;;
             r2 <- lift_option (r !! 2) ;;
             let vector := CSG.cube_corner c r0 r1 r2 i in
             vertex <- Vertex.new vector (Vector.mk 0 0 0) ;;
             ret (vertices ++ [vertex]))
          vertices idxs h
    = Some (vertices ++ seq (length (vertex_objs h)) (length idxs),
            Heap (vertex_objs h
                    ++ ((λ i, Vertex_obj (CSG.cube_corner c r0 r1 r2 i) (Vector.mk 0 0 0))
                          <$> idxs))
                 (polygon_objs h) (list_objs h) (csg_objs h)).
Proof.
  intros H0 H1 H2.
  match goal with |- ∀ vertices h, foldM ?f _ _ _ = _ => set (body := f) end.
  assert (∀ vertices i h,
            body vertices i h
            = Some (vertices ++ [length (vertex_objs h)],
                    Heap (vertex_objs h
                            ++ [Vertex_obj (CSG.cube_corner c r0 r1 r2 i) (Vector.mk 0 0 0)])
                         (polygon_objs h) (list_objs h) (csg_objs h))) as Hbody.
  { intros vertices i h. subst body. cbn beta. rewrite H0, H1, H2. done. }
  clearbody body.
  induction idxs as [|i idxs IH]; intros vertices h.
  - simpl. unfold ret. by rewrite !app_nil_r, heap_eta.
  - cbn [foldM]. rewrite (bind_eq _ _ _ _ _ (Hbody vertices i h)).
    rewrite IH. simpl. rewrite length_app. simpl.
    by rewrite <- !app_assoc, Nat.add_1_r.
Qed.

(** A polygon of three or more existing vertices, with its plane. *)
Lemma Polygon_new_plane h a b c vs oa ob oc :
  vertex_objs h !! a = Some oa → vertex_objs h !! b = Some ob →
  vertex_objs h !! c = Some oc →
  Polygon.new (a :: b :: c :: vs) h
  = Some (length (polygon_objs h),
          Heap (vertex_objs h)
               (polygon_objs h
                  ++ [Polygon_obj (a :: b :: c :: vs)
                        (Plane.fromPoints (pos oa) (pos ob) (pos oc))])
               (list_objs h) (csg_objs h)).
Proof.
  intros Ha Hb Hc. unfold Polygon.new, bind, get_vertex, lift_option, alloc_polygon.
  by rewrite Ha, Hb, Hc.
Qed.

(** A polygon built from the Vertex objects created last. *)
Lemma Polygon_new_last (V objs : list vertex) P L C :
  3 ≤ length objs →
  Polygon.new (seq (length V) (length objs)) (Heap (V ++ objs) P L C)
  = Some (length P,
          Heap (V ++ objs)
               (P ++ [Polygon_obj (seq (length V) (length objs)) (first_plane objs)])
               L C).
Proof.
  intros Hlen. destruct objs as [|oa [|ob [|oc objs]]]; simpl in Hlen; try lia.
  cbn [length seq first_plane].
  apply Polygon_new_plane; simpl.
  - by rewrite lookup_app_r, Nat.sub_diag by lia.
  - rewrite lookup_app_r by lia.
    by replace (S (length V) - length V) with 1 by lia.
  - rewrite lookup_app_r by lia.
    by replace (S (S (length V)) - length V) with 2 by lia.
Qed.

Lemma polygon_value_at_last (V objs : list vertex) P L C pl :
  polygon_value_at
    (Heap (V ++ objs) (P ++ [Polygon_obj (seq (length V) (length objs)) pl]) L C)
    (length P)
  = Some (PolygonValue objs pl).
Proof.
  unfold polygon_value_at. cbn [polygon_objs vertex_objs].
  rewrite lookup_app_r, Nat.sub_diag by lia. cbn [lookup list_lookup mbind option_bind vertices plane].
  by rewrite mapM_lookup_seq.
Qed.

(** The body of the outer loop of [cube]: the face with the corner indices
    [fst v]. *)
Lemma cube_face_adds (c : Vector.t) (r : list float) (r0 r1 r2 : float)
    (polygons : list loc) (v : list nat * list Z) (h : heap) :
  r !! 0 = Some r0 → r !! 1 = Some r1 → r !! 2 = Some r2 →
  3 ≤ length (fst v) →
  ∃ h' objs,
    (vertices <-
       foldM (λ vertices i,
                r0 <- lift_option (r !! 0) ;;
                r1 <- lift_option (r !! 1) ;;
                r2 <- lift_option (r !! 2) ;;
                let vector := CSG.cube_corner c r0 r1 r2 i in
                vertex <- Vertex.new vector (Vector.mk 0 0 0) ;;
                ret (vertices ++ [vertex]))
             [] (fst v) ;;
     polygon <- Polygon.new vertices ;;
     ret (polygons ++ [polygon])) h
    = Some (polygons ++ seq (length (polygon_objs h)) (length objs), h')
    ∧ adds_polygons h h' objs
    ∧ owns_new_vertices h h' objs
    ∧ mapM (polygon_value_at h') (seq (length (polygon_objs h)) (length objs))
      = Some [cube_face_value c r0 r1 r2 (fst v)].
Proof.
  intros H0 H1 H2 Hlen. destruct v as [idxs n]. cbn [fst] in *.
  rewrite (bind_eq _ _ _ _ _ (cube_corners_run c r r0 r1 r2 idxs H0 H1 H2 [] h)).
  set (mk := λ i, Vertex_obj (CSG.cube_corner c r0 r1 r2 i) (Vector.mk 0 0 0)).
  cbn [app]. rewrite <- (length_fmap mk idxs).
  rewrite (bind_eq _ _ _ _ _ (Polygon_new_last _ (mk <$> idxs) _ _ _
                               ltac:(by rewrite length_fmap))).
  eexists _, [_]. split; [reflexivity|]. split; [|split].
  - split; [|done]. repeat split; simpl; try done. by apply prefix_app_r.
  - unfold owns_new_vertices. simpl. rewrite app_nil_r, length_app. f_equal. lia.
  - cbn [length seq mapM]. rewrite polygon_value_at_last. done.
Qed.

(** [cube] on a centre and radii that can be read from the arguments. *)
Lemma cube_run (center radius : option CSG.float_or_list)
    (c : Vector.t) (r0 r1 r2 : float) (h : heap) :
  cube_center center = Some c →
  cube_radii radius = Some (r0, r1, r2) →
  ∃ s h' os,
    CSG.cube center radius h = Some (s, h')
    ∧ new_solid h h' s os
    ∧ heap_prefix h h'
    ∧ solid_value h' s = Some (cube_value c r0 r1 r2)
    ∧ length os = 6
    ∧ solid_vertex_refs h' s
      = Some (seq (length (vertex_objs h))
                  (length (vertex_objs h') - length (vertex_objs h))).
Proof.
  intros Hc Hr. unfold CSG.cube.
  assert (match default (CSG.AList [0; 0; 0]%float) center with
          | CSG.AList l => CSG.Vector_of_list l
          | CSG.AFloat _ => ret (Vector.mk 0 0 0)
          end h = Some (c, h)) as Hrunc.
  { unfold cube_center in Hc.
    destruct (default _ center) as [f|[|x [|y [|z l]]]]; simplify_eq/=; done. }
  rewrite (bind_eq _ _ _ _ _ Hrunc).
  set (r := match default (CSG.AList [1; 1; 1]%float) radius with
            | CSG.AList l => l
            | CSG.AFloat f => [f; f; f]
            end).
  assert (r !! 0 = Some r0 ∧ r !! 1 = Some r1 ∧ r !! 2 = Some r2) as (H0 & H1 & H2).
  { subst r. unfold cube_radii in Hr.
    destruct (default _ radius) as [f|[|x [|y [|z l]]]]; simplify_eq/=; done. }
  clearbody r.
  match goal with
  | |- context [foldM ?f [] CSG.vertex_data] =>
      destruct (foldM_adds_values (λ v : list nat * list Z, 3 ≤ length (fst v))
                  f (λ v, [cube_face_value c r0 r1 r2 (fst v)]))
        with (l := CSG.vertex_data) (acc := @nil nat) (h := h)
        as (h1 & os & Hrun & Hadd & Hown & Hvals)
  end.
  { intros acc v h0 Hv. by apply cube_face_adds. }
  { unfold CSG.vertex_data. repeat constructor; simpl; lia. }
  rewrite (bind_eq _ _ _ _ _ Hrun). simpl app.
  destruct Hadd as [Hcons Hp].
  destruct (new_solid_run h h1 os Hcons Hp)
    as (s & h' & Hrun' & Hnew & Hpre & Hv' & Hrefs).
  exists s, h', os. split; [exact Hrun'|].
  rewrite concat_singletons in Hvals.
  pose proof Hnew as (l & Hcs0 & Hcs & Hl0 & Hl & Hp').
  split; [done|]. split; [done|]. split; [|split].
  - unfold solid_value, list_value_at. rewrite Hcs. simpl. rewrite Hl. simpl.
    unfold cube_value. rewrite <- list_fmap_compose.
    etrans; [|exact Hvals]. apply mapM_ext. intros p.
    unfold polygon_value_at. by rewrite Hv', Hp', Hp.
  - apply mapM_Some, Forall2_length in Hvals.
    by rewrite length_seq, length_fmap in Hvals.
  - by rewrite Hrefs, Hown, Hv'.
Qed.

(** X14: for a centre and radii that can be read from the arguments,
    [cube] returns a new solid and changes no object that existed before.
    The solid has six new polygons of four new vertices each, one face per
    row of [vertex_data]: the vertices of a face are at the corners
    [c + r * (+-1, +-1, +-1)] that the row lists, in that order, none has a
    normal (the face normals of the table are not used), and the plane of
    the face is the plane through its first three corners.  No two faces
    share a Vertex object: each vertex reference of the solid is to a
    Vertex object of its own. *)
Theorem cube_polygons (center radius : option CSG.float_or_list)
    (c : Vector.t) (r0 r1 r2 : float) (h : heap) :
  cube_center center = Some c →
  cube_radii radius = Some (r0, r1, r2) →
  ∃ s h' os refs,
    CSG.cube center radius h = Some (s, h')
    ∧ new_solid h h' s os
    ∧ heap_prefix h h'
    ∧ solid_value h' s = Some (cube_value c r0 r1 r2)
    ∧ length os = 6
    ∧ solid_vertex_refs h' s = Some refs
    ∧ NoDup refs.
Proof.
  intros Hc Hr.
  destruct (cube_run center radius c r0 r1 r2 h Hc Hr)
    as (s & h' & os & Hrun & Hnew & Hpre & Hval & Hlen & Hrefs).
  eexists s, h', os, _. repeat (split; [done|]). apply NoDup_seq.
Qed.

Lemma cube_polygons_witness :
  ∃ s h' os refs,
    CSG.cube None (Some (CSG.AFloat 2)) empty_heap = Some (s, h')
    ∧ new_solid empty_heap h' s os
    ∧ heap_prefix empty_heap h'
    ∧ solid_value h' s = Some (cube_value (Vector.mk 0 0 0) 2 2 2)
    ∧ length os = 6
    ∧ solid_vertex_refs h' s = Some refs
    ∧ NoDup refs.
Proof.
  apply (cube_polygons None (Some (CSG.AFloat 2)) (Vector.mk 0 0 0) 2 2 2 empty_heap);
    reflexivity.
Defined.

(** X19: a cube can be moved as a whole.  After
    [s = cube(center, radius); s.translate(d)] each corner of each face is
    at its place moved by [d], once: no Vertex object is shared between
    faces, so none is moved twice.  The planes of the faces are as [cube]
    computed them, and no object that existed before has changed. *)
Theorem cube_then_translate (center radius : option CSG.float_or_list)
    (c : Vector.t) (r0 r1 r2 : float) (disp : list float) (d0 d1 d2 : float)
    (h : heap) :
  cube_center center = Some c →
  cube_radii radius = Some (r0, r1, r2) →
  disp !! 0 = Some d0 → disp !! 1 = Some d1 → disp !! 2 = Some d2 →
  ∃ s h1 h2,
    CSG.cube center radius h = Some (s, h1)
    ∧ CSG.translate s disp h1 = Some (tt, h2)
    ∧ heap_prefix h h2
    ∧ solid_value h2 s
      = Some (moved_polygon (Vector.mk d0 d1 d2) <$> cube_value c r0 r1 r2).
Proof.
  intros Hc Hr H0 H1 H2.
  destruct (cube_run center radius c r0 r1 r2 h Hc Hr)
    as (s & h1 & os & Hrun & Hnew & Hpre & Hval & Hlen & Hrefs).
  eexists s, h1, _. split; [exact Hrun|].
  split; [exact (translate_run _ _ _ _ _ _ _ _ H0 H1 H2 Hval Hrefs)|].
  split.
  - apply update_vertices_prefix; [done|]. apply Forall_seq_ge.
  - apply (update_vertices_value (moved (Vector.mk d0 d1 d2))); [done|done|].
    apply NoDup_seq.
Qed.

Lemma cube_then_translate_witness :
  ∃ s h1 h2,
    CSG.cube None (Some (CSG.AFloat 2)) empty_heap = Some (s, h1)
    ∧ CSG.translate s [1; 0; 0]%float h1 = Some (tt, h2)
    ∧ heap_prefix empty_heap h2
    ∧ solid_value h2 s
      = Some (moved_polygon (Vector.mk 1 0 0) <$> cube_value (Vector.mk 0 0 0) 2 2 2).
Proof.
  apply (cube_then_translate None (Some (CSG.AFloat 2)) (Vector.mk 0 0 0) 2 2 2
           [1; 0; 0]%float 1 0 0 empty_heap);
    reflexivity.
Defined.


(** X15: the table [vertex_data] of [cube] describes a closed box whose
    faces all face outwards.  In ints, for the box of centre 0 and radii 1:
    the four corners of a face lie on the side of the box that the face
    normal of the row names; the face is wound counter-clockwise seen from
    outside (the cross product of its first two edges is 4 times its
    normal); and every directed edge of a face occurs once among the edges
    of the six faces, its reverse once as well.  [corner_sign_Z] is the
    sign that [cube] multiplies a radius with. *)
Theorem cube_faces_closed_and_outward :
  (∀ i m, (corner_sign_Z i m = 1%Z ∧ CSG.corner_sign i m = 1%float)
          ∨ (corner_sign_Z i m = (-1)%Z ∧ CSG.corner_sign i m = (-1)%float))
  ∧ Forall (λ v, Forall (λ i, Forall2 (λ s n, n = 0%Z ∨ s = n) (unit_corner i) (snd v))
                   (fst v))
      CSG.vertex_data
  ∧ Forall (λ v, match fst v with
                 | a :: b :: c :: _ =>
                     cross_Z (minus_Z (unit_corner b) (unit_corner a))
                             (minus_Z (unit_corner c) (unit_corner a))
                     = (λ x, 4 * x)%Z <$> snd v
                 | _ => False
                 end)
      CSG.vertex_data
  ∧ Forall (λ e, count_edge e cube_edges = 1
                 ∧ count_edge (snd e, fst e) cube_edges = 1)
      cube_edges.
Proof.
  split; [|split; [|split]].
  - intros i m. unfold corner_sign_Z, CSG.corner_sign.
    destruct (Nat.land i m =? 0); [right|left]; done.
  - unfold CSG.vertex_data.
    repeat (constructor; [repeat (constructor; [repeat constructor; (by left) || (by right)|]); constructor|]).
    constructor.
  - unfold CSG.vertex_data. repeat (constructor; [reflexivity|]). constructor.
  - apply Forall_forall. intros e He.
    unfold cube_edges in He. 
    vm_compute in He.
    repeat (apply elem_of_cons in He as [->|He]; [split; reflexivity|]).
    by apply elem_of_nil in He.
Qed.


(** ** The indexed mesh of [toVerticesAndPolygons] *)

(** What [toVerticesAndPolygons] returns, with the store left as it was. *)
Lemma toVerticesAndPolygons_run (h : heap) (self : loc) (pvs : list polygon_value) :
  solid_value h self = Some pvs →
  Forall (λ pv, Forall (λ o, key_is_number (vertex_key o)) (pv_vertices pv)) pvs →
  ∃ cells,
    CSG.toVerticesAndPolygons self h
    = Some ((first_seen (concat (polygon_keys <$> pvs)), cells,
             sum_list (length <$> cells)), h)
    ∧ Forall2 (Forall2 (first_index_of (first_seen (concat (polygon_keys <$> pvs)))))
        (polygon_keys <$> pvs) cells.
Proof.
  intros Hval Hnum. unfold solid_value, list_value_at in Hval.
  destruct (csg_objs h !! self) as [l|] eqn:Hc; simplify_eq/=.
  destruct (list_objs h !! l) as [ps|] eqn:Hl; simplify_eq/=.
  apply mapM_Some in Hval.
  destruct (index_polygons_run h ps pvs [] [] 0 Hval Hnum) as (cells & Hrun & Hcells).
  exists cells. split; [|done].
  unfold CSG.toVerticesAndPolygons.
  erewrite bind_eq; last by (unfold get_csg; rewrite Hc).
  erewrite bind_eq; last by (unfold get_list; rewrite Hl).
  change (@nil (vkey * nat)) with (dict_of []).
  rewrite (bind_eq _ _ _ _ _ Hrun). simpl.
  rewrite sorted_by_index_dict_of. unfold ret.
  change (map fst ?l) with (l.*1). by rewrite fst_dict_of.
Qed.

(** The keys kept by [first_seen] are pairwise different. *)
Lemma seen_step_different seen k :
  pairwise_different seen → pairwise_different (seen_step seen k).
Proof.
  intros Hd. unfold seen_step.
  destruct (existsb _ seen) eqn:Hex; [exact Hd|].
  intros i j ki kj Hij Hi Hj.
  assert (j < length (seen ++ [k])) as Hlt by by eapply lookup_lt_Some.
  rewrite length_app in Hlt. simpl in Hlt.
  rewrite lookup_app_l in Hi by lia.
  destruct (decide (j < length seen)) as [Hj'|Hj'].
  - rewrite lookup_app_l in Hj by done. exact (Hd i j ki kj Hij Hi Hj).
  - rewrite lookup_app_r in Hj by lia.
    replace (j - length seen) with 0 in Hj by lia. simplify_eq/=.
    destruct (vkey_eqb ki kj) eqn:Heq; [|done].
    assert (existsb (λ k', vkey_eqb k' kj) seen = true) as Hex'.
    { apply existsb_exists. exists ki. split; [|done].
      apply list_elem_of_In. by eapply list_elem_of_lookup_2. }
    congruence.
Qed.

Lemma first_seen_different ks : pairwise_different (first_seen ks).
Proof.
  unfold first_seen.
  assert (pairwise_different []) as Hnil.
  { intros i j ki kj _ Hi. by rewrite lookup_nil in Hi. }
  revert Hnil. generalize (@nil vkey) as seen.
  induction ks as [|k ks IH]; intros seen Hd; simpl; [done|].
  apply IH. by apply seen_step_different.
Qed.

Lemma seen_step_length seen k : length (seen_step seen k) ≤ S (length seen).
Proof.
  unfold seen_step. destruct (existsb _ seen); [lia|].
  rewrite length_app. simpl. lia.
Qed.

Lemma first_seen_length ks : length (first_seen ks) ≤ length ks.
Proof.
  unfold first_seen.
  assert (∀ seen, length (foldl seen_step seen ks) ≤ length seen + length ks) as H.
  { induction ks as [|k ks IH]; intros seen; simpl; [lia|].
    specialize (IH (seen_step seen k)).
    pose proof (seen_step_length seen k). lia. }
  apply (H []).
Qed.

Lemma sum_list_lengths {A} (ls : list (list A)) :
  sum_list (length <$> ls) = length (concat ls).
Proof.
  induction ls as [|l ls IH]; [done|].
  rewrite fmap_cons. cbn [concat sum_list sum_list_with]. rewrite length_app.
  by rewrite <- IH.
Qed.

Lemma Forall2_concat_length {A B} (ls : list (list A)) (ks : list (list B)) :
  Forall2 (λ l k, length l = length k) ls ks → length (concat ls) = length (concat ks).
Proof.
  induction 1 as [|l k ls ks Hlk _ IH]; [done|].
  cbn [concat]. rewrite !length_app. lia.
Qed.

Lemma first_index_of_lt verts k i : first_index_of verts k i → i < length verts.
Proof. intros [(k' & Hi & _) _]. by eapply lookup_lt_Some. Qed.

(** X16: for a solid whose vertex coordinates are numbers,
    [toVerticesAndPolygons] returns a well-formed indexed mesh and leaves
    the store as it was: there is one cell per polygon, with one index per
    vertex of the polygon; every index is in range of the vertex list; the
    vertex list holds no two equal triples; and it is no longer than
    [count], which is the total number of indices. *)
Theorem toVerticesAndPolygons_well_formed (h : heap) (self : loc)
    (pvs : list polygon_value) :
  solid_value h self = Some pvs →
  Forall (λ pv, Forall (λ o, key_is_number (vertex_key o)) (pv_vertices pv)) pvs →
  ∃ verts cells count,
    CSG.toVerticesAndPolygons self h = Some ((verts, cells, count), h)
    ∧ Forall2 (λ pv cell, length cell = length (pv_vertices pv)) pvs cells
    ∧ Forall (Forall (λ i, i < length verts)) cells
    ∧ (∀ i j ki kj, i < j → verts !! i = Some ki → verts !! j = Some kj →
                    vkey_eqb ki kj = false)
    ∧ count = length (concat cells)
    ∧ length verts ≤ count.
Proof.
  intros Hval Hnum.
  destruct (toVerticesAndPolygons_run h self pvs Hval Hnum) as (cells & Hrun & Hcells).
  eexists _, cells, _. split; [exact Hrun|].
  set (verts := first_seen (concat (polygon_keys <$> pvs))) in *.
  assert (Forall2 (λ keys cell, length keys = length cell) (polygon_keys <$> pvs) cells)
    as Hlens.
  { eapply Forall2_impl; [exact Hcells|]. simpl.
    intros keys cell Hc. by apply Forall2_length in Hc. }
  split; [|split; [|split; [|split]]].
  - eapply Forall2_impl; [exact (proj1 (Forall2_fmap_l _ _ _ _) Hlens)|]. simpl.
    intros pv cell Hc. unfold polygon_keys in Hc. by rewrite length_fmap in Hc.
  - clear -Hcells. clearbody verts. revert Hcells.
    generalize (polygon_keys <$> pvs) as kss. intros kss Hcells.
    induction Hcells as [|keys cell ks cs Hc _ IH]; constructor; [|done].
    clear -Hc. induction Hc as [|k i ks idxs Hk _ IH]; constructor; [|done].
    by eapply first_index_of_lt.
  - apply first_seen_different.
  - apply sum_list_lengths.
  - rewrite sum_list_lengths, <- (Forall2_concat_length _ _ Hlens).
    apply first_seen_length.
Qed.

Lemma toVerticesAndPolygons_well_formed_witness :
  ∃ verts cells count,
    CSG.toVerticesAndPolygons 0 tri_heap = Some ((verts, cells, count), tri_heap)
    ∧ Forall2 (λ pv cell, length cell = length (pv_vertices pv)) tri_value cells
    ∧ Forall (Forall (λ i, i < length verts)) cells
    ∧ (∀ i j ki kj, i < j → verts !! i = Some ki → verts !! j = Some kj →
                    vkey_eqb ki kj = false)
    ∧ count = length (concat cells)
    ∧ length verts ≤ count.
Proof.
  apply (toVerticesAndPolygons_well_formed tri_heap 0 tri_value).
  - reflexivity.
  - repeat constructor.
Defined.


(** ** [rotate] and the origin *)













(** ** [saveVTK] of an empty solid *)

(** X18: for a solid with no polygon, [saveVTK] writes the four header
    lines, a POINTS line that announces no point and a POLYGONS line that
    announces no cell and no number, and nothing after it; the store is
    left as it was. *)
Theorem saveVTK_empty_solid (float_str : float → string) (h : heap) (self : loc) :
  solid_value h self = Some [] →
  CSG.saveVTK float_str self h
  = Some (("# vtk DataFile Version 3.0" ++ nl
           ++ "pycsg output" ++ nl
           ++ "ASCII" ++ nl
           ++ "DATASET POLYDATA" ++ nl
           ++ "POINTS 0 float" ++ nl
           ++ "POLYGONS 0 0" ++ nl)%string, h).
Proof.
  intros Hval. apply solid_value_nil in Hval as (l & Hc & Hl).
  rewrite saveVTK_eq.
  assert (CSG.toVerticesAndPolygons self h = Some (([], [], 0), h)) as Hrun.
  { unfold CSG.toVerticesAndPolygons.
    erewrite bind_eq; last by (unfold get_csg; rewrite Hc).
    erewrite bind_eq; last by (unfold get_list; rewrite Hl).
    reflexivity. }
  rewrite (bind_eq _ _ _ _ _ Hrun). reflexivity.
Qed.

Lemma saveVTK_empty_solid_witness :
  CSG.saveVTK (λ _, "0.0"%string) 1 three_solids_heap
  = Some (("# vtk DataFile Version 3.0" ++ nl
           ++ "pycsg output" ++ nl
           ++ "ASCII" ++ nl
           ++ "DATASET POLYDATA" ++ nl
           ++ "POINTS 0 float" ++ nl
           ++ "POLYGONS 0 0" ++ nl)%string, three_solids_heap).
Proof.
  apply (saveVTK_empty_solid (λ _, "0.0"%string) three_solids_heap 1).
  reflexivity.
Defined.

